(** * The AI chat edge function: usage-governed inference gateway

    A shallow embedding of [supabase/functions/ai-chat/index.ts] together
    with the two tables it touches ([ai_usage] of migration 006 and
    [conversation_messages] of migration 002), and the properties of the
    gateway that follow from the code; then the status and history
    functions and the trigger of the two migrations, and the client's
    helpers that call them, with what ties them to the handler.

    Conventions of the embedding:
    - instants are [Z], milliseconds since the epoch (what [Date.now()] and
      [getTime()] return); the edge runtime's local time zone is UTC;
    - integral JavaScript numbers (token counts, row counts, instants) are
      [Z]: every value the handler computes on them stays far below 2^53,
      where double arithmetic on integers is exact;
    - the one fractional quantity, the cost estimate, is an IEEE-754
      binary64 value: a primitive float, with the kernel's operations;
    - everything the outside world decides during one request (the clock,
      the identity verifier, storage failures, the provider's answer) is a
      field of the record [World]; the tables, the console and the list of
      calls sent to the provider form the [Store] that the handler threads;
    - the platform provides [SUPABASE_URL] and the service role key, so
      that creating the client does not fail, and a query that succeeds
      returns every row that matches it;
    - a header value is what the Fetch standard makes of it when it is
      set ([header_value]), and the trigger of migration 002 runs under
      the row level security of the session that inserts the message
      ([Chat.RowSecurity]), which the edge function's session bypasses;
    - the database's session time zone is UTC as well, [NOW()] is one
      instant for a whole call of a function, and the [DECIMAL(10, 6)]
      value the [cost_estimate] column holds for a row is a parameter
      ([stored_cost]) of the functions that sum it. *)

From Stdlib Require Import ZArith List String Ascii Bool Lia.
From Stdlib Require Import QArith Qabs Qpower Qfield Lqa.
From Stdlib Require Import Floats.PrimFloat Floats.FloatOps Floats.SpecFloat.
From Stdlib Require Floats.FloatAxioms.
From Stdlib Require Import Numbers.Cyclic.Int63.Uint63.
From Stdlib Require Import Sorting.Sorted Sorting.Permutation.
Import ListNotations.

Set Warnings "-register-all,-inexact-float".

Open Scope string_scope.
Open Scope Z_scope.

(** ** JavaScript values used by the handler *)

Module JS.

(** Truthiness of a string: only the empty string is falsy. *)
Definition truthy (s : string) : bool := negb (s =? "")%string.

(** [s.replace(pat, rep)] with a string pattern: the first occurrence
    of [pat] is replaced, the rest of [s] is kept. *)
Fixpoint drop (n : nat) (s : string) : string :=
  match n, s with
  | O, _ => s
  | S n', String _ s' => drop n' s'
  | S _, EmptyString => EmptyString
  end.

Fixpoint replace (pat rep s : string) : string :=
  if prefix pat s then rep ++ drop (String.length pat) s
  else match s with
       | EmptyString => EmptyString
       | String c s' => String c (replace pat rep s')
       end.

(** Numbers of the integral fragment, with NaN. *)
Inductive num : Type :=
| NaN
| Int (z : Z).

Definition sub (a b : num) : num :=
  match a, b with
  | Int x, Int y => Int (x - y)
  | _, _ => NaN
  end.

(** [Math.floor(a / d)] for a positive integer constant [d]: the floor
    of the quotient, NaN when [a] is. *)
Definition floor_div (a : num) (d : Z) : num :=
  match a with
  | Int x => Int (x / d)
  | NaN => NaN
  end.

(** binary64 *)
Definition double := PrimFloat.float.

(** The double of an integer (exact below 2^53, where every count of the
    handler lies). *)
Definition of_Z (z : Z) : double :=
  if z <? 0 then PrimFloat.opp (PrimFloat.of_uint63 (Uint63.of_Z (- z)))
  else PrimFloat.of_uint63 (Uint63.of_Z z).

Definition div (x y : double) : double := PrimFloat.div x y.
Definition mul (x y : double) : double := PrimFloat.mul x y.
Definition add (x y : double) : double := PrimFloat.add x y.

(** The literal [0.002]: the double nearest to 2/1000. *)
Definition lit_0_002 : double := 0.002%float.

(** Sign, mantissa and exponent of a double. *)
Definition decode (x : double) : spec_float := Prim2SF x.

(** The rational a finite double denotes ([0] for the others). *)
Definition to_Q (x : double) : Q :=
  match decode x with
  | S754_finite s m e =>
      let v := if (0 <=? e)%Z
               then inject_Z (Z.pos m * 2 ^ e)
               else Qmake (Z.pos m) (Z.to_pos (2 ^ (- e))) in
      if s then Qopp v else v
  | _ => 0%Q
  end.

(** Values of database columns as they arrive in a query result. *)
Inductive value : Type :=
| VNull
| VInt (z : Z)
| VDouble (x : double)
| VStr (s : string)
| VTime (ms : Z).        (* a timestamptz, serialised as an ISO-8601 string *)

(** An object: its own properties in order. *)
Definition object := list (string * value).

(** The object restricted to the named columns, as a [select] of those
    columns returns it. *)
Definition pick (columns : list string) (o : object) : object :=
  filter (fun kv => existsb (String.eqb (fst kv)) columns) o.

(** Property access; [None] is [undefined]. *)
Fixpoint get (o : object) (k : string) : option value :=
  match o with
  | [] => None
  | (k', v) :: o' => if (k' =? k)%string then Some v else get o' k
  end.

(** [new Date(v).getTime()] for a property read from a row: the instant
    of a timestamp, NaN when the property is missing ([new Date(undefined)]
    is an invalid date); an integer counts milliseconds and [null] is 0.
    A fractional number or free text never stands where the handler reads
    a date; those two cases are given NaN and are never reached. *)
Definition date_getTime (v : option value) : num :=
  match v with
  | Some (VTime ms) => Int ms
  | Some (VInt z) => Int z
  | Some VNull => Int 0
  | Some (VDouble _) => NaN
  | Some (VStr _) => NaN
  | None => NaN
  end.

(** [v || 0] for the value of an INTEGER column. *)
Definition or_zero (v : option value) : Z :=
  match v with
  | Some (VInt z) => z
  | _ => 0
  end.

End JS.

(** ** JSON documents, as [JSON.stringify] writes them *)

Inductive json : Type :=
| JNull
| JNum (z : Z)
| JDouble (x : JS.double)
| JStr (s : string)
| JObj (fields : list (string * json)).

Module Json.

(** A number that is NaN is written as [null]. *)
Definition of_num (n : JS.num) : json :=
  match n with
  | JS.NaN => JNull
  | JS.Int z => JNum z
  end.

(** So is a double that is NaN or infinite. *)
Definition of_double (x : JS.double) : json :=
  if PrimFloat.is_nan x || PrimFloat.is_infinity x then JNull
  else JDouble x.

Fixpoint lookup (k : string) (fields : list (string * json)) : option json :=
  match fields with
  | [] => None
  | (k', v) :: rest => if (k' =? k)%string then Some v else lookup k rest
  end.

Definition field (k : string) (j : json) : option json :=
  match j with
  | JObj fields => lookup k fields
  | _ => None
  end.

Definition keys (j : json) : list string :=
  match j with
  | JObj fields => map fst fields
  | _ => []
  end.

Definition is_number (j : json) : bool :=
  match j with
  | JNum _ => true
  | JDouble _ => true
  | _ => false
  end.

End Json.

(** ** Calendar: the first instant of the current month

    [d = new Date(); d.setDate(1); d.setHours(0, 0, 0, 0)] in a runtime whose
    local time is UTC.  The day of the month is recovered from the day
    number by the usual proleptic-Gregorian computation on 400-year eras
    that start on 1 March. *)

Module Calendar.

Definition ms_per_day : Z := 86400000.

(** Day of the month (1..31) of the day numbered [days] since 1970-01-01. *)
Definition day_of_month (days : Z) : Z :=
  let z := days + 719468 in
  let era := z / 146097 in
  let doe := z - era * 146097 in
  let yoe := (doe - doe / 1460 + doe / 36524 - doe / 146096) / 365 in
  let doy := doe - (365 * yoe + yoe / 4 - yoe / 100) in
  let mp := (5 * doy + 2) / 153 in
  doy - (153 * mp + 2) / 5 + 1.

Definition startOfMonth (now : Z) : Z :=
  let days := now / ms_per_day in
  (days - (day_of_month days - 1)) * ms_per_day.

End Calendar.

(** ** The tables *)

Module AiUsage.

(** One row of [ai_usage] (migration 006). *)
Record row : Type := {
  id : string;
  workspace_id : string;
  user_id : string;
  conversation_id : option string;
  token_count : Z;
  prompt_tokens : Z;
  completion_tokens : Z;
  cost_estimate : JS.double;
  model : string;
  created_at : Z
}.

Definition opt_str (o : option string) : JS.value :=
  match o with
  | Some s => JS.VStr s
  | None => JS.VNull
  end.

(** The row as a query returns it when every column is selected. *)
Definition to_object (r : row) : JS.object :=
  [ ("id", JS.VStr (id r));
    ("workspace_id", JS.VStr (workspace_id r));
    ("user_id", JS.VStr (user_id r));
    ("conversation_id", opt_str (conversation_id r));
    ("token_count", JS.VInt (token_count r));
    ("prompt_tokens", JS.VInt (prompt_tokens r));
    ("completion_tokens", JS.VInt (completion_tokens r));
    ("cost_estimate", JS.VDouble (cost_estimate r));
    ("model", JS.VStr (model r));
    ("created_at", JS.VTime (created_at r)) ].

End AiUsage.

Module ConversationMessages.

(** One row of [conversation_messages] (migration 002). *)
Record row : Type := {
  id : string;
  conversation_id : string;
  role : string;
  content : string;
  tokens_used : Z;
  model : string;
  created_at : Z
}.

End ConversationMessages.

(** ** Requests, responses and the provider *)

Inductive Role : Type := system | user | assistant.

Record Message : Type := {
  role : Role;
  content : string
}.

(** The [messages] property of the parsed body as the handler's test sees
    it: absent or otherwise falsy, present but not an array, or an array. *)
Inductive MessagesField : Type :=
| Falsy
| NotArray
| Array (items : list Message).

Record RequestBody : Type := {
  messages : MessagesField;
  conversationId : option string;
  workspaceId : option string
}.

Record Request : Type := {
  method : string;
  authorization : option string;      (* the Authorization header *)
  json_body : option RequestBody      (* [None]: [req.json()] rejects, or
                                         yields nothing to destructure *)
}.

Inductive Body : Type :=
| Text (s : string)
| Json (j : json).

Record Response : Type := {
  status : Z;
  headers : list (string * string);
  body : Body
}.

Definition corsHeaders : list (string * string) :=
  [ ("Access-Control-Allow-Origin", "*");
    ("Access-Control-Allow-Headers",
     "authorization, x-client-info, apikey, content-type") ].

(** [new Response(JSON.stringify(j), { status, headers: { ...corsHeaders,
    "Content-Type": "application/json" } })] *)
Definition json_response (st : Z) (j : json) : Response :=
  {| status := st;
     headers := corsHeaders ++ [("Content-Type", "application/json")];
     body := Json j |}.

(** [new Response("ok", { headers: corsHeaders })], the CORS preflight
    answer; the status defaults to 200.  The body is a string and the
    init names no content type, so the constructor adds the one of a
    string body after the headers it was given. *)
Definition preflight_response : Response :=
  {| status := 200;
     headers := corsHeaders ++ [("Content-Type", "text/plain;charset=UTF-8")];
     body := Text "ok" |}.

Definition body_field (k : string) (r : Response) : option json :=
  match body r with
  | Json j => Json.field k j
  | Text _ => None
  end.

Definition body_keys (r : Response) : list string :=
  match body r with
  | Json j => Json.keys j
  | Text _ => []
  end.

(** What the provider's chat-completion endpoint is sent. *)
Record ChatRequest : Type := {
  api_key : string;
  chat_model : string;
  chat_messages : list Message;
  max_tokens : Z;
  temperature : Q;
  stream : bool
}.

Record Usage : Type := {
  prompt_tokens : Z;
  completion_tokens : Z;
  total_tokens : Z
}.

(** A completion body: [choices[0].message.content] and [usage]. *)
Record Completion : Type := {
  choice_content : string;
  usage : Usage
}.

(** The body of the provider's response once [json()] has read it. *)
Inductive ProviderBody : Type :=
| Unreadable                               (* [json()] rejects *)
| ErrorBody (message : option string)      (* [{ error: { message } }] *)
| CompletionBody (c : Completion).

Inductive FetchResult : Type :=
| FetchRejected (reason : string)          (* network failure, timeout *)
| FetchResolved (st : Z) (b : ProviderBody).

(** [openaiResponse.ok] *)
Definition ok (st : Z) : bool := (200 <=? st) && (st <=? 299).

Record User : Type := { uid : string }.

(** [{ data: { user }, error }] of [auth.getUser] *)
Inductive AuthResult : Type :=
| AuthUser (u : User)
| AuthNoUser
| AuthError (e : string).

(** ** The world and the store

    A [World] fixes, for one request, every answer that comes from
    outside the handler.  The outcome of a storage operation is whatever
    the database decides, its constraint checks included. *)

Record World : Type := {
  OPENAI_API_KEY : option string;             (* [Deno.env.get] *)
  auth_getUser : string -> AuthResult;
  now_rate : Z;                 (* [Date.now()] of the window start *)
  now_retry : Z;                (* [Date.now()] inside [retryAfter] *)
  now_quota : Z;                (* [new Date()] of the quota check *)
  rate_read_error : option string;
  quota_read_error : option string;
  fetch : ChatRequest -> FetchResult;
  usage_write_error : option string;
  usage_row_id : string;        (* [gen_random_uuid()] *)
  usage_row_now : Z;            (* [NOW()] *)
  message_write_error : option string;
  message_row_id : string;
  message_row_now : Z
}.

Record Store : Type := {
  ai_usage : list AiUsage.row;
  conversation_messages : list ConversationMessages.row;
  console : list (string * string);
  upstream_calls : list ChatRequest
}.

(** ** The handler monad: state, early [return], [throw] *)

Inductive Step (A : Type) : Type :=
| Continue (a : A)
| Return (r : Response)
| Throw (e : string).

Arguments Continue {A} a.
Arguments Return {A} r.
Arguments Throw {A} e.

Definition Handler (A : Type) : Type := Store -> Step A * Store.

Definition ret {A} (a : A) : Handler A := fun s => (Continue a, s).

Definition bind {A B} (m : Handler A) (k : A -> Handler B) : Handler B :=
  fun s =>
    match m s with
    | (Continue a, s') => k a s'
    | (Return r, s') => (Return r, s')
    | (Throw e, s') => (Throw e, s')
    end.

Definition respond {A} (r : Response) : Handler A := fun s => (Return r, s).
Definition throw {A} (e : string) : Handler A := fun s => (Throw e, s).

Declare Scope handler_scope.
Delimit Scope handler_scope with handler.
Notation "x <- m ;; k" := (bind m (fun x => k))
  (at level 61, m at next level, right associativity) : handler_scope.
Notation "m ;; k" := (bind m (fun _ => k))
  (at level 61, right associativity) : handler_scope.
Open Scope handler_scope.

(** The four ways the handler changes the store. *)
Definition log_entry (label detail : string) (s : Store) : Store :=
  {| ai_usage := ai_usage s;
     conversation_messages := conversation_messages s;
     console := console s ++ [(label, detail)];
     upstream_calls := upstream_calls s |}.

Definition add_usage (r : AiUsage.row) (s : Store) : Store :=
  {| ai_usage := ai_usage s ++ [r];
     conversation_messages := conversation_messages s;
     console := console s;
     upstream_calls := upstream_calls s |}.

Definition add_message (r : ConversationMessages.row) (s : Store) : Store :=
  {| ai_usage := ai_usage s;
     conversation_messages := conversation_messages s ++ [r];
     console := console s;
     upstream_calls := upstream_calls s |}.

Definition add_call (q : ChatRequest) (s : Store) : Store :=
  {| ai_usage := ai_usage s;
     conversation_messages := conversation_messages s;
     console := console s;
     upstream_calls := upstream_calls s ++ [q] |}.

(** [console.error(label, detail)] *)
Definition console_error (label detail : string) : Handler unit :=
  fun s => (Continue tt, log_entry label detail s).

(** [{ data, error }] of a query: [data] is [null] when [error] is set. *)
Record QueryResult : Type := {
  data : option (list JS.object);
  error : option string
}.

(** [from("ai_usage").select(columns)] followed by the filters [keep]. *)
Definition select_ai_usage (columns : list string)
    (keep : AiUsage.row -> bool) (failure : option string)
    : Handler QueryResult :=
  fun s =>
    (Continue
       match failure with
       | Some e => {| data := None; error := Some e |}
       | None =>
           {| data := Some (map (fun r => JS.pick columns (AiUsage.to_object r))
                                (filter keep (ai_usage s)));
              error := None |}
       end,
     s).

(** [from("ai_usage").insert(row)]: the row is appended unless the write
    fails; the result carries the error. *)
Definition insert_ai_usage (r : AiUsage.row) (failure : option string)
    : Handler (option string) :=
  fun s =>
    match failure with
    | Some e => (Continue (Some e), s)
    | None => (Continue None, add_usage r s)
    end.

Definition insert_conversation_message (r : ConversationMessages.row)
    (failure : option string) : Handler (option string) :=
  fun s =>
    match failure with
    | Some e => (Continue (Some e), s)
    | None => (Continue None, add_message r s)
    end.

(** [await fetch(url, init)]: the call is sent, then resolves or rejects. *)
Definition fetch_openai (w : World) (q : ChatRequest) : Handler (Z * ProviderBody) :=
  fun s =>
    match fetch w q with
    | FetchRejected reason => (Throw reason, add_call q s)
    | FetchResolved st b => (Continue (st, b), add_call q s)
    end.

(** ** The handler *)

(** [(tokensUsed / 1000) * 0.002], in doubles. *)
Definition costEstimate (tokensUsed : Z) : JS.double :=
  JS.mul (JS.div (JS.of_Z tokensUsed) (JS.of_Z 1000)) JS.lit_0_002.

Definition default_workspaceId : string :=
  "00000000-0000-0000-0000-000000000001".

Definition error_body (msg : string) : json := JObj [("error", JStr msg)].

(** [if (e) console.error(label, e)] *)
Definition log_if_error (label : string) (e : option string) : Handler unit :=
  match e with
  | Some detail => console_error label detail
  | None => ret tt
  end.

(** [monthlyUsage?.reduce((sum, row) => sum + (row.token_count || 0), 0) || 0] *)
Definition totalTokens_of (monthlyUsage : option (list JS.object)) : Z :=
  match monthlyUsage with
  | Some rows =>
      fold_left (fun sum row => sum + JS.or_zero (JS.get row "token_count")) rows 0
  | None => 0
  end.

(** [recentRequests?.length || 0] *)
Definition requestCount_of (recentRequests : option (list JS.object)) : Z :=
  match recentRequests with
  | Some rows => Z.of_nat (List.length rows)
  | None => 0
  end.

(** [3600 - Math.floor((Date.now() - new Date(first.created_at).getTime()) / 1000)] *)
Definition retryAfter (now : Z) (first : JS.object) : JS.num :=
  JS.sub (JS.Int 3600)
         (JS.floor_div
            (JS.sub (JS.Int now) (JS.date_getTime (JS.get first "created_at")))
            1000).

Definition rate_limit_response (retry : JS.num) : Response :=
  json_response 429
    (JObj [ ("error", JStr "Rate limit exceeded. Maximum 20 requests per hour.");
            ("retryAfter", Json.of_num retry) ]).

Definition quota_response (totalTokens : Z) : Response :=
  json_response 429
    (JObj [ ("error", JStr "Monthly AI quota exceeded (1M tokens)");
            ("usage", JObj [ ("current", JNum totalTokens);
                             ("limit", JNum 1000000) ]) ]).

Definition upstream_error_response (st : Z) (details : string) : Response :=
  json_response st
    (JObj [ ("error", JStr "OpenAI API error");
            ("details", JStr details) ]).

Definition success_response (assistantMessage : string) (tokensUsed : Z)
    (cost : JS.double) (totalTokens : Z) : Response :=
  json_response 200
    (JObj [ ("message", JStr assistantMessage);
            ("usage", JObj [ ("tokens", JNum tokensUsed);
                             ("cost", Json.of_double cost);
                             ("monthlyTotal", JNum (totalTokens + tokensUsed));
                             ("monthlyLimit", JNum 1000000) ]) ]).

Definition internal_error_response (msg : string) : Response :=
  json_response 500
    (JObj [ ("error", JStr "Internal server error");
            ("message", JStr msg) ]).

(** [error.error?.message || "Unknown error"] on the parsed error body *)
Definition error_details (b : ProviderBody) : option string :=
  match b with
  | Unreadable => None
  | ErrorBody (Some m) => Some (if JS.truthy m then m else "Unknown error")
  | ErrorBody None => Some "Unknown error"
  | CompletionBody _ => Some "Unknown error"
  end.

(** The handler runs six phases in order; each is one stretch of the
    [try] block.  Exceptions raised by the runtime itself carry its own
    message, which the embedding abbreviates to the name of the error. *)

(** Lines 31-87: the API key, the credential, the body and its [messages]. *)
Definition accept (w : World) (req : Request)
    : Handler (string * User * RequestBody * list Message) :=
  openaiApiKey <-
    match OPENAI_API_KEY w with
    | Some k => if JS.truthy k then ret k
                else throw "OpenAI API key not configured"
    | None => throw "OpenAI API key not configured"
    end ;;
  authHeader <-
    match authorization req with
    | Some h => if JS.truthy h then ret h
                else respond (json_response 401 (error_body "Missing authorization header"))
    | None => respond (json_response 401 (error_body "Missing authorization header"))
    end ;;
  let token := JS.replace "Bearer " "" authHeader in
  u <-
    match auth_getUser w token with
    | AuthUser u => ret u
    | AuthNoUser | AuthError _ =>
        respond (json_response 401 (error_body "Invalid authorization token"))
    end ;;
  parsed <-
    match json_body req with
    | Some b => ret b
    | None => throw "SyntaxError"
    end ;;
  msgs <-
    match messages parsed with
    | Array items => ret items
    | Falsy | NotArray =>
        respond (json_response 400 (error_body "Invalid messages format"))
    end ;;
  ret (openaiApiKey, u, parsed, msgs).

(** Lines 89-118: the user's requests in the last hour. *)
Definition rateCheck (w : World) (u : User) : Handler unit :=
  let oneHourAgo := now_rate w - 60 * 60 * 1000 in
  rate <- select_ai_usage ["id"]
            (fun r => (AiUsage.user_id r =? uid u)%string
                      && (oneHourAgo <=? AiUsage.created_at r))
            (rate_read_error w) ;;
  log_if_error "Rate limit check error:" (error rate) ;;
  let recentRequests := data rate in
  let requestCount := requestCount_of recentRequests in
  if 20 <=? requestCount then
    first <-
      match recentRequests with
      | Some (o :: _) => ret o
      | _ => throw "TypeError"
      end ;;
    respond (rate_limit_response (retryAfter (now_retry w) first))
  else ret tt.

(** Lines 120-150: the workspace's tokens this month; yields [totalTokens]. *)
Definition quotaCheck (w : World) (workspace : string) : Handler Z :=
  let startOfMonth := Calendar.startOfMonth (now_quota w) in
  quota <- select_ai_usage ["token_count"]
             (fun r => (AiUsage.workspace_id r =? workspace)%string
                       && (startOfMonth <=? AiUsage.created_at r))
             (quota_read_error w) ;;
  log_if_error "Quota check error:" (error quota) ;;
  let totalTokens := totalTokens_of (data quota) in
  if 1000000 <? totalTokens then respond (quota_response totalTokens)
  else ret totalTokens.

(** [new Response(body, { status })] with a body: the constructor throws
    for a status outside 200..599 and for a status that admits no body
    (of those, only 304 is neither below 200 nor OK). *)
Definition response_status_accepted (st : Z) : bool :=
  (200 <=? st) && (st <=? 599) && negb (st =? 304).

(** The call sent to the provider: bearer key, model and sampling options
    fixed, the caller's messages passed on as they came. *)
Definition chat_request (openaiApiKey : string) (msgs : list Message) : ChatRequest :=
  {| api_key := openaiApiKey;
     chat_model := "gpt-3.5-turbo";
     chat_messages := msgs;
     max_tokens := 800;
     temperature := 7 # 10;
     stream := false |}.

(** Lines 152-188: the provider call and the reading of its answer. *)
Definition invoke (w : World) (openaiApiKey : string) (msgs : list Message)
    : Handler Completion :=
  openaiResponse <- fetch_openai w (chat_request openaiApiKey msgs) ;;
  let (st, payload) := openaiResponse in
  (if negb (ok st) then
     match error_details payload with
     | None => throw "SyntaxError"
     | Some details =>
         console_error "OpenAI API error:" details ;;
         if response_status_accepted st
         then respond (upstream_error_response st details)
         else throw (if st =? 304 then "TypeError" else "RangeError")
     end
   else ret tt) ;;
  match payload with
  | CompletionBody c => ret c
  | Unreadable => throw "SyntaxError"
  | ErrorBody _ => throw "TypeError"
  end.

(** [conversationId || null], and the test [if (conversationId)] *)
Definition conversation_of (parsed : RequestBody) : option string :=
  match conversationId parsed with
  | Some c => if JS.truthy c then Some c else None
  | None => None
  end.

(** The row the handler hands to [ai_usage]. *)
Definition usage_row (w : World) (workspace : string) (u : User)
    (parsed : RequestBody) (completion : Completion) : AiUsage.row :=
  {| AiUsage.id := usage_row_id w;
     AiUsage.workspace_id := workspace;
     AiUsage.user_id := uid u;
     AiUsage.conversation_id := conversation_of parsed;
     AiUsage.token_count := total_tokens (usage completion);
     AiUsage.prompt_tokens := prompt_tokens (usage completion);
     AiUsage.completion_tokens := completion_tokens (usage completion);
     AiUsage.cost_estimate := costEstimate (total_tokens (usage completion));
     AiUsage.model := "gpt-3.5-turbo";
     AiUsage.created_at := usage_row_now w |}.

(** The row the handler hands to [conversation_messages]. *)
Definition message_row (w : World) (c : string) (completion : Completion)
    : ConversationMessages.row :=
  {| ConversationMessages.id := message_row_id w;
     ConversationMessages.conversation_id := c;
     ConversationMessages.role := "assistant";
     ConversationMessages.content := choice_content completion;
     ConversationMessages.tokens_used := total_tokens (usage completion);
     ConversationMessages.model := "gpt-3.5-turbo";
     ConversationMessages.created_at := message_row_now w |}.

(** Lines 190-225: the usage event, then the assistant message. *)
Definition record (w : World) (workspace : string) (u : User)
    (parsed : RequestBody) (completion : Completion) : Handler unit :=
  usageError <-
    insert_ai_usage (usage_row w workspace u parsed completion)
                    (usage_write_error w) ;;
  log_if_error "Failed to log usage:" usageError ;;
  match conversation_of parsed with
  | Some c =>
      messageError <-
        insert_conversation_message (message_row w c completion)
                                    (message_write_error w) ;;
      log_if_error "Failed to save message:" messageError
  | None => ret tt
  end.

(** Lines 152-242 together: invoke, record, respond with the usage
    snapshot. *)
Definition complete (w : World) (openaiApiKey : string) (u : User)
    (parsed : RequestBody) (msgs : list Message) (workspace : string)
    (totalTokens : Z) : Handler Response :=
  completion <- invoke w openaiApiKey msgs ;;
  record w workspace u parsed completion ;;
  let tokensUsed := total_tokens (usage completion) in
  respond (success_response (choice_content completion) tokensUsed
                            (costEstimate tokensUsed) totalTokens).

(** [workspaceId = "00000000-0000-0000-0000-000000000001"] in the
    destructuring of the body: the tenant the request is accounted to. *)
Definition tenant_of (parsed : RequestBody) : string :=
  match workspaceId parsed with
  | Some x => x
  | None => default_workspaceId
  end.

(** Lines 120-242: what is left after the rate check. *)
Definition after_rate (w : World) (openaiApiKey : string) (u : User)
    (parsed : RequestBody) (msgs : list Message) : Handler Response :=
  totalTokens <- quotaCheck w (tenant_of parsed) ;;
  complete w openaiApiKey u parsed msgs (tenant_of parsed) totalTokens.

(** Lines 89-242: what an accepted request goes through. *)
Definition governed (w : World) (openaiApiKey : string) (u : User)
    (parsed : RequestBody) (msgs : list Message) : Handler Response :=
  rateCheck w u ;;
  after_rate w openaiApiKey u parsed msgs.

(** The body of the [try] block. *)
Definition try_block (w : World) (req : Request) : Handler Response :=
  accepted <- accept w req ;;
  let '(openaiApiKey, u, parsed, msgs) := accepted in
  governed w openaiApiKey u parsed msgs.

(** The [catch] block: a thrown error is logged and becomes a 500. *)
Definition catch (x : Step Response * Store) : Response * Store :=
  match x with
  | (Continue r, s') => (r, s')
  | (Return r, s') => (r, s')
  | (Throw e, s') =>
      (internal_error_response e, log_entry "Edge function error:" e s')
  end.

(** The handler given to [serve]: the CORS preflight, then the [try]
    block with its [catch]. *)
Definition serve (w : World) (req : Request) (s : Store) : Response * Store :=
  if (method req =? "OPTIONS")%string then (preflight_response, s)
  else catch (try_block w req s).

(** ** Reading the outcome of a request *)

(** The [error] string of a JSON response body, if it has one. *)
Definition error_of (r : Response) : option string :=
  match body_field "error" r with
  | Some (JStr m) => Some m
  | _ => None
  end.

Definition has_error (msg : string) (r : Response) : bool :=
  match error_of r with
  | Some m => (m =? msg)%string
  | None => false
  end.

(** The gateway's own rejections and failures, told apart the way a caller
    can: by status and [error] text. *)
Definition is_RateLimited (r : Response) : bool :=
  (status r =? 429) && has_error "Rate limit exceeded. Maximum 20 requests per hour." r.

Definition is_QuotaExceeded (r : Response) : bool :=
  (status r =? 429) && has_error "Monthly AI quota exceeded (1M tokens)" r.

Definition is_MalformedRequest (r : Response) : bool :=
  (status r =? 400) && has_error "Invalid messages format" r.

Definition is_UpstreamError (r : Response) : bool :=
  has_error "OpenAI API error" r.

(** ** The ledger quantities the checks are meant to compute *)

(** Events of [who] with [created_at >= now - 1h]. *)
Definition in_window (who : string) (now : Z) (r : AiUsage.row) : bool :=
  (AiUsage.user_id r =? who)%string && (now - 3600000 <=? AiUsage.created_at r).

Definition request_count (ledger : list AiUsage.row) (who : string) (now : Z) : Z :=
  Z.of_nat (List.length (filter (in_window who now) ledger)).

(** Events of [tenant] since the start of the month containing [now]. *)
Definition in_month (tenant : string) (now : Z) (r : AiUsage.row) : bool :=
  (AiUsage.workspace_id r =? tenant)%string
  && (Calendar.startOfMonth now <=? AiUsage.created_at r).

Fixpoint sum_tokens (rows : list AiUsage.row) : Z :=
  match rows with
  | [] => 0
  | r :: rest => AiUsage.token_count r + sum_tokens rest
  end.

Definition tokens_used (ledger : list AiUsage.row) (tenant : string) (now : Z) : Z :=
  sum_tokens (filter (in_month tenant now) ledger).

(** What the quota check takes the month's usage to be: the ledger's sum
    when its read succeeds, 0 when it fails. *)
Definition monthly_total (w : World) (tenant : string) (ledger : list AiUsage.row) : Z :=
  match quota_read_error w with
  | None => tokens_used ledger tenant (now_quota w)
  | Some _ => 0
  end.

(** The request passes authentication and parsing: a key is configured,
    the bearer credential resolves to [u], and the body parses to [b]. *)
Record authenticated (w : World) (req : Request) (u : User) (b : RequestBody) : Prop := {
  auth_method : method req <> "OPTIONS";
  auth_key : exists k, OPENAI_API_KEY w = Some k /\ JS.truthy k = true;
  auth_user : exists h, authorization req = Some h /\ JS.truthy h = true
                        /\ auth_getUser w (JS.replace "Bearer " "" h) = AuthUser u;
  auth_body : json_body req = Some b
}.

(** Two stores with the same tables and the same calls sent; only the
    console may differ. *)
Definition same_tables (s s' : Store) : Prop :=
  ai_usage s' = ai_usage s
  /\ conversation_messages s' = conversation_messages s
  /\ upstream_calls s' = upstream_calls s.

(** Worlds that differ from [w] in the outcome of one write. *)
Definition with_usage_write (e : option string) (w : World) : World :=
  {| OPENAI_API_KEY := OPENAI_API_KEY w;
     auth_getUser := auth_getUser w;
     now_rate := now_rate w;
     now_retry := now_retry w;
     now_quota := now_quota w;
     rate_read_error := rate_read_error w;
     quota_read_error := quota_read_error w;
     fetch := fetch w;
     usage_write_error := e;
     usage_row_id := usage_row_id w;
     usage_row_now := usage_row_now w;
     message_write_error := message_write_error w;
     message_row_id := message_row_id w;
     message_row_now := message_row_now w |}.

Definition with_message_write (e : option string) (w : World) : World :=
  {| OPENAI_API_KEY := OPENAI_API_KEY w;
     auth_getUser := auth_getUser w;
     now_rate := now_rate w;
     now_retry := now_retry w;
     now_quota := now_quota w;
     rate_read_error := rate_read_error w;
     quota_read_error := quota_read_error w;
     fetch := fetch w;
     usage_write_error := usage_write_error w;
     usage_row_id := usage_row_id w;
     usage_row_now := usage_row_now w;
     message_write_error := e;
     message_row_id := message_row_id w;
     message_row_now := message_row_now w |}.

(** ** The cost estimator of the design, as the handler instantiates it

    [Estimate(model, promptTokens, completionTokens)]: the handler prices
    the total the provider reports, prompt plus completion, at the one
    blended rate it has; the model does not enter the computation. *)
Definition Estimate (model : string) (promptTokens completionTokens : Z) : JS.double :=
  costEstimate (promptTokens + completionTokens).

(** The exact price of [t] tokens at $0.002 per 1000. *)
Definition exact_cost (t : Z) : Q := inject_Z t * (2 # 1000000).

(** The room left for rounding: [t * 10^-21] dollars. *)
Definition rounding_slack (t : Z) : Q :=
  inject_Z t * (1 # 1000000000000000000000).

(** *** Rationals and doubles, for the rounding of the estimate *)

(** Where a positive rational lies between an integer and the next. *)
Definition located (m : Z) (r s : bool) (v : Q) : Prop :=
  match r, s with
  | false, false => v == inject_Z m
  | false, true => inject_Z m < v /\ v < inject_Z m + (1 # 2)
  | true, false => v == inject_Z m + (1 # 2)
  | true, true => inject_Z m + (1 # 2) < v /\ v < inject_Z m + 1
  end%Q.

(** [m * 2^e] *)
Definition F2Q (m e : Z) : Q := (inject_Z m * 2 ^ e)%Q.

(** The location a rounding starts from. *)
Definition loc_located (m : Z) (l : location) (v : Q) : Prop :=
  located m (shr_r (shr_record_of_loc m l)) (shr_s (shr_record_of_loc m l)) v.

(** The literal 0.002 as a rational. *)
Definition lit_value : Q := 4611686018427388 # 2305843009213693952.

(** The call goes ahead from store [s]: the provider is sent the caller's
    messages under the gateway's key, and when it answers OK with a
    completion the caller gets the 200 response with the reply, its
    tokens and cost, and [total] as the tenant's usage so far. *)
Definition goes_ahead (w : World) (openaiApiKey : string) (msgs : list Message)
    (total : Z) (s : Store) (x : Response * Store) : Prop :=
  upstream_calls (snd x)
  = (upstream_calls s ++ [chat_request openaiApiKey msgs])%list
  /\ forall st c,
       fetch w (chat_request openaiApiKey msgs)
       = FetchResolved st (CompletionBody c) ->
       ok st = true ->
       fst x = success_response (choice_content c) (total_tokens (usage c))
                                (costEstimate (total_tokens (usage c))) total.

(** The responses an accepted request can get once it is past both
    checks. *)
Inductive past_checks : Response -> Prop :=
| pc_upstream (st : Z) (details : string) :
    past_checks (upstream_error_response st details)
| pc_internal (e : string) :
    past_checks (internal_error_response e)
| pc_success (m : string) (t : Z) (c : JS.double) (total : Z) :
    past_checks (success_response m t c total).

(** Every response the gateway can give. *)
Inductive gateway_response : Response -> Prop :=
| gr_preflight : gateway_response preflight_response
| gr_no_header :
    gateway_response (json_response 401 (error_body "Missing authorization header"))
| gr_bad_token :
    gateway_response (json_response 401 (error_body "Invalid authorization token"))
| gr_malformed :
    gateway_response (json_response 400 (error_body "Invalid messages format"))
| gr_rate_limited : gateway_response (rate_limit_response JS.NaN)
| gr_quota (t : Z) : gateway_response (quota_response t)
| gr_past (r : Response) : past_checks r -> gateway_response r.

(** ** Concrete worlds and ledgers for examples *)

Module Fixture.

Definition alice : User := {| uid := "user-a" |}.

Definition getUser (token : string) : AuthResult :=
  if (token =? "token-a")%string then AuthUser alice
  else AuthError "invalid JWT".

Definition hello : list Message :=
  [ {| role := system; content := "You are a helpful assistant." |};
    {| role := user; content := "Hello!" |} ].

(** A completion of 50 tokens. *)
Definition completion50 : Completion :=
  {| choice_content := "Hi, how can I help?";
     usage := {| prompt_tokens := 30; completion_tokens := 20; total_tokens := 50 |} |}.

(** 2026-11-01T12:00:00Z; the month starts at 1793491200000. *)
Definition noon : Z := 1793534400000.

(** A world built from the four things the examples vary: the two read
    failures, the provider's answer and the ledger write failure. *)
Definition world (rate_err quota_err : option string) (answer : FetchResult)
    (write_err : option string) : World :=
  {| OPENAI_API_KEY := Some "sk-test";
     auth_getUser := getUser;
     now_rate := noon;
     now_retry := noon;
     now_quota := noon;
     rate_read_error := rate_err;
     quota_read_error := quota_err;
     fetch := fun _ => answer;
     usage_write_error := write_err;
     usage_row_id := "usage-new";
     usage_row_now := noon + 1500;
     message_write_error := None;
     message_row_id := "message-new";
     message_row_now := noon + 1600 |}.

Definition healthy : World :=
  world None None (FetchResolved 200 (CompletionBody completion50)) None.

Definition post (b : RequestBody) : Request :=
  {| method := "POST";
     authorization := Some "Bearer token-a";
     json_body := Some b |}.

Definition chat : RequestBody :=
  {| messages := Array hello; conversationId := None; workspaceId := None |}.

(** A usage event of [who] in the default workspace. *)
Definition event (who : string) (tokens at_ : Z) : AiUsage.row :=
  {| AiUsage.id := "usage-old";
     AiUsage.workspace_id := default_workspaceId;
     AiUsage.user_id := who;
     AiUsage.conversation_id := None;
     AiUsage.token_count := tokens;
     AiUsage.prompt_tokens := tokens;
     AiUsage.completion_tokens := 0;
     AiUsage.cost_estimate := costEstimate tokens;
     AiUsage.model := "gpt-3.5-turbo";
     AiUsage.created_at := at_ |}.

Definition store (ledger : list AiUsage.row) : Store :=
  {| ai_usage := ledger;
     conversation_messages := [];
     console := [];
     upstream_calls := [] |}.

(** Twenty events of alice, all 59 minutes old. *)
Definition twenty_recent : list AiUsage.row :=
  repeat (event "user-a" 100 (noon - 59 * 60 * 1000)) 20.

(** The same world with the ledger write failing. *)
Definition write_fails : World :=
  world None None (FetchResolved 200 (CompletionBody completion50))
        (Some "storage unavailable").

(** ... with the rate limiter's read failing. *)
Definition rate_read_fails : World :=
  world (Some "connection refused") None
        (FetchResolved 200 (CompletionBody completion50)) None.

(** ... with the quota manager's read failing. *)
Definition quota_read_fails : World :=
  world None (Some "connection refused")
        (FetchResolved 200 (CompletionBody completion50)) None.

(** ... with the provider answering 429. *)
Definition provider_429 : World :=
  world None None
        (FetchResolved 429 (ErrorBody (Some "Rate limit reached for requests")))
        None.



Definition chat_in (conversation : string) : RequestBody :=
  {| messages := Array hello;
     conversationId := Some conversation;
     workspaceId := None |}.

(** Ledgers of the default workspace this month, by another user. *)
Definition used (tokens : Z) : list AiUsage.row :=
  [ event "user-b" tokens (noon - 86400) ].

End Fixture.


(** ** How a request can end

    Every run of the handler is of one of three kinds: it ends before the
    provider is called; it calls the provider and that call does not
    complete; or the call completes, the outcome is recorded and the
    caller gets the success response. *)

Inductive run (w : World) (req : Request) (s : Store) (r : Response) (s' : Store)
  : Prop :=
| ended_early :
    same_tables s s' ->
    method req = "OPTIONS" \/ status r <> 200 ->
    run w req s r s'
| upstream_failed (k : string) (u : User) (b : RequestBody) (msgs : list Message)
    (s2 : Store) :
    authenticated w req u b ->
    messages b = Array msgs ->
    OPENAI_API_KEY w = Some k ->
    same_tables s s2 ->
    match invoke w k msgs s2 with
    | (Continue _, _) => False
    | (Return r0, s3) => r = r0 /\ s' = s3
    | (Throw e, s3) =>
        r = internal_error_response e
        /\ s' = log_entry "Edge function error:" e s3
    end ->
    upstream_calls s' = (upstream_calls s ++ [chat_request k msgs])%list ->
    (forall st c, fetch w (chat_request k msgs) = FetchResolved st (CompletionBody c) ->
                  ok st = false) ->
    ai_usage s' = ai_usage s ->
    conversation_messages s' = conversation_messages s ->
    status r <> 200 ->
    run w req s r s'
| upstream_completed (k : string) (u : User) (b : RequestBody) (msgs : list Message)
    (s2 : Store) (st : Z) (c : Completion) :
    authenticated w req u b ->
    messages b = Array msgs ->
    OPENAI_API_KEY w = Some k ->
    same_tables s s2 ->
    monthly_total w (tenant_of b) (ai_usage s) <= 1000000 ->
    fetch w (chat_request k msgs) = FetchResolved st (CompletionBody c) ->
    ok st = true ->
    r = success_response (choice_content c) (total_tokens (usage c))
                         (costEstimate (total_tokens (usage c)))
                         (monthly_total w (tenant_of b) (ai_usage s)) ->
    s' = snd (record w (tenant_of b) u b c (add_call (chat_request k msgs) s2)) ->
    upstream_calls s' = (upstream_calls s ++ [chat_request k msgs])%list ->
    ai_usage s'
    = (ai_usage s ++ match usage_write_error w with
                     | None => [usage_row w (tenant_of b) u b c]
                     | Some _ => []
                     end)%list ->
    conversation_messages s'
    = (conversation_messages s
       ++ match conversation_of b, message_write_error w with
          | Some conv, None => [message_row w conv c]
          | _, _ => []
          end)%list ->
    (forall e, usage_write_error w = Some e ->
               In ("Failed to log usage:", e) (console s')) ->
    (forall conv e, conversation_of b = Some conv ->
                    message_write_error w = Some e ->
                    In ("Failed to save message:", e) (console s')) ->
    run w req s r s'.

(** ** Requests handled one after another

    Each request is handled in a world of its own; the store a request
    leaves is the store the next one finds. *)
Fixpoint serve_all (calls : list (World * Request)) (s : Store) : Store :=
  match calls with
  | [] => s
  | (w, req) :: rest => serve_all rest (snd (serve w req s))
  end.

(** The clock does not run backwards: the rate checks of [calls] read
    instants that follow [t] and one another. *)
Fixpoint clock_advances (t : Z) (calls : list (World * Request)) : Prop :=
  match calls with
  | [] => True
  | (w, _) :: rest => t <= now_rate w /\ clock_advances (now_rate w) rest
  end.

(** The instant the last rate check of [calls] reads ([t] when there is
    none). *)
Fixpoint last_clock (t : Z) (calls : list (World * Request)) : Z :=
  match calls with
  | [] => t
  | (w, _) :: rest => last_clock (now_rate w) rest
  end.

(** ** The caller's side of the credential

    [Authorization: `Bearer ${session.access_token}`], as the client
    helper [callAIChat] builds the header. *)
Definition authorization_header (access_token : string) : string :=
  "Bearer " ++ access_token.

(** A header value on its way from [fetch] to [req.headers.get]: when a
    header is set, leading and trailing HTTP whitespace (tab, line feed,
    carriage return, space) is removed from the value, and a value that
    then still holds a NUL, a line feed or a carriage return is refused
    with a TypeError, so that no request is sent. *)
Definition http_whitespace (c : ascii) : bool :=
  Ascii.eqb c "009"%char || Ascii.eqb c "010"%char
  || Ascii.eqb c "013"%char || Ascii.eqb c " "%char.

Fixpoint trim_start (x : string) : string :=
  match x with
  | EmptyString => EmptyString
  | String c rest => if http_whitespace c then trim_start rest else x
  end.

Fixpoint trim_end (x : string) : string :=
  match x with
  | EmptyString => EmptyString
  | String c rest =>
      match trim_end rest with
      | EmptyString => if http_whitespace c then EmptyString
                       else String c EmptyString
      | kept => String c kept
      end
  end.

Fixpoint header_bytes_allowed (x : string) : bool :=
  match x with
  | EmptyString => true
  | String c rest =>
      negb (Ascii.eqb c "000"%char || Ascii.eqb c "010"%char
            || Ascii.eqb c "013"%char)
      && header_bytes_allowed rest
  end.

Definition header_value (x : string) : option string :=
  let normalized := trim_end (trim_start x) in
  if header_bytes_allowed normalized then Some normalized else None.

(** No space in a string. *)
Fixpoint spaceless (x : string) : bool :=
  match x with
  | EmptyString => true
  | String c rest => negb (Ascii.eqb c " "%char) && spaceless rest
  end.

(** A usage event of another user in another workspace. *)
Definition foreign_event : AiUsage.row :=
  {| AiUsage.id := "usage-foreign";
     AiUsage.workspace_id := "00000000-0000-0000-0000-000000000002";
     AiUsage.user_id := "user-z";
     AiUsage.conversation_id := None;
     AiUsage.token_count := 5000000;
     AiUsage.prompt_tokens := 4000000;
     AiUsage.completion_tokens := 1000000;
     AiUsage.cost_estimate := costEstimate 5000000;
     AiUsage.model := "gpt-3.5-turbo";
     AiUsage.created_at := Fixture.noon - 1000 |}.

(** What a caller can rely on when it reads a response: a 2xx status is
    200 and the body has no [error]; any other status is in 300..599 and
    the body has one. *)
Definition status_tells_error (r : Response) : Prop :=
  if ok (status r)
  then status r = 200 /\ error_of r = None
  else 300 <= status r <= 599 /\ error_of r <> None.

(** The world [w] with another API key in the environment. *)
Definition with_key (k : option string) (w : World) : World :=
  {| OPENAI_API_KEY := k;
     auth_getUser := auth_getUser w;
     now_rate := now_rate w;
     now_retry := now_retry w;
     now_quota := now_quota w;
     rate_read_error := rate_read_error w;
     quota_read_error := quota_read_error w;
     fetch := fetch w;
     usage_write_error := usage_write_error w;
     usage_row_id := usage_row_id w;
     usage_row_now := usage_row_now w;
     message_write_error := message_write_error w;
     message_row_id := message_row_id w;
     message_row_now := message_row_now w |}.

(** A POST with the given [Authorization] header and a body that does not
    parse. *)
Definition unparsable (header : option string) : Request :=
  {| method := "POST"; authorization := header; json_body := None |}.

(** ** The database's side: built-ins of PostgreSQL

    The functions of the migrations run inside the database.  Its session
    time zone is UTC; [NOW()] is one instant for the whole call; instants
    are the same milliseconds as above. *)

Module Pg.

(** [v::INTEGER], and the result of an [INTEGER] operation: outside the
    range of a 32-bit integer the statement fails with [integer out of
    range]. *)
Definition to_integer (v : Z) : option Z :=
  if (-2147483648 <=? v) && (v <=? 2147483647) then Some v else None.

(** [GREATEST(a, b)] *)
Definition greatest (a b : Z) : Z := Z.max a b.

(** Year, month and day of the day numbered [doe] of the 400-year era
    [era] (eras start on a first of March). *)
Definition civil_of_era (era doe : Z) : Z * Z * Z :=
  let yoe := (doe - doe / 1460 + doe / 36524 - doe / 146096) / 365 in
  let doy := doe - (365 * yoe + yoe / 4 - yoe / 100) in
  let mp := (5 * doy + 2) / 153 in
  let d := doy - (153 * mp + 2) / 5 + 1 in
  let m := if mp <? 10 then mp + 3 else mp - 9 in
  let y := yoe + era * 400 in
  (if m <=? 2 then y + 1 else y, m, d).

(** Year, month and day of the day numbered [days] since 1970-01-01. *)
Definition civil_from_days (days : Z) : Z * Z * Z :=
  let z := days + 719468 in
  let era := z / 146097 in
  civil_of_era era (z - era * 146097).

(** The number of the day [y]-[m]-[d]. *)
Definition days_from_civil (y m d : Z) : Z :=
  let y' := if m <=? 2 then y - 1 else y in
  let era := y' / 400 in
  let yoe := y' - era * 400 in
  let doy := (153 * (if 2 <? m then m - 3 else m + 9) + 2) / 5 + d - 1 in
  let doe := yoe * 365 + yoe / 4 - yoe / 100 + doy in
  era * 146097 + doe - 719468.

Definition isleap (y : Z) : bool :=
  (y mod 4 =? 0) && (negb (y mod 100 =? 0) || (y mod 400 =? 0)).

(** Days of the month [m] of a leap or common year. *)
Definition day_tab (leap : bool) (m : Z) : Z :=
  if m =? 2 then (if leap then 29 else 28)
  else if (m =? 4) || (m =? 6) || (m =? 9) || (m =? 11) then 30
  else 31.

(** The first day of the month of day [days]. *)
Definition first_of_month (days : Z) : Z :=
  let '(y, m, _) := civil_from_days days in
  days_from_civil y m 1.

(** [DATE_TRUNC('month', t)] *)
Definition date_trunc_month (t : Z) : Z :=
  first_of_month (t / Calendar.ms_per_day) * Calendar.ms_per_day.

(** The day one month after day [days]: the same day of the next month,
    or that month's last day when it has no such day. *)
Definition month_later (days : Z) : Z :=
  let '(y, m, d) := civil_from_days days in
  let '(y1, m1) := if m =? 12 then (y + 1, 1) else (y, m + 1) in
  let d1 := if day_tab (isleap y1) m1 <? d then day_tab (isleap y1) m1 else d in
  days_from_civil y1 m1 d1.

(** [t + INTERVAL '1 month']: the date moves by a month, the time of day
    stays. *)
Definition plus_one_month (t : Z) : Z :=
  let days := t / Calendar.ms_per_day in
  let time := t - days * Calendar.ms_per_day in
  month_later days * Calendar.ms_per_day + time.

(** [DATE(t)], as the number of the day. *)
Definition date (t : Z) : Z := t / Calendar.ms_per_day.

End Pg.

(** ** The 400-year era of the calendar

    The pieces of the day-to-date conversion, named, and the day on which
    a month starts; used to reason about the conversions above. *)

Module Era.

(** The era of a day, and the day within the era (0 is a first of March). *)
Definition era_of (days : Z) : Z := (days + 719468) / 146097.

Definition doe_of (days : Z) : Z :=
  let z := days + 719468 in z - z / 146097 * 146097.

(** The year within the era of a day of the era, and the day on which a
    year of the era starts. *)
Definition yoe_of (doe : Z) : Z :=
  (doe - doe / 1460 + doe / 36524 - doe / 146096) / 365.

Definition year_start (yoe : Z) : Z := 365 * yoe + yoe / 4 - yoe / 100.

Definition doy_of (doe : Z) : Z := doe - year_start (yoe_of doe).

(** The month (0 is March) of a day of the year, and the day of the year
    on which a month starts. *)
Definition mp_of (doy : Z) : Z := (5 * doy + 2) / 153.

Definition month_offset (mp : Z) : Z := (153 * mp + 2) / 5.

Definition year_length (yoe : Z) : Z :=
  if yoe =? 399 then 366 else year_start (yoe + 1) - year_start yoe.

Definition month_length (yoe mp : Z) : Z :=
  if mp =? 11 then year_length yoe - 337
  else month_offset (mp + 1) - month_offset mp.

(** The number of the first day of month [mp] of year [yoe] of era [era]. *)
Definition month_start (era yoe mp : Z) : Z :=
  era * 146097 + year_start yoe + month_offset mp - 719468.

(** The civil month and year of a month of the era. *)
Definition month_number (mp : Z) : Z := if mp <? 10 then mp + 3 else mp - 9.

Definition year_number (era yoe mp : Z) : Z :=
  if month_number mp <=? 2 then yoe + era * 400 + 1 else yoe + era * 400.

End Era.

(** The month after a month of the era: its era, year and month. *)
Definition next_month (e yoe mp : Z) : Z * Z * Z :=
  if mp <? 11 then (e, yoe, mp + 1)
  else if yoe <? 399 then (e, yoe + 1, 0)
  else (e + 1, 0, 0).

(** ** The functions of migration 006

    A call is [None] when the statement fails, and the rows it returns
    otherwise. *)

Module Sql.

Record RateLimit : Type := {
  request_count : Z;
  requests_allowed : Z;
  requests_remaining : Z;
  reset_at : Z
}.

(** [get_user_rate_limit(p_user_id)] over the table [ai_usage] at [now]. *)
Definition get_user_rate_limit (ai_usage : list AiUsage.row) (now : Z)
    (p_user_id : string) : option (list RateLimit) :=
  let v_one_hour_ago := now - 3600000 in
  let v_count :=
    Z.of_nat (List.length
                (filter (fun r => (AiUsage.user_id r =? p_user_id)%string
                                  && (v_one_hour_ago <=? AiUsage.created_at r))
                        ai_usage)) in
  match Pg.to_integer v_count with
  | None => None
  | Some c =>
      match Pg.to_integer (20 - c) with
      | None => None
      | Some remaining =>
          Some [ {| request_count := v_count;
                    requests_allowed := 20;
                    requests_remaining := Pg.greatest 0 remaining;
                    reset_at := now + 3600000 |} ]
      end
  end.

Record MonthlyQuota : Type := {
  tokens_used : Z;
  tokens_limit : Z;
  tokens_remaining : Z;
  cost_used : Q;
  cost_limit : Q;
  quota_reset_at : Z
}.

(** [SUM] of a column over rows: of [token_count], and of [cost_estimate]
    as the [DECIMAL(10, 6)] column holds it ([stored_cost]). *)
Definition sum_cost (stored_cost : AiUsage.row -> Q) (rows : list AiUsage.row) : Q :=
  fold_right (fun r acc => stored_cost r + acc)%Q 0%Q rows.

(** [get_workspace_monthly_quota(p_workspace_id)] *)
Definition get_workspace_monthly_quota (stored_cost : AiUsage.row -> Q)
    (ai_usage : list AiUsage.row) (now : Z) (p_workspace_id : string)
    : option (list MonthlyQuota) :=
  let v_start_of_month := Pg.date_trunc_month now in
  let v_next_month := Pg.date_trunc_month (Pg.plus_one_month now) in
  let selected :=
    filter (fun r => (AiUsage.workspace_id r =? p_workspace_id)%string
                     && (v_start_of_month <=? AiUsage.created_at r))
           ai_usage in
  let v_tokens := sum_tokens selected in
  let v_cost := sum_cost stored_cost selected in
  match Pg.to_integer v_tokens with
  | None => None
  | Some t =>
      match Pg.to_integer (1000000 - t) with
      | None => None
      | Some remaining =>
          Some [ {| tokens_used := v_tokens;
                    tokens_limit := 1000000;
                    tokens_remaining := Pg.greatest 0 remaining;
                    cost_used := v_cost;
                    cost_limit := 2;
                    quota_reset_at := v_next_month |} ]
      end
  end.

Record UsageStats : Type := {
  date : Z;
  stats_request_count : Z;
  total_tokens : Z;
  total_cost : Q
}.

(** The distinct values of a list, largest first. *)
Fixpoint insert_desc (d : Z) (l : list Z) : list Z :=
  match l with
  | [] => [d]
  | x :: rest =>
      if x <? d then d :: l
      else if x =? d then l
      else x :: insert_desc d rest
  end.

Definition distinct_desc (l : list Z) : list Z := fold_right insert_desc [] l.

(** [get_usage_stats(p_workspace_id, p_days)]: one row per day that has
    events, newest day first. *)
Definition get_usage_stats (stored_cost : AiUsage.row -> Q)
    (ai_usage : list AiUsage.row) (now : Z) (p_workspace_id : string)
    (p_days : Z) : list UsageStats :=
  let selected :=
    filter (fun r => (AiUsage.workspace_id r =? p_workspace_id)%string
                     && (now - p_days * Calendar.ms_per_day <=? AiUsage.created_at r))
           ai_usage in
  map (fun d =>
         let group := filter (fun r => Pg.date (AiUsage.created_at r) =? d) selected in
         {| date := d;
            stats_request_count := Z.of_nat (List.length group);
            total_tokens := sum_tokens group;
            total_cost := sum_cost stored_cost group |})
      (distinct_desc (map (fun r => Pg.date (AiUsage.created_at r)) selected)).

End Sql.
(** ** The client's helpers (the library that calls the edge function
    and the functions of migration 006) *)

Module Client.

(** [{ data, error }] of [supabase.rpc] *)
Inductive Rpc (A : Type) : Type :=
| RpcData (data : list A)
| RpcError (message : string).

Arguments RpcData {A} data.
Arguments RpcError {A} message.

(** What the database's call becomes on the client. *)
Definition from_database {A : Type} (result : option (list A)) : Rpc A :=
  match result with
  | Some rows => RpcData rows
  | None => RpcError "integer out of range"
  end.

(** [getUserRateLimit()]: the first row, or [null]; what is written to
    the console comes second. *)
Definition getUserRateLimit (session_user : option User)
    (rpc : string -> Rpc Sql.RateLimit)
    : option Sql.RateLimit * list (string * string) :=
  match session_user with
  | None => (None, [("Error getting rate limit:", "Not authenticated")])
  | Some u =>
      match rpc (uid u) with
      | RpcError e => (None, [("Error getting rate limit:", e)])
      | RpcData data => (hd_error data, [])
      end
  end.


(** [getUsageStats(workspaceId = "00000000-...-000000000001", days = 30)] *)
Definition getUsageStats (workspaceId : option string) (days : option Z)
    (rpc : string -> Z -> Rpc Sql.UsageStats)
    : list Sql.UsageStats * list (string * string) :=
  let workspace := match workspaceId with
                   | Some x => x
                   | None => "00000000-0000-0000-0000-000000000001"
                   end in
  let p_days := match days with
                | Some n => n
                | None => 30
                end in
  match rpc workspace p_days with
  | RpcError e => ([], [("Error getting usage stats:", e)])
  | RpcData data => (data, [])
  end.

End Client.

(** The sum of a column of the statistics. *)
Definition total (column : Sql.UsageStats -> Z) (rows : list Sql.UsageStats) : Z :=
  fold_right (fun r acc => column r + acc) 0 rows.

(** The events [get_usage_stats] groups: those of the workspace in the
    last [p_days] days. *)
Definition in_days (workspace : string) (now p_days : Z) (r : AiUsage.row) : bool :=
  (AiUsage.workspace_id r =? workspace)%string
  && (now - p_days * Calendar.ms_per_day <=? AiUsage.created_at r).

(** The sum of the costs the statistics report. *)
Definition total_cost_of (rows : list Sql.UsageStats) : Q :=
  fold_right (fun r acc => Sql.total_cost r + acc)%Q 0%Q rows.

(** The workspace and the number of days [getUsageStats] asks for. *)
Definition stats_workspace (workspaceId : option string) : string :=
  match workspaceId with
  | Some x => x
  | None => default_workspaceId
  end.

Definition stats_days (days : option Z) : Z :=
  match days with
  | Some n => n
  | None => 30
  end.

(** ** The conversations of migration 002 *)

Module Conversations.

(** One row of [conversations]. *)
Record row : Type := {
  id : string;
  workspace_id : string;
  customer_id : option string;
  customer_email : option string;
  customer_name : option string;
  status : string;
  last_message_at : Z;
  created_at : Z;
  updated_at : Z
}.

End Conversations.

Module Chat.

Record Db : Type := {
  conversations : list Conversations.row;
  conversation_messages : list ConversationMessages.row
}.

(** Row level security on [conversations], as it meets the UPDATE of the
    trigger function.  The function is not SECURITY DEFINER, so its
    UPDATE runs as the session that inserts the message.  The edge
    function connects with the service role key, which bypasses row level
    security.  For a session of the browser client the UPDATE touches
    only the rows that pass the USING clause of the update policy
    ("Agents/Admins can update conversations": the session's profile is
    an admin or agent of the row's workspace; no row for a customer or an
    anonymous visitor); and evaluating the policies can raise (the
    infinite recursion the next migration is written against), which
    fails the statement. *)
Inductive RowSecurity : Type :=
| Bypassed
| Using (passes : Conversations.row -> bool)
| PolicyError.

(** The rows the session's UPDATE may touch. *)
Definition may_update (rls : RowSecurity) (c : Conversations.row) : bool :=
  match rls with
  | Bypassed => true
  | Using passes => passes c
  | PolicyError => false
  end.

(** [SET updated_at = NOW(), last_message_at = NOW()] on one row. *)
Definition touched (now : Z) (c : Conversations.row) : Conversations.row :=
  {| Conversations.id := Conversations.id c;
     Conversations.workspace_id := Conversations.workspace_id c;
     Conversations.customer_id := Conversations.customer_id c;
     Conversations.customer_email := Conversations.customer_email c;
     Conversations.customer_name := Conversations.customer_name c;
     Conversations.status := Conversations.status c;
     Conversations.last_message_at := now;
     Conversations.created_at := Conversations.created_at c;
     Conversations.updated_at := now |}.

(** The trigger function [update_conversation_timestamp], run for the
    inserted row [NEW] at [now] in a session under [rls]; [None] when
    the UPDATE raises. *)
Definition update_conversation_timestamp (rls : RowSecurity) (now : Z)
    (NEW : ConversationMessages.row) (table : list Conversations.row)
    : option (list Conversations.row) :=
  match rls with
  | PolicyError => None
  | _ =>
      Some (map (fun c =>
                   if (Conversations.id c
                       =? ConversationMessages.conversation_id NEW)%string
                      && may_update rls c
                   then touched now c
                   else c)
                table)
  end.

(** [CONSTRAINT message_role_check] *)
Definition message_role_check (role : string) : bool :=
  (role =? "user")%string || (role =? "assistant")%string
  || (role =? "system")%string.

(** [INSERT INTO conversation_messages (conversation_id, role, content,
    model, tokens_used)] at [now] in a session under [rls], the columns
    the handler gives: the primary key, the role check, the integer
    column and the foreign key are enforced, the row gets [created_at =
    NOW()] (the insert policy admits every row), and the trigger runs
    after the insert.  [None]: the statement fails and nothing changes. *)
Definition insert_message (rls : RowSecurity) (now : Z) (new_id : string)
    (conversation_id role content model : string) (tokens_used : Z) (db : Db)
    : option Db :=
  if existsb (fun m => (ConversationMessages.id m =? new_id)%string)
             (conversation_messages db) then None
  else if negb (message_role_check role) then None
  else match Pg.to_integer tokens_used with
       | None => None
       | Some _ =>
           if negb (existsb (fun c => (Conversations.id c =? conversation_id)%string)
                            (conversations db)) then None
           else
             let NEW := {| ConversationMessages.id := new_id;
                           ConversationMessages.conversation_id := conversation_id;
                           ConversationMessages.role := role;
                           ConversationMessages.content := content;
                           ConversationMessages.tokens_used := tokens_used;
                           ConversationMessages.model := model;
                           ConversationMessages.created_at := now |} in
             match update_conversation_timestamp rls now NEW (conversations db) with
             | None => None
             | Some updated =>
                 Some {| conversations := updated;
                         conversation_messages :=
                           (conversation_messages db ++ [NEW])%list |}
             end
       end.

Record History : Type := {
  id : string;
  role : string;
  content : string;
  created_at : Z
}.

Definition history_of (m : ConversationMessages.row) : History :=
  {| id := ConversationMessages.id m;
     role := ConversationMessages.role m;
     content := ConversationMessages.content m;
     created_at := ConversationMessages.created_at m |}.

(** [ORDER BY created_at DESC]; rows of the same instant stay in the
    order of the table (the database may give them in any order). *)
Fixpoint insert_newest (m : ConversationMessages.row)
    (l : list ConversationMessages.row) : list ConversationMessages.row :=
  match l with
  | [] => [m]
  | x :: rest =>
      if ConversationMessages.created_at x <? ConversationMessages.created_at m
      then m :: l
      else x :: insert_newest m rest
  end.

Definition newest_first (l : list ConversationMessages.row)
    : list ConversationMessages.row :=
  fold_right insert_newest [] l.

(** The rows [get_conversation_history] selects, before the projection
    on its four columns. *)
Definition selected (table : list ConversationMessages.row)
    (p_conversation_id : string) (p_limit : Z) : list ConversationMessages.row :=
  firstn (Z.to_nat p_limit)
         (newest_first
            (filter (fun m => (ConversationMessages.conversation_id m
                               =? p_conversation_id)%string)
                    table)).

(** [get_conversation_history(p_conversation_id, p_limit)]; a negative
    limit is an error. *)
Definition get_conversation_history (table : list ConversationMessages.row)
    (p_conversation_id : string) (p_limit : Z) : option (list History) :=
  if p_limit <? 0 then None
  else Some (map history_of (selected table p_conversation_id p_limit)).

(** Every message is at most as new as its conversation's
    [last_message_at]. *)
Definition up_to_date (db : Db) : Prop :=
  forall c m,
    In c (conversations db) -> In m (conversation_messages db) ->
    ConversationMessages.conversation_id m = Conversations.id c ->
    ConversationMessages.created_at m <= Conversations.last_message_at c.

End Chat.

(** A request of alice within the conversation [conv-1]. *)
Definition chat_in_conversation : RequestBody :=
  {| messages := Array Fixture.hello;
     conversationId := Some "conv-1";
     workspaceId := None |}.

(** Three messages of [conv-1] and one of [conv-2], in the order of
    their insertion. *)
Definition four_messages : list ConversationMessages.row :=
  [ {| ConversationMessages.id := "m1";
       ConversationMessages.conversation_id := "conv-1";
       ConversationMessages.role := "user";
       ConversationMessages.content := "a";
       ConversationMessages.tokens_used := 0;
       ConversationMessages.model := "";
       ConversationMessages.created_at := 10 |};
    {| ConversationMessages.id := "m2";
       ConversationMessages.conversation_id := "conv-1";
       ConversationMessages.role := "user";
       ConversationMessages.content := "b";
       ConversationMessages.tokens_used := 0;
       ConversationMessages.model := "";
       ConversationMessages.created_at := 20 |};
    {| ConversationMessages.id := "x1";
       ConversationMessages.conversation_id := "conv-2";
       ConversationMessages.role := "user";
       ConversationMessages.content := "z";
       ConversationMessages.tokens_used := 0;
       ConversationMessages.model := "";
       ConversationMessages.created_at := 25 |};
    {| ConversationMessages.id := "m3";
       ConversationMessages.conversation_id := "conv-1";
       ConversationMessages.role := "assistant";
       ConversationMessages.content := "c";
       ConversationMessages.tokens_used := 12;
       ConversationMessages.model := "gpt-3.5-turbo";
       ConversationMessages.created_at := 30 |} ].

(** Two conversations of the default workspace holding those four
    messages, each as new as its last message. *)
Definition two_conversations : Chat.Db :=
  {| Chat.conversations :=
       [ {| Conversations.id := "conv-1";
            Conversations.workspace_id := default_workspaceId;
            Conversations.customer_id := None;
            Conversations.customer_email := Some "customer@example.com";
            Conversations.customer_name := None;
            Conversations.status := "active";
            Conversations.last_message_at := 30;
            Conversations.created_at := 10;
            Conversations.updated_at := 30 |};
         {| Conversations.id := "conv-2";
            Conversations.workspace_id := default_workspaceId;
            Conversations.customer_id := None;
            Conversations.customer_email := Some "other@example.com";
            Conversations.customer_name := None;
            Conversations.status := "active";
            Conversations.last_message_at := 25;
            Conversations.created_at := 25;
            Conversations.updated_at := 25 |} ];
     Chat.conversation_messages := four_messages |}.

(** The store of the handler with those four messages on the table. *)
Definition store_with_messages : Store :=
  {| ai_usage := [];
     conversation_messages := four_messages;
     console := [];
     upstream_calls := [] |}.

(** * Properties *)

(** ** The runtime functions on examples *)

Example replace_bearer :
  JS.replace "Bearer " "" "Bearer abc.def" = "abc.def"
  /\ JS.replace "Bearer " "" "abc.def" = "abc.def".
Proof. split; reflexivity. Qed.

(** 2026-11-01T12:00:00Z, 2024-02-29T23:59:59Z and 1969-12-31T23:00:00Z. *)
Example startOfMonth_examples :
  Calendar.startOfMonth 1793534400000 = 1793491200000
  /\ Calendar.startOfMonth 1709251199000 = 1706745600000
  /\ Calendar.startOfMonth (-3600000) = -2678400000.
Proof. repeat split. Qed.

(** [(50 / 1000) * 0.002] is the double [0x1.a36e2eb1c432dp-14], which
    prints as 0.0001. *)
Example costEstimate_50 :
  JS.decode (costEstimate 50) = S754_finite false 7378697629483821 (-66).
Proof. reflexivity. Qed.

(** ** Stores that differ only in the console *)

Lemma same_tables_refl (s : Store) : same_tables s s.
Proof. repeat split. Qed.

Lemma same_tables_trans (s1 s2 s3 : Store) :
  same_tables s1 s2 -> same_tables s2 s3 -> same_tables s1 s3.
Proof.
  intros (A1 & B1 & C1) (A2 & B2 & C2).
  repeat split; congruence.
Qed.

Lemma same_tables_log (label detail : string) (s : Store) :
  same_tables s (log_entry label detail s).
Proof. repeat split. Qed.

Create HintDb gateway.
#[local] Hint Resolve same_tables_refl same_tables_log : gateway.

(** ** What each phase does *)

Section Phases.

Variable w : World.

(** The ledger query of the rate check returns one object per event in
    the window. *)
Lemma requestCount_is_request_count (u : User) (ledger : list AiUsage.row) :
  requestCount_of
    (Some (map (fun r => JS.pick ["id"] (AiUsage.to_object r))
               (filter (fun r => (AiUsage.user_id r =? uid u)%string
                                 && (now_rate w - 60 * 60 * 1000 <=? AiUsage.created_at r))
                       ledger)))
  = request_count ledger (uid u) (now_rate w).
Proof.
  unfold requestCount_of, request_count, in_window.
  rewrite length_map. reflexivity.
Qed.

(** Summing [token_count] over selected rows, from any starting value. *)
Lemma fold_token_count (rows : list AiUsage.row) (acc : Z) :
  fold_left (fun sum row => sum + JS.or_zero (JS.get row "token_count"))
            (map (fun r => JS.pick ["token_count"] (AiUsage.to_object r)) rows)
            acc
  = acc + sum_tokens rows.
Proof.
  revert acc. induction rows as [|r rows IH]; intro acc; simpl.
  - lia.
  - rewrite IH. lia.
Qed.

Lemma totalTokens_is_tokens_used (tenant : string) (ledger : list AiUsage.row) :
  totalTokens_of
    (Some (map (fun r => JS.pick ["token_count"] (AiUsage.to_object r))
               (filter (fun r => (AiUsage.workspace_id r =? tenant)%string
                                 && (Calendar.startOfMonth (now_quota w)
                                     <=? AiUsage.created_at r))
                       ledger)))
  = tokens_used ledger tenant (now_quota w).
Proof.
  unfold totalTokens_of, tokens_used, in_month.
  rewrite fold_token_count. lia.
Qed.

(** [accept] never touches the store. *)
Lemma accept_store (req : Request) (s : Store) :
  snd (accept w req s) = s.
Proof.
  unfold accept, bind, ret, respond, throw.
  destruct (OPENAI_API_KEY w) as [k|]; [destruct (JS.truthy k)|]; simpl; auto.
  destruct (authorization req) as [h|]; [destruct (JS.truthy h)|]; simpl; auto.
  destruct (auth_getUser w _); simpl; auto.
  destruct (json_body req) as [b|]; simpl; auto.
  destruct (messages b); simpl; auto.
Qed.

(** An authenticated request with an array of messages is accepted. *)
Lemma accept_ok (req : Request) (u : User) (b : RequestBody)
    (msgs : list Message) (s : Store) :
  authenticated w req u b ->
  messages b = Array msgs ->
  exists k, OPENAI_API_KEY w = Some k
            /\ accept w req s = (Continue (k, u, b, msgs), s).
Proof.
  intros [_ [k [Hk Hkt]] [h [Hh [Hht Hu]]] Hb] Hm.
  exists k. split; [assumption|].
  unfold accept, bind, ret.
  rewrite Hk, Hkt, Hh, Hht, Hu, Hb, Hm. reflexivity.
Qed.

(** An authenticated request whose [messages] is not an array gets 400. *)
Lemma accept_malformed (req : Request) (u : User) (b : RequestBody) (s : Store) :
  authenticated w req u b ->
  (forall msgs, messages b <> Array msgs) ->
  accept w req s
  = (Return (json_response 400 (error_body "Invalid messages format")), s).
Proof.
  intros [_ [k [Hk Hkt]] [h [Hh [Hht Hu]]] Hb] Hm.
  unfold accept, bind, ret, respond.
  rewrite Hk, Hkt, Hh, Hht, Hu, Hb.
  destruct (messages b) as [| |items]; try reflexivity.
  exfalso. apply (Hm items). reflexivity.
Qed.

(** Conversely, whoever is accepted was authenticated. *)
Lemma accept_inv (req : Request) (s s' : Store) (k : string) (u : User)
    (b : RequestBody) (msgs : list Message) :
  method req <> "OPTIONS" ->
  accept w req s = (Continue (k, u, b, msgs), s') ->
  authenticated w req u b /\ messages b = Array msgs
  /\ OPENAI_API_KEY w = Some k /\ s' = s.
Proof.
  intros Hmeth. unfold accept, bind, ret, respond, throw.
  destruct (OPENAI_API_KEY w) as [k0|] eqn:Hk;
    [destruct (JS.truthy k0) eqn:Hkt|]; try discriminate.
  destruct (authorization req) as [h|] eqn:Hh;
    [destruct (JS.truthy h) eqn:Hht|]; try discriminate.
  destruct (auth_getUser w _) as [u0| |e] eqn:Hu; try discriminate.
  destruct (json_body req) as [b0|] eqn:Hb; try discriminate.
  destruct (messages b0) as [| |items] eqn:Hm; try discriminate.
  intros E. inversion E; subst.
  repeat split; eauto.
Qed.

(** The rate check when its read succeeds: rejection from 20 events on,
    with a [retryAfter] that is not a number, since the rows were selected
    without their [created_at]. *)
Lemma rateCheck_read_ok (u : User) (s : Store) :
  rate_read_error w = None ->
  rateCheck w u s
  = if 20 <=? request_count (ai_usage s) (uid u) (now_rate w)
    then (Return (rate_limit_response JS.NaN), s)
    else (Continue tt, s).
Proof.
  intros Hr. unfold rateCheck, bind, select_ai_usage.
  rewrite Hr. cbn [error data log_if_error ret].
  rewrite requestCount_is_request_count.
  destruct (20 <=? request_count (ai_usage s) (uid u) (now_rate w)) eqn:Hc;
    [|reflexivity].
  unfold request_count, in_window in Hc.
  change (60 * 60 * 1000) with 3600000.
  destruct (filter _ (ai_usage s)) as [|r rest]; [discriminate Hc|].
  reflexivity.
Qed.

(** The rate check when its read fails: the error is logged and the
    request goes on. *)
Lemma rateCheck_read_failed (u : User) (s : Store) (e : string) :
  rate_read_error w = Some e ->
  rateCheck w u s = (Continue tt, log_entry "Rate limit check error:" e s).
Proof.
  intros Hr. unfold rateCheck, bind, select_ai_usage.
  rewrite Hr. reflexivity.
Qed.

(** The quota check when its read succeeds: rejection strictly above
    1,000,000 tokens. *)
Lemma quotaCheck_read_ok (tenant : string) (s : Store) :
  quota_read_error w = None ->
  quotaCheck w tenant s
  = let used := tokens_used (ai_usage s) tenant (now_quota w) in
    if 1000000 <? used then (Return (quota_response used), s)
    else (Continue used, s).
Proof.
  intros Hq. unfold quotaCheck, bind, select_ai_usage.
  rewrite Hq. cbn [error data log_if_error ret].
  rewrite totalTokens_is_tokens_used. cbv zeta.
  destruct (1000000 <? tokens_used (ai_usage s) tenant (now_quota w));
    reflexivity.
Qed.

(** The quota check when its read fails: the error is logged, the usage
    is taken to be 0 and the request goes on. *)
Lemma quotaCheck_read_failed (tenant : string) (s : Store) (e : string) :
  quota_read_error w = Some e ->
  quotaCheck w tenant s = (Continue 0, log_entry "Quota check error:" e s).
Proof.
  intros Hq. unfold quotaCheck, bind, select_ai_usage.
  rewrite Hq. reflexivity.
Qed.

(** The provider answered OK with a completion: [invoke] yields it. *)
Lemma invoke_completed (k : string) (msgs : list Message) (s : Store)
    (st : Z) (c : Completion) :
  fetch w (chat_request k msgs) = FetchResolved st (CompletionBody c) ->
  ok st = true ->
  invoke w k msgs s = (Continue c, add_call (chat_request k msgs) s).
Proof.
  intros Hf Hok. unfold invoke, bind, fetch_openai.
  rewrite Hf, Hok. reflexivity.
Qed.

(** The provider answered with an error status and a readable body: its
    status goes back to the caller, under the gateway's own error text. *)
Lemma invoke_not_ok (k : string) (msgs : list Message) (s : Store)
    (st : Z) (b : ProviderBody) (details : string) :
  fetch w (chat_request k msgs) = FetchResolved st b ->
  error_details b = Some details ->
  400 <= st <= 599 ->
  invoke w k msgs s
  = (Return (upstream_error_response st details),
     log_entry "OpenAI API error:" details (add_call (chat_request k msgs) s)).
Proof.
  intros Hf Hd Hrange. unfold invoke, bind, fetch_openai, console_error.
  assert (Hok : ok st = false).
  { unfold ok. apply andb_false_iff. right. apply Z.leb_gt. lia. }
  rewrite Hf, Hok, Hd. cbn [negb].
  replace (response_status_accepted st) with true; [reflexivity|].
  symmetry. unfold response_status_accepted.
  repeat (apply andb_true_iff; split); try (apply Z.leb_le; lia).
  apply negb_true_iff, Z.eqb_neq. lia.
Qed.

(** Whatever the provider does, [invoke] sends exactly one call and
    leaves both tables alone; it yields a completion only when the
    provider answered OK with one, and any response it returns itself
    has a status other than 200. *)
Lemma invoke_effect (k : string) (msgs : list Message) (s : Store) :
  let q := chat_request k msgs in
  let s' := snd (invoke w k msgs s) in
  ai_usage s' = ai_usage s
  /\ conversation_messages s' = conversation_messages s
  /\ upstream_calls s' = (upstream_calls s ++ [q])%list
  /\ match fst (invoke w k msgs s) with
     | Continue c =>
         s' = add_call q s
         /\ exists st, fetch w q = FetchResolved st (CompletionBody c) /\ ok st = true
     | Return r =>
         status r <> 200
         /\ forall st c, fetch w q = FetchResolved st (CompletionBody c) -> ok st = false
     | Throw _ =>
         forall st c, fetch w q = FetchResolved st (CompletionBody c) -> ok st = false
     end.
Proof.
  cbv zeta. unfold invoke, bind, fetch_openai, console_error, respond, throw, ret.
  destruct (fetch w (chat_request k msgs)) as [reason|st b] eqn:Hf.
  - simpl. repeat split. intros; discriminate.
  - destruct (ok st) eqn:Hok; cbn [negb].
    + destruct b as [|m|c]; simpl; repeat split; try (intros; discriminate).
      exists st. split; [reflexivity|assumption].
    + destruct (error_details b) as [d|]; simpl.
      * destruct (response_status_accepted st) eqn:Hr; simpl; repeat split;
          try (intros st' c' E; inversion E; subst; assumption).
        intros E. rewrite E in Hok. discriminate.
      * repeat split. intros st' c' E; inversion E; subst; assumption.
Qed.

(** [record] always goes on; it adds the usage row unless that write
    fails, and the message row when a conversation was named and that
    write does not fail; each failed write leaves a line on the console. *)
Lemma record_effect (tenant : string) (u : User) (b : RequestBody)
    (c : Completion) (s : Store) :
  let s' := snd (record w tenant u b c s) in
  fst (record w tenant u b c s) = Continue tt
  /\ ai_usage s'
     = (ai_usage s ++ match usage_write_error w with
                      | None => [usage_row w tenant u b c]
                      | Some _ => []
                      end)%list
  /\ conversation_messages s'
     = (conversation_messages s
        ++ match conversation_of b, message_write_error w with
           | Some conv, None => [message_row w conv c]
           | _, _ => []
           end)%list
  /\ upstream_calls s' = upstream_calls s
  /\ console s'
     = (console s
        ++ match usage_write_error w with
           | Some e => [("Failed to log usage:", e)]
           | None => []
           end
        ++ match conversation_of b, message_write_error w with
           | Some _, Some e => [("Failed to save message:", e)]
           | _, _ => []
           end)%list.
Proof.
  cbv zeta.
  unfold record, bind, insert_ai_usage, insert_conversation_message,
    log_if_error, console_error, ret.
  destruct (usage_write_error w) as [e|];
    destruct (conversation_of b) as [conv|];
    destruct (message_write_error w) as [e'|]; simpl;
    rewrite ?app_nil_r, <- ?app_assoc; auto.
Qed.

(** Responses [accept] returns itself are 401 or 400. *)
Lemma accept_return (req : Request) (s s' : Store) (r : Response) :
  accept w req s = (Return r, s') -> status r = 401 \/ status r = 400.
Proof.
  unfold accept, bind, ret, respond, throw.
  destruct (OPENAI_API_KEY w) as [k|]; [destruct (JS.truthy k)|]; try discriminate.
  destruct (authorization req) as [h|]; [destruct (JS.truthy h)|];
    try (intros E; inversion E; subst; left; reflexivity).
  destruct (auth_getUser w _);
    try (intros E; inversion E; subst; left; reflexivity).
  destruct (json_body req) as [b|]; try discriminate.
  destruct (messages b);
    intros E; inversion E; subst; right; reflexivity.
Qed.

(** The two checks only read the tables; what they return is a 429. *)
Lemma rateCheck_frame (u : User) (s : Store) :
  same_tables s (snd (rateCheck w u s))
  /\ forall r, fst (rateCheck w u s) = Return r -> status r = 429.
Proof.
  destruct (rate_read_error w) as [e|] eqn:Hr.
  - rewrite (rateCheck_read_failed u s e Hr). simpl.
    split; [auto with gateway | discriminate].
  - rewrite (rateCheck_read_ok u s Hr).
    destruct (20 <=? _); simpl; split; auto with gateway; try discriminate.
    intros r E. inversion E. reflexivity.
Qed.

Lemma quotaCheck_frame (tenant : string) (s : Store) :
  same_tables s (snd (quotaCheck w tenant s))
  /\ (forall r, fst (quotaCheck w tenant s) = Return r -> status r = 429)
  /\ (forall t, fst (quotaCheck w tenant s) = Continue t ->
                t = monthly_total w tenant (ai_usage s) /\ t <= 1000000).
Proof.
  unfold monthly_total.
  destruct (quota_read_error w) as [e|] eqn:Hq.
  - rewrite (quotaCheck_read_failed tenant s e Hq). simpl.
    split; [auto with gateway|]. split; [discriminate|].
    intros t E. inversion E. lia.
  - rewrite (quotaCheck_read_ok tenant s Hq). cbv zeta.
    destruct (1000000 <? _) eqn:Hlt; simpl;
      (split; [auto with gateway|]); split; try discriminate.
    + intros r E. inversion E. reflexivity.
    + intros t E. inversion E. subst t. split; [reflexivity|].
      apply Z.ltb_ge. assumption.
Qed.

End Phases.

(** ** Every run is of one of the three kinds *)

Lemma serve_run (w : World) (req : Request) (s : Store) :
  run w req s (fst (serve w req s)) (snd (serve w req s)).
Proof.
  unfold serve.
  destruct (method req =? "OPTIONS")%string eqn:Hmeth.
  { apply ended_early; simpl; auto with gateway.
    left. apply String.eqb_eq. assumption. }
  apply String.eqb_neq in Hmeth.
  unfold try_block, governed, after_rate, complete, catch, bind.
  pose proof (accept_store w req s) as Hs1.
  destruct (accept w req s) as [[[[[k u] b] msgs]|r|e] s1] eqn:Ha;
    simpl in Hs1; subst s1.
  2:{ apply ended_early; simpl; auto with gateway.
      right. destruct (accept_return w req s s r Ha) as [E|E]; rewrite E; lia. }
  2:{ apply ended_early; simpl; auto with gateway. right. lia. }
  destruct (accept_inv w req s s k u b msgs Hmeth Ha) as (Hauth & Hm & Hk & _).
  destruct (rateCheck_frame w u s) as [T1 R1].
  destruct (rateCheck w u s) as [[[]|r|e] s1]; simpl in T1, R1.
  2:{ apply ended_early; simpl; auto. right. rewrite (R1 r eq_refl). lia. }
  2:{ apply ended_early; simpl.
      - eapply same_tables_trans; eauto with gateway.
      - right. lia. }
  destruct (quotaCheck_frame w (tenant_of b) s1) as (T2 & R2 & V2).
  destruct (quotaCheck w (tenant_of b) s1) as [[total|r|e] s2]; simpl in T2, R2, V2.
  2:{ apply ended_early; simpl.
      - eapply same_tables_trans; eauto.
      - right. rewrite (R2 r eq_refl). lia. }
  2:{ apply ended_early; simpl.
      - eapply same_tables_trans; [eapply same_tables_trans|]; eauto with gateway.
      - right. lia. }
  assert (T : same_tables s s2) by (eapply same_tables_trans; eauto).
  destruct (V2 total eq_refl) as [Vt Vle].
  destruct T1 as (T1a & _). rewrite T1a in Vt. subst total.
  destruct T as (TA & TB & TC).
  pose proof (invoke_effect w k msgs s2) as I. cbv zeta in I.
  destruct (invoke w k msgs s2) as [[c|r|e] s3] eqn:Hi; simpl in I;
    destruct I as (IA & IB & IC & I).
  - destruct I as [Es3 (st & Hf & Hok)]. subst s3.
    pose proof (record_effect w (tenant_of b) u b c
                  (add_call (chat_request k msgs) s2)) as R.
    cbv zeta in R. destruct R as (Rx & RA & RB & RC & RD).
    destruct (record w (tenant_of b) u b c (add_call (chat_request k msgs) s2))
      as [x s4] eqn:Hrec; simpl in Rx, RA, RB, RC, RD; subst x. simpl.
    apply upstream_completed with (k := k) (u := u) (b := b) (msgs := msgs)
      (s2 := s2) (st := st) (c := c); auto; try (repeat split; assumption).
    + rewrite Hrec. reflexivity.
    + congruence.
    + congruence.
    + congruence.
    + intros e He. rewrite RD, He. apply in_or_app. right.
      apply in_or_app. left. left. reflexivity.
    + intros conv e Hc He. rewrite RD, Hc, He. apply in_or_app. right.
      apply in_or_app. right. left. reflexivity.
  - destruct I as [Hst Hnot]. simpl.
    apply upstream_failed with (k := k) (u := u) (b := b) (msgs := msgs)
      (s2 := s2); auto; try (repeat split; assumption); try congruence.
    rewrite Hi. auto.
  - simpl.
    apply upstream_failed with (k := k) (u := u) (b := b) (msgs := msgs)
      (s2 := s2); auto; try (repeat split; assumption); simpl; try congruence.
    rewrite Hi. auto.
Qed.

(** ** The usage ledger (C1) *)

Lemma not_own_extension {A : Type} (l : list A) (x : A) : l <> (l ++ [x])%list.
Proof.
  intros E. apply (f_equal (@List.length A)) in E.
  rewrite length_app in E. simpl in E. lia.
Qed.

(** C1, as amended.  A request that is rejected or fails (any response
    but a 200) appends no row to [ai_usage].  A request whose provider
    call completes gets a 200 and the handler issues exactly one insert
    of its usage event: the ledger grows by that one row when the write
    succeeds and by none when it fails, never by more. *)
Theorem usage_ledger_accounting (w : World) (req : Request) (s : Store) :
  (status (fst (serve w req s)) <> 200 ->
   ai_usage (snd (serve w req s)) = ai_usage s)
  /\ (forall q st c,
        upstream_calls (snd (serve w req s)) = (upstream_calls s ++ [q])%list ->
        fetch w q = FetchResolved st (CompletionBody c) ->
        ok st = true ->
        status (fst (serve w req s)) = 200
        /\ exists row,
             AiUsage.token_count row = total_tokens (usage c)
             /\ AiUsage.cost_estimate row = costEstimate (total_tokens (usage c))
             /\ ai_usage (snd (serve w req s))
                = (ai_usage s ++ match usage_write_error w with
                                 | None => [row]
                                 | Some _ => []
                                 end)%list).
Proof.
  destruct (serve_run w req s)
    as [ (TA & TB & TC) Hend
       | k u b msgs s2 Hauth Hm Hk T Hinv Hcalls Hnot HA HB Hst
       | k u b msgs s2 st0 c0 Hauth Hm Hk T Hle Hf Hok Hr Hs' Hcalls HA HB HL1 HL2 ].
  - split; [intros _; assumption|].
    intros q st c Hq _ _. rewrite TC in Hq.
    exfalso. exact (not_own_extension _ _ Hq).
  - split; [intros _; assumption|].
    intros q st c Hq Hfq Hokq. rewrite Hcalls in Hq.
    apply app_inj_tail in Hq. destruct Hq as [_ Eq]. subst q.
    rewrite (Hnot st c Hfq) in Hokq. discriminate.
  - split.
    + intros Hne. exfalso. apply Hne. rewrite Hr. reflexivity.
    + intros q st c Hq Hfq Hokq. rewrite Hcalls in Hq.
      apply app_inj_tail in Hq. destruct Hq as [_ Eq]. subst q.
      rewrite Hf in Hfq. inversion Hfq; subst.
      split; [rewrite Hr; reflexivity|].
      exists (usage_row w (tenant_of b) u b c).
      repeat split. assumption.
Qed.

(** A healthy run over an empty ledger leaves exactly one row, of 50
    tokens. *)
Lemma usage_ledger_accounting_witness :
  status (fst (serve Fixture.healthy (Fixture.post Fixture.chat) (Fixture.store []))) = 200
  /\ exists row,
       AiUsage.token_count row = 50
       /\ AiUsage.cost_estimate row = costEstimate 50
       /\ ai_usage (snd (serve Fixture.healthy (Fixture.post Fixture.chat)
                               (Fixture.store [])))
          = [row].
Proof.
  exact (proj2 (usage_ledger_accounting Fixture.healthy (Fixture.post Fixture.chat)
                  (Fixture.store []))
               (chat_request "sk-test" Fixture.hello) 200 Fixture.completion50
               eq_refl eq_refl eq_refl).
Defined.

(** C1 as stated fails: the provider call completes and the caller gets
    its 200, yet the ledger write fails and no row is appended. *)
Lemma usage_event_lost_when_write_fails :
  fetch Fixture.write_fails (chat_request "sk-test" Fixture.hello)
  = FetchResolved 200 (CompletionBody Fixture.completion50)
  /\ ok 200 = true
  /\ upstream_calls (snd (serve Fixture.write_fails (Fixture.post Fixture.chat)
                               (Fixture.store [])))
     = [chat_request "sk-test" Fixture.hello]
  /\ status (fst (serve Fixture.write_fails (Fixture.post Fixture.chat)
                        (Fixture.store []))) = 200
  /\ ai_usage (snd (serve Fixture.write_fails (Fixture.post Fixture.chat)
                          (Fixture.store []))) = [].
Proof. repeat split. Qed.

(** ** Following an accepted request through the checks *)

Lemma serve_accepted (w : World) (req : Request) (s : Store)
    (u : User) (b : RequestBody) (msgs : list Message) :
  authenticated w req u b ->
  messages b = Array msgs ->
  exists k, OPENAI_API_KEY w = Some k
            /\ serve w req s = catch (governed w k u b msgs s).
Proof.
  intros Hauth Hm.
  destruct (accept_ok w req u b msgs s Hauth Hm) as (k & Hk & Ha).
  exists k. split; [assumption|].
  unfold serve, try_block, bind.
  destruct Hauth as [Hmeth _ _ _].
  apply String.eqb_neq in Hmeth. rewrite Hmeth, Ha. reflexivity.
Qed.

(** Past both checks the response is the provider's error, an internal
    error or the success response. *)
Lemma complete_forms (w : World) (k : string) (u : User) (b : RequestBody)
    (msgs : list Message) (tenant : string) (total : Z) (s : Store) :
  past_checks (fst (catch (complete w k u b msgs tenant total s))).
Proof.
  unfold complete, bind.
  destruct (invoke w k msgs s) as [[c|r|e] s3] eqn:Hi.
  - pose proof (record_effect w tenant u b c s3) as R. cbv zeta in R.
    destruct R as (Rx & _).
    destruct (record w tenant u b c s3) as [x s4]. simpl in Rx. subst x.
    simpl. constructor.
  - simpl. revert Hi.
    unfold invoke, bind, fetch_openai, console_error, respond, throw, ret.
    destruct (fetch w (chat_request k msgs)) as [reason|st p]; [discriminate|].
    destruct (ok st); cbn [negb].
    + destruct p; discriminate.
    + destruct (error_details p) as [d|]; [|discriminate].
      destruct (response_status_accepted st); [|discriminate].
      intros E. inversion E. constructor.
  - simpl. constructor.
Qed.

(** None of those is one of the gateway's own rejections. *)
Lemma past_checks_not_rejected (r : Response) :
  past_checks r ->
  is_RateLimited r = false /\ is_QuotaExceeded r = false
  /\ is_MalformedRequest r = false.
Proof.
  intros [st d|e|m t c total];
    unfold is_RateLimited, is_QuotaExceeded, is_MalformedRequest;
    repeat split; try reflexivity; apply andb_false_r.
Qed.

Lemma after_rate_forms (w : World) (k : string) (u : User) (b : RequestBody)
    (msgs : list Message) (s : Store) :
  (exists t, fst (catch (after_rate w k u b msgs s)) = quota_response t)
  \/ past_checks (fst (catch (after_rate w k u b msgs s))).
Proof.
  unfold after_rate, bind.
  destruct (quota_read_error w) as [e|] eqn:Hq.
  - rewrite (quotaCheck_read_failed w _ s e Hq). right. apply complete_forms.
  - rewrite (quotaCheck_read_ok w _ s Hq). cbv zeta.
    destruct (1000000 <? _).
    + left. eexists. reflexivity.
    + right. apply complete_forms.
Qed.

Lemma after_rate_not_limited (w : World) (k : string) (u : User)
    (b : RequestBody) (msgs : list Message) (s : Store) :
  is_RateLimited (fst (catch (after_rate w k u b msgs s))) = false.
Proof.
  destruct (after_rate_forms w k u b msgs s) as [[t E]|P].
  - rewrite E. reflexivity.
  - apply past_checks_not_rejected. assumption.
Qed.

(** [governed], by the outcome of the rate limiter's read. *)
Lemma governed_rate_read_ok (w : World) (k : string) (u : User)
    (b : RequestBody) (msgs : list Message) (s : Store) :
  rate_read_error w = None ->
  governed w k u b msgs s
  = if 20 <=? request_count (ai_usage s) (uid u) (now_rate w)
    then (Return (rate_limit_response JS.NaN), s)
    else after_rate w k u b msgs s.
Proof.
  intros Hr. unfold governed, bind.
  rewrite (rateCheck_read_ok w u s Hr).
  destruct (20 <=? _); reflexivity.
Qed.

Lemma governed_rate_read_failed (w : World) (k : string) (u : User)
    (b : RequestBody) (msgs : list Message) (s : Store) (e : string) :
  rate_read_error w = Some e ->
  governed w k u b msgs s
  = after_rate w k u b msgs (log_entry "Rate limit check error:" e s).
Proof.
  intros Hr. unfold governed, bind.
  rewrite (rateCheck_read_failed w u s e Hr). reflexivity.
Qed.

(** Nothing is ever taken off the console: each phase leaves it as it
    was, with what it logs itself after it. *)
Lemma invoke_extends_console (w : World) (k : string) (msgs : list Message)
    (s : Store) :
  exists later, console (snd (invoke w k msgs s)) = (console s ++ later)%list.
Proof.
  unfold invoke, bind, fetch_openai, console_error, respond, throw, ret.
  destruct (fetch w (chat_request k msgs)) as [reason|st p];
    [exists []; symmetry; apply app_nil_r|].
  destruct (ok st); cbn [negb].
  - destruct p; exists []; symmetry; apply app_nil_r.
  - destruct (error_details p) as [d|];
      [|exists []; symmetry; apply app_nil_r].
    destruct (response_status_accepted st); simpl; eexists; reflexivity.
Qed.

Lemma complete_extends_console (w : World) (k : string) (u : User)
    (b : RequestBody) (msgs : list Message) (tenant : string) (total : Z)
    (s : Store) :
  exists later,
    console (snd (catch (complete w k u b msgs tenant total s)))
    = (console s ++ later)%list.
Proof.
  destruct (invoke_extends_console w k msgs s) as (l1 & I).
  unfold complete, bind.
  destruct (invoke w k msgs s) as [[c|r|e] s3]; simpl in I.
  - pose proof (record_effect w tenant u b c s3) as R. cbv zeta in R.
    destruct R as (Rx & _ & _ & _ & Rc).
    destruct (record w tenant u b c s3) as [x s4]. simpl in Rx, Rc. subst x.
    simpl. rewrite Rc, I, <- app_assoc. eexists. reflexivity.
  - exists l1. assumption.
  - simpl. rewrite I, <- app_assoc. eexists. reflexivity.
Qed.

Lemma after_rate_extends_console (w : World) (k : string) (u : User)
    (b : RequestBody) (msgs : list Message) (s : Store) :
  exists later,
    console (snd (catch (after_rate w k u b msgs s)))
    = (console s ++ later)%list.
Proof.
  unfold after_rate, bind.
  destruct (quota_read_error w) as [e|] eqn:Hq.
  - rewrite (quotaCheck_read_failed w _ s e Hq).
    destruct (complete_extends_console w k u b msgs (tenant_of b) 0
                (log_entry "Quota check error:" e s)) as (l & E).
    rewrite E. simpl. rewrite <- app_assoc. eexists. reflexivity.
  - rewrite (quotaCheck_read_ok w _ s Hq). cbv zeta.
    destruct (1000000 <? _); [|apply complete_extends_console].
    exists []. symmetry. apply app_nil_r.
Qed.

(** Past both checks the call goes ahead. *)
Lemma complete_goes_ahead (w : World) (k : string) (u : User)
    (b : RequestBody) (msgs : list Message) (tenant : string) (total : Z)
    (s : Store) :
  goes_ahead w k msgs total s (catch (complete w k u b msgs tenant total s)).
Proof.
  split.
  - pose proof (invoke_effect w k msgs s) as I. cbv zeta in I.
    destruct I as (_ & _ & Ic & _).
    unfold complete, bind.
    destruct (invoke w k msgs s) as [[c|r|e] s3]; simpl in Ic.
    + pose proof (record_effect w tenant u b c s3) as R. cbv zeta in R.
      destruct R as (Rx & _ & _ & Ru & _).
      destruct (record w tenant u b c s3) as [x s4]. simpl in Rx, Ru. subst x.
      simpl. congruence.
    + assumption.
    + assumption.
  - intros st c Hf Hok. unfold complete, bind.
    rewrite (invoke_completed w k msgs s st c Hf Hok).
    pose proof (record_effect w tenant u b c (add_call (chat_request k msgs) s))
      as R. cbv zeta in R. destruct R as (Rx & _).
    destruct (record w tenant u b c (add_call (chat_request k msgs) s))
      as [x s4]. simpl in Rx. subst x. reflexivity.
Qed.

(** ** The rate limiter (C4, C5) *)

(** C4, as amended.  For an authenticated request with an array of
    messages: when the limiter's read of the ledger succeeds, the request
    is let through if and only if the user's events with [created_at >=
    now - 1h] number fewer than 20; from 20 on it is answered 429 with
    nothing written, and below 20 the request goes on to the quota check
    and the call with the store as it was.  When that read fails, the
    error is written to the console and the request goes on to the quota
    check and the call, whatever the ledger holds: it is not answered
    with the limiter's 429, and the error is the first line the request
    adds to the console. *)
Theorem rate_limiter_decision (w : World) (req : Request) (s : Store)
    (u : User) (b : RequestBody) (msgs : list Message) (k : string) :
  authenticated w req u b ->
  messages b = Array msgs ->
  OPENAI_API_KEY w = Some k ->
  (rate_read_error w = None ->
     (is_RateLimited (fst (serve w req s)) = false
      <-> request_count (ai_usage s) (uid u) (now_rate w) < 20)
     /\ (20 <= request_count (ai_usage s) (uid u) (now_rate w) ->
         status (fst (serve w req s)) = 429 /\ snd (serve w req s) = s)
     /\ (request_count (ai_usage s) (uid u) (now_rate w) < 20 ->
         serve w req s = catch (after_rate w k u b msgs s)))
  /\ (forall e, rate_read_error w = Some e ->
      is_RateLimited (fst (serve w req s)) = false
      /\ serve w req s
         = catch (after_rate w k u b msgs
                    (log_entry "Rate limit check error:" e s))
      /\ exists later,
           console (snd (serve w req s))
           = (console s ++ ("Rate limit check error:", e) :: later)%list).
Proof.
  intros Hauth Hm Hkey.
  destruct (serve_accepted w req s u b msgs Hauth Hm) as (k' & Hk & Hs).
  assert (k' = k) by congruence. subst k'.
  rewrite Hs. split.
  - intros Hr. rewrite (governed_rate_read_ok w k u b msgs s Hr).
    destruct (20 <=? request_count (ai_usage s) (uid u) (now_rate w)) eqn:Hc.
    + apply Z.leb_le in Hc. simpl. split; [|split].
      * split; [discriminate | lia].
      * intros _. split; reflexivity.
      * lia.
    + apply Z.leb_gt in Hc. split; [|split].
      * split; [intros _; assumption | intros _; apply after_rate_not_limited].
      * lia.
      * reflexivity.
  - intros e He.
    rewrite (governed_rate_read_failed w k u b msgs s e He).
    split; [apply after_rate_not_limited|]. split; [reflexivity|].
    destruct (after_rate_extends_console w k u b msgs
                (log_entry "Rate limit check error:" e s)) as (l & E).
    exists l. rewrite E. simpl. rewrite <- app_assoc. reflexivity.
Qed.

(** The example requests are authenticated in every example world. *)
Lemma fixture_authenticated (rate_err quota_err : option string)
    (answer : FetchResult) (write_err : option string) (b : RequestBody) :
  authenticated (Fixture.world rate_err quota_err answer write_err)
                (Fixture.post b) Fixture.alice b.
Proof.
  constructor.
  - discriminate.
  - exists "sk-test". split; reflexivity.
  - exists "Bearer token-a". repeat split.
  - reflexivity.
Qed.

(** The scenario of the design, twenty events 59 minutes old and then a
    twenty-first call, and the same call when the limiter cannot read the
    ledger. *)
Lemma rate_limiter_decision_witness :
  (status (fst (serve Fixture.healthy (Fixture.post Fixture.chat)
                      (Fixture.store Fixture.twenty_recent))) = 429
   /\ snd (serve Fixture.healthy (Fixture.post Fixture.chat)
                 (Fixture.store Fixture.twenty_recent))
      = Fixture.store Fixture.twenty_recent)
  /\ (is_RateLimited
        (fst (serve Fixture.rate_read_fails (Fixture.post Fixture.chat)
                    (Fixture.store Fixture.twenty_recent))) = false
      /\ serve Fixture.rate_read_fails (Fixture.post Fixture.chat)
               (Fixture.store Fixture.twenty_recent)
         = catch (after_rate Fixture.rate_read_fails "sk-test" Fixture.alice
                    Fixture.chat Fixture.hello
                    (log_entry "Rate limit check error:" "connection refused"
                               (Fixture.store Fixture.twenty_recent)))
      /\ exists later,
           console (snd (serve Fixture.rate_read_fails
                               (Fixture.post Fixture.chat)
                               (Fixture.store Fixture.twenty_recent)))
           = (console (Fixture.store Fixture.twenty_recent)
              ++ ("Rate limit check error:", "connection refused") :: later)%list).
Proof.
  split.
  - apply (proj1 (proj2 (proj1 (rate_limiter_decision
                    Fixture.healthy (Fixture.post Fixture.chat)
                    (Fixture.store Fixture.twenty_recent)
                    Fixture.alice Fixture.chat Fixture.hello "sk-test"
                    (fixture_authenticated None None _ None Fixture.chat)
                    eq_refl eq_refl)
                  eq_refl))).
    vm_compute. discriminate.
  - apply (proj2 (rate_limiter_decision
                    Fixture.rate_read_fails (Fixture.post Fixture.chat)
                    (Fixture.store Fixture.twenty_recent)
                    Fixture.alice Fixture.chat Fixture.hello "sk-test"
                    (fixture_authenticated (Some "connection refused") None _
                                           None Fixture.chat)
                    eq_refl eq_refl)
                 "connection refused" eq_refl).
Defined.

(** C4 as stated fails: with twenty events in the window the request
    still goes through when the limiter's read of the ledger fails. *)
Lemma rate_limiter_fails_open :
  request_count Fixture.twenty_recent "user-a" Fixture.noon = 20
  /\ is_RateLimited (fst (serve Fixture.rate_read_fails (Fixture.post Fixture.chat)
                                (Fixture.store Fixture.twenty_recent))) = false
  /\ status (fst (serve Fixture.rate_read_fails (Fixture.post Fixture.chat)
                        (Fixture.store Fixture.twenty_recent))) = 200.
Proof. repeat split. Qed.

(** Responses [accept] returns itself, in full. *)
Lemma accept_return_form (w : World) (req : Request) (s s' : Store) (r : Response) :
  accept w req s = (Return r, s') ->
  r = json_response 401 (error_body "Missing authorization header")
  \/ r = json_response 401 (error_body "Invalid authorization token")
  \/ r = json_response 400 (error_body "Invalid messages format").
Proof.
  unfold accept, bind, ret, respond, throw.
  destruct (OPENAI_API_KEY w) as [k|]; [destruct (JS.truthy k)|]; try discriminate.
  destruct (authorization req) as [h|]; [destruct (JS.truthy h)|];
    try (intros E; inversion E; subst; solve [auto]).
  destruct (auth_getUser w _);
    try (intros E; inversion E; subst; solve [auto]).
  destruct (json_body req) as [b|]; try discriminate.
  destruct (messages b); intros E; inversion E; subst; auto.
Qed.

(** Every response of the gateway has one of the listed forms; in
    particular the rate-limit rejection is always the one whose
    [retryAfter] was computed from a missing [created_at]. *)
Lemma serve_response_forms (w : World) (req : Request) (s : Store) :
  gateway_response (fst (serve w req s)).
Proof.
  unfold serve.
  destruct (method req =? "OPTIONS")%string; [apply gr_preflight|].
  unfold try_block, bind.
  destruct (accept w req s) as [[[[[k u] b] msgs]|r|e] s1] eqn:Ha.
  - destruct (rate_read_error w) as [e|] eqn:Hr.
    + rewrite (governed_rate_read_failed w k u b msgs s1 e Hr).
      destruct (after_rate_forms w k u b msgs
                  (log_entry "Rate limit check error:" e s1)) as [[t E]|P].
      * rewrite E. constructor.
      * apply gr_past. assumption.
    + rewrite (governed_rate_read_ok w k u b msgs s1 Hr).
      destruct (20 <=? _); [apply gr_rate_limited|].
      destruct (after_rate_forms w k u b msgs s1) as [[t E]|P].
      * rewrite E. constructor.
      * apply gr_past. assumption.
  - destruct (accept_return_form w req s s1 r Ha) as [E|[E|E]];
      subst r; constructor.
  - apply gr_past. constructor.
Qed.

(** No rate-limit rejection carries a number of seconds: its
    [retryAfter] is [null]. *)
Lemma rate_limited_retryAfter_is_null (w : World) (req : Request) (s : Store) :
  is_RateLimited (fst (serve w req s)) = true ->
  body_field "retryAfter" (fst (serve w req s)) = Some JNull.
Proof.
  intros H.
  destruct (serve_response_forms w req s) as [ | | | | |t|r P];
    try discriminate H; try reflexivity.
  destruct (past_checks_not_rejected r P) as (E & _). congruence.
Qed.

(** C5, at the failing input: a user with twenty events in the last hour
    is rejected with 429, and the [retryAfter] of the body is [null], not
    a number of seconds. *)
Theorem retryAfter_null_after_twenty_events :
  is_RateLimited (fst (serve Fixture.healthy (Fixture.post Fixture.chat)
                             (Fixture.store Fixture.twenty_recent))) = true
  /\ body_field "retryAfter"
       (fst (serve Fixture.healthy (Fixture.post Fixture.chat)
                   (Fixture.store Fixture.twenty_recent)))
     = Some JNull
  /\ Json.is_number JNull = false.
Proof. repeat split. Qed.

(** ** The quota manager (C2, C3) *)

(** A request the rate limiter lets through reaches the quota check,
    over the same tables. *)
Lemma serve_past_rate (w : World) (req : Request) (s : Store)
    (u : User) (b : RequestBody) (msgs : list Message) :
  authenticated w req u b ->
  messages b = Array msgs ->
  is_RateLimited (fst (serve w req s)) = false ->
  exists k s1, OPENAI_API_KEY w = Some k
               /\ same_tables s s1
               /\ serve w req s = catch (after_rate w k u b msgs s1).
Proof.
  intros Hauth Hm Hnot.
  destruct (serve_accepted w req s u b msgs Hauth Hm) as (k & Hk & Hs).
  rewrite Hs in *. exists k.
  destruct (rate_read_error w) as [e|] eqn:Hr.
  - rewrite (governed_rate_read_failed w k u b msgs s e Hr).
    exists (log_entry "Rate limit check error:" e s).
    split; [assumption|]. split; [apply same_tables_log | reflexivity].
  - rewrite (governed_rate_read_ok w k u b msgs s Hr) in *.
    destruct (20 <=? _); [discriminate Hnot|].
    exists s.
    split; [assumption|]. split; [apply same_tables_refl | reflexivity].
Qed.

(** The same, with what the rate limiter has logged by then. *)
Lemma serve_past_rate_console (w : World) (req : Request) (s : Store)
    (u : User) (b : RequestBody) (msgs : list Message) :
  authenticated w req u b ->
  messages b = Array msgs ->
  is_RateLimited (fst (serve w req s)) = false ->
  exists k s1 logged,
    OPENAI_API_KEY w = Some k
    /\ same_tables s s1
    /\ console s1 = (console s ++ logged)%list
    /\ serve w req s = catch (after_rate w k u b msgs s1).
Proof.
  intros Hauth Hm Hnot.
  destruct (serve_accepted w req s u b msgs Hauth Hm) as (k & Hk & Hs).
  rewrite Hs in *. exists k.
  destruct (rate_read_error w) as [e|] eqn:Hr.
  - rewrite (governed_rate_read_failed w k u b msgs s e Hr).
    exists (log_entry "Rate limit check error:" e s),
           [("Rate limit check error:", e)].
    split; [assumption|].
    split; [apply same_tables_log|]. split; reflexivity.
  - rewrite (governed_rate_read_ok w k u b msgs s Hr) in *.
    destruct (20 <=? _); [discriminate Hnot|].
    exists s, [].
    split; [assumption|]. split; [apply same_tables_refl|].
    split; [symmetry; apply app_nil_r | reflexivity].
Qed.

(** [after_rate], by the outcome of the quota manager's read. *)
Lemma after_rate_read_ok (w : World) (k : string) (u : User)
    (b : RequestBody) (msgs : list Message) (s : Store) :
  quota_read_error w = None ->
  after_rate w k u b msgs s
  = if 1000000 <? tokens_used (ai_usage s) (tenant_of b) (now_quota w)
    then (Return (quota_response
                    (tokens_used (ai_usage s) (tenant_of b) (now_quota w))), s)
    else complete w k u b msgs (tenant_of b)
                  (tokens_used (ai_usage s) (tenant_of b) (now_quota w)) s.
Proof.
  intros Hq. unfold after_rate, bind.
  rewrite (quotaCheck_read_ok w _ s Hq). cbv zeta.
  destruct (1000000 <? _); reflexivity.
Qed.

Lemma after_rate_read_failed (w : World) (k : string) (u : User)
    (b : RequestBody) (msgs : list Message) (s : Store) (e : string) :
  quota_read_error w = Some e ->
  after_rate w k u b msgs s
  = complete w k u b msgs (tenant_of b) 0 (log_entry "Quota check error:" e s).
Proof.
  intros Hq. unfold after_rate, bind.
  rewrite (quotaCheck_read_failed w _ s e Hq). reflexivity.
Qed.

Lemma complete_not_quota (w : World) (k : string) (u : User) (b : RequestBody)
    (msgs : list Message) (tenant : string) (total : Z) (s : Store) :
  is_QuotaExceeded (fst (catch (complete w k u b msgs tenant total s))) = false.
Proof. apply past_checks_not_rejected, complete_forms. Qed.

(** C2, as amended.  Once the tenant's tokens since the start of the
    month exceed 1,000,000 (strictly), the next authenticated call that
    the rate limiter lets through and whose quota read succeeds is
    rejected: status 429, a body carrying the current usage and the
    limit, no call to the provider and nothing written. *)
Theorem quota_rejects_over_limit (w : World) (req : Request) (s : Store)
    (u : User) (b : RequestBody) (msgs : list Message) :
  authenticated w req u b ->
  messages b = Array msgs ->
  is_RateLimited (fst (serve w req s)) = false ->
  quota_read_error w = None ->
  1000000 < tokens_used (ai_usage s) (tenant_of b) (now_quota w) ->
  is_QuotaExceeded (fst (serve w req s)) = true
  /\ status (fst (serve w req s)) = 429
  /\ body_field "usage" (fst (serve w req s))
     = Some (JObj [ ("current",
                     JNum (tokens_used (ai_usage s) (tenant_of b) (now_quota w)));
                    ("limit", JNum 1000000) ])
  /\ same_tables s (snd (serve w req s)).
Proof.
  intros Hauth Hm Hrate Hq Hover.
  destruct (serve_past_rate w req s u b msgs Hauth Hm Hrate)
    as (k & s1 & Hk & T & Hs).
  rewrite Hs, (after_rate_read_ok w k u b msgs s1 Hq).
  destruct T as (TA & TB & TC). rewrite TA.
  apply Z.ltb_lt in Hover. rewrite Hover. simpl.
  repeat split; assumption.
Qed.

(** The scenario of the design, second half: with 1,000,049 tokens on
    the ledger the next call is rejected. *)
Lemma quota_rejects_over_limit_witness :
  is_QuotaExceeded (fst (serve Fixture.healthy (Fixture.post Fixture.chat)
                               (Fixture.store (Fixture.used 1000049)))) = true
  /\ status (fst (serve Fixture.healthy (Fixture.post Fixture.chat)
                        (Fixture.store (Fixture.used 1000049)))) = 429
  /\ body_field "usage" (fst (serve Fixture.healthy (Fixture.post Fixture.chat)
                                    (Fixture.store (Fixture.used 1000049))))
     = Some (JObj [ ("current", JNum 1000049); ("limit", JNum 1000000) ])
  /\ same_tables (Fixture.store (Fixture.used 1000049))
                 (snd (serve Fixture.healthy (Fixture.post Fixture.chat)
                             (Fixture.store (Fixture.used 1000049)))).
Proof.
  apply (quota_rejects_over_limit Fixture.healthy (Fixture.post Fixture.chat)
           (Fixture.store (Fixture.used 1000049))
           Fixture.alice Fixture.chat Fixture.hello
           (fixture_authenticated None None _ None Fixture.chat)
           eq_refl eq_refl eq_refl).
  vm_compute. reflexivity.
Defined.

(** C2 as stated fails: the tenant's sum has reached 1,000,000 and the
    next call is not rejected; it goes to the provider and succeeds. *)
Lemma quota_reached_is_not_rejected :
  tokens_used (Fixture.used 1000000) default_workspaceId Fixture.noon = 1000000
  /\ is_QuotaExceeded (fst (serve Fixture.healthy (Fixture.post Fixture.chat)
                                  (Fixture.store (Fixture.used 1000000)))) = false
  /\ status (fst (serve Fixture.healthy (Fixture.post Fixture.chat)
                        (Fixture.store (Fixture.used 1000000)))) = 200.
Proof. repeat split. Qed.

(** C3, as amended.  For an authenticated request that the rate limiter
    lets through: when the quota manager's read of the ledger succeeds,
    the call is allowed if and only if the tenant's tokens since the start
    of the month do not exceed 1,000,000 (at exactly the limit it is
    allowed, only strictly over it is rejected), and an allowed call goes
    ahead: the provider is called, and its completion is answered 200
    with the tenant's tokens as the usage so far.  When that read fails,
    the error is among the lines the request adds to the console, the
    usage is taken to be 0 and the call goes ahead whatever the ledger
    holds. *)
Theorem quota_check_decision (w : World) (req : Request) (s : Store)
    (u : User) (b : RequestBody) (msgs : list Message) (k : string) :
  authenticated w req u b ->
  messages b = Array msgs ->
  OPENAI_API_KEY w = Some k ->
  is_RateLimited (fst (serve w req s)) = false ->
  (quota_read_error w = None ->
     (is_QuotaExceeded (fst (serve w req s)) = false
      <-> tokens_used (ai_usage s) (tenant_of b) (now_quota w) <= 1000000)
     /\ (tokens_used (ai_usage s) (tenant_of b) (now_quota w) <= 1000000 ->
         goes_ahead w k msgs
                    (tokens_used (ai_usage s) (tenant_of b) (now_quota w))
                    s (serve w req s)))
  /\ (forall e, quota_read_error w = Some e ->
      is_QuotaExceeded (fst (serve w req s)) = false
      /\ (exists later,
            console (snd (serve w req s)) = (console s ++ later)%list
            /\ In ("Quota check error:", e) later)
      /\ goes_ahead w k msgs 0 s (serve w req s)).
Proof.
  intros Hauth Hm Hkey Hrate.
  destruct (serve_past_rate_console w req s u b msgs Hauth Hm Hrate)
    as (k' & s1 & l0 & Hk & (TA & TB & TC) & Hl0 & Hs).
  assert (k' = k) by congruence. subst k'.
  rewrite Hs. split.
  - intros Hq. rewrite (after_rate_read_ok w k u b msgs s1 Hq), TA.
    destruct (1000000 <? tokens_used (ai_usage s) (tenant_of b) (now_quota w))
      eqn:Hc.
    + apply Z.ltb_lt in Hc. simpl. split; [|lia].
      split; [discriminate | lia].
    + apply Z.ltb_ge in Hc. split.
      * split; [intros _; assumption | intros _; apply complete_not_quota].
      * intros _.
        destruct (complete_goes_ahead w k u b msgs (tenant_of b)
                    (tokens_used (ai_usage s) (tenant_of b) (now_quota w)) s1)
          as (G1 & G2).
        split; [rewrite G1, TC; reflexivity | exact G2].
  - intros e He.
    rewrite (after_rate_read_failed w k u b msgs s1 e He).
    split; [apply complete_not_quota|]. split.
    + destruct (complete_extends_console w k u b msgs (tenant_of b) 0
                  (log_entry "Quota check error:" e s1)) as (l2 & E).
      exists (l0 ++ ("Quota check error:", e) :: l2)%list. split.
      * rewrite E. simpl. rewrite Hl0, <- !app_assoc. reflexivity.
      * apply in_or_app. right. left. reflexivity.
    + destruct (complete_goes_ahead w k u b msgs (tenant_of b) 0
                  (log_entry "Quota check error:" e s1)) as (G1 & G2).
      split; [rewrite G1; simpl; rewrite TC; reflexivity | exact G2].
Qed.

(** At exactly the limit the call is allowed and goes ahead, answered
    with 1,000,000 as the usage so far; with 2,000,000 tokens on the
    ledger and the read failing, the error is logged and the call goes
    ahead, answered with 0 as the usage so far. *)
Lemma quota_check_decision_witness :
  (is_QuotaExceeded (fst (serve Fixture.healthy (Fixture.post Fixture.chat)
                                (Fixture.store (Fixture.used 1000000)))) = false
   /\ goes_ahead Fixture.healthy "sk-test" Fixture.hello 1000000
                 (Fixture.store (Fixture.used 1000000))
                 (serve Fixture.healthy (Fixture.post Fixture.chat)
                        (Fixture.store (Fixture.used 1000000))))
  /\ (is_QuotaExceeded
        (fst (serve Fixture.quota_read_fails (Fixture.post Fixture.chat)
                    (Fixture.store (Fixture.used 2000000)))) = false
      /\ (exists later,
            console (snd (serve Fixture.quota_read_fails
                                (Fixture.post Fixture.chat)
                                (Fixture.store (Fixture.used 2000000))))
            = (console (Fixture.store (Fixture.used 2000000)) ++ later)%list
            /\ In ("Quota check error:", "connection refused") later)
      /\ goes_ahead Fixture.quota_read_fails "sk-test" Fixture.hello 0
                    (Fixture.store (Fixture.used 2000000))
                    (serve Fixture.quota_read_fails (Fixture.post Fixture.chat)
                           (Fixture.store (Fixture.used 2000000)))).
Proof.
  split.
  - pose proof (proj1 (quota_check_decision
                    Fixture.healthy (Fixture.post Fixture.chat)
                    (Fixture.store (Fixture.used 1000000))
                    Fixture.alice Fixture.chat Fixture.hello "sk-test"
                    (fixture_authenticated None None _ None Fixture.chat)
                    eq_refl eq_refl eq_refl)
                  eq_refl) as (A & B).
    assert (L : tokens_used (ai_usage (Fixture.store (Fixture.used 1000000)))
                            (tenant_of Fixture.chat) (now_quota Fixture.healthy)
                <= 1000000) by (vm_compute; discriminate).
    split; [exact (proj2 A L) | exact (B L)].
  - apply (proj2 (quota_check_decision
                    Fixture.quota_read_fails (Fixture.post Fixture.chat)
                    (Fixture.store (Fixture.used 2000000))
                    Fixture.alice Fixture.chat Fixture.hello "sk-test"
                    (fixture_authenticated None (Some "connection refused") _
                                           None Fixture.chat)
                    eq_refl eq_refl eq_refl)
                 "connection refused" eq_refl).
Defined.

(** C3 as stated fails: with 2,000,000 tokens on the ledger this month
    the call is still allowed when the quota manager's read fails. *)
Lemma quota_manager_fails_open :
  tokens_used (Fixture.used 2000000) default_workspaceId Fixture.noon = 2000000
  /\ is_RateLimited (fst (serve Fixture.quota_read_fails (Fixture.post Fixture.chat)
                                (Fixture.store (Fixture.used 2000000)))) = false
  /\ is_QuotaExceeded (fst (serve Fixture.quota_read_fails (Fixture.post Fixture.chat)
                                  (Fixture.store (Fixture.used 2000000)))) = false
  /\ status (fst (serve Fixture.quota_read_fails (Fixture.post Fixture.chat)
                        (Fixture.store (Fixture.used 2000000)))) = 200.
Proof. repeat split. Qed.

(** ** Malformed bodies (C6) *)





(** ** Failed writes do not reach the caller (C7) *)

(** Two worlds that agree on every phase before [record] give the caller
    the same response. *)
Lemma response_depends_on_early_phases (w w' : World) (req : Request) (s : Store) :
  accept w' req = accept w req ->
  (forall u, rateCheck w' u = rateCheck w u) ->
  (forall t, quotaCheck w' t = quotaCheck w t) ->
  (forall k msgs, invoke w' k msgs = invoke w k msgs) ->
  fst (serve w' req s) = fst (serve w req s).
Proof.
  intros Ha Hr Hq Hi.
  unfold serve, try_block, governed, after_rate, complete, bind.
  destruct (method req =? "OPTIONS")%string; [reflexivity|].
  rewrite Ha.
  destruct (accept w req s) as [[[[[k u] b] msgs]|r|e] s1]; try reflexivity.
  rewrite Hr.
  destruct (rateCheck w u s1) as [[[]|r|e] s2]; try reflexivity.
  rewrite Hq.
  destruct (quotaCheck w (tenant_of b) s2) as [[total|r|e] s3]; try reflexivity.
  rewrite Hi.
  destruct (invoke w k msgs s3) as [[c|r|e] s4]; try reflexivity.
  pose proof (record_effect w (tenant_of b) u b c s4) as R.
  pose proof (record_effect w' (tenant_of b) u b c s4) as R'.
  cbv zeta in R, R'. destruct R as (R & _). destruct R' as (R' & _).
  destruct (record w (tenant_of b) u b c s4) as [x s5].
  destruct (record w' (tenant_of b) u b c s4) as [x' s5'].
  simpl in R, R'. subst x x'. reflexivity.
Qed.

Lemma response_ignores_usage_write (e : option string) (w : World)
    (req : Request) (s : Store) :
  fst (serve (with_usage_write e w) req s) = fst (serve w req s).
Proof.
  apply response_depends_on_early_phases; intros; reflexivity.
Qed.

Lemma response_ignores_message_write (e : option string) (w : World)
    (req : Request) (s : Store) :
  fst (serve (with_message_write e w) req s) = fst (serve w req s).
Proof.
  apply response_depends_on_early_phases; intros; reflexivity.
Qed.

(** What is known of a run whose provider call completed. *)
Lemma completed_run (w : World) (req : Request) (s : Store)
    (q : ChatRequest) (st : Z) (c : Completion) :
  upstream_calls (snd (serve w req s)) = (upstream_calls s ++ [q])%list ->
  fetch w q = FetchResolved st (CompletionBody c) ->
  ok st = true ->
  exists u b,
    authenticated w req u b
    /\ fst (serve w req s)
       = success_response (choice_content c) (total_tokens (usage c))
                          (costEstimate (total_tokens (usage c)))
                          (monthly_total w (tenant_of b) (ai_usage s))
    /\ ai_usage (snd (serve w req s))
       = (ai_usage s ++ match usage_write_error w with
                        | None => [usage_row w (tenant_of b) u b c]
                        | Some _ => []
                        end)%list
    /\ conversation_messages (snd (serve w req s))
       = (conversation_messages s
          ++ match conversation_of b, message_write_error w with
             | Some conv, None => [message_row w conv c]
             | _, _ => []
             end)%list
    /\ (forall e, usage_write_error w = Some e ->
                  In ("Failed to log usage:", e) (console (snd (serve w req s))))
    /\ (forall conv e, conversation_of b = Some conv ->
                       message_write_error w = Some e ->
                       In ("Failed to save message:", e)
                          (console (snd (serve w req s)))).
Proof.
  intros Hq Hfq Hokq.
  destruct (serve_run w req s)
    as [ (TA & TB & TC) Hend
       | k u b msgs s2 Hauth Hm Hk T Hinv Hcalls Hnot HA HB Hst
       | k u b msgs s2 st0 c0 Hauth Hm Hk T Hle Hf Hok Hr Hs' Hcalls HA HB HL1 HL2 ].
  - rewrite TC in Hq. exfalso. exact (not_own_extension _ _ Hq).
  - rewrite Hcalls in Hq. apply app_inj_tail in Hq. destruct Hq as [_ Eq].
    subst q. rewrite (Hnot st c Hfq) in Hokq. discriminate.
  - rewrite Hcalls in Hq. apply app_inj_tail in Hq. destruct Hq as [_ Eq].
    subst q. rewrite Hf in Hfq. inversion Hfq; subst.
    exists u, b. split; [assumption|]. repeat split; assumption.
Qed.

(** C7.  When the provider call completes and the write of the usage
    event fails, the caller still gets the 200 with the generated message
    and the usage snapshot; the failure is written to the console, the
    ledger is left as it was, and the response is the very one the caller
    would have got had the write succeeded. *)
Theorem ledger_write_failure_swallowed (w : World) (req : Request) (s : Store)
    (q : ChatRequest) (st : Z) (c : Completion) (e : string) :
  upstream_calls (snd (serve w req s)) = (upstream_calls s ++ [q])%list ->
  fetch w q = FetchResolved st (CompletionBody c) ->
  ok st = true ->
  usage_write_error w = Some e ->
  status (fst (serve w req s)) = 200
  /\ body_field "message" (fst (serve w req s)) = Some (JStr (choice_content c))
  /\ (exists total,
        body_field "usage" (fst (serve w req s))
        = Some (JObj [ ("tokens", JNum (total_tokens (usage c)));
                       ("cost", Json.of_double (costEstimate (total_tokens (usage c))));
                       ("monthlyTotal", JNum (total + total_tokens (usage c)));
                       ("monthlyLimit", JNum 1000000) ]))
  /\ In ("Failed to log usage:", e) (console (snd (serve w req s)))
  /\ ai_usage (snd (serve w req s)) = ai_usage s
  /\ fst (serve w req s) = fst (serve (with_usage_write None w) req s).
Proof.
  intros Hq Hfq Hokq He.
  destruct (completed_run w req s q st c Hq Hfq Hokq)
    as (u & b & Hauth & Hr & HA & HB & HL1 & HL2).
  rewrite He in HA. rewrite app_nil_r in HA.
  repeat split.
  - rewrite Hr. reflexivity.
  - rewrite Hr. reflexivity.
  - exists (monthly_total w (tenant_of b) (ai_usage s)). rewrite Hr. reflexivity.
  - apply HL1. assumption.
  - assumption.
  - symmetry. apply response_ignores_usage_write.
Qed.

Lemma ledger_write_failure_swallowed_witness :
  status (fst (serve Fixture.write_fails (Fixture.post Fixture.chat)
                     (Fixture.store []))) = 200
  /\ body_field "message" (fst (serve Fixture.write_fails (Fixture.post Fixture.chat)
                                      (Fixture.store [])))
     = Some (JStr "Hi, how can I help?")
  /\ (exists total,
        body_field "usage" (fst (serve Fixture.write_fails (Fixture.post Fixture.chat)
                                       (Fixture.store [])))
        = Some (JObj [ ("tokens", JNum 50);
                       ("cost", Json.of_double (costEstimate 50));
                       ("monthlyTotal", JNum (total + 50));
                       ("monthlyLimit", JNum 1000000) ]))
  /\ In ("Failed to log usage:", "storage unavailable")
        (console (snd (serve Fixture.write_fails (Fixture.post Fixture.chat)
                             (Fixture.store []))))
  /\ ai_usage (snd (serve Fixture.write_fails (Fixture.post Fixture.chat)
                          (Fixture.store []))) = []
  /\ fst (serve Fixture.write_fails (Fixture.post Fixture.chat) (Fixture.store []))
     = fst (serve (with_usage_write None Fixture.write_fails)
                  (Fixture.post Fixture.chat) (Fixture.store [])).
Proof.
  exact (ledger_write_failure_swallowed Fixture.write_fails
           (Fixture.post Fixture.chat) (Fixture.store [])
           (chat_request "sk-test" Fixture.hello) 200 Fixture.completion50
           "storage unavailable" eq_refl eq_refl eq_refl eq_refl).
Defined.

(** ** Provider failures (C8) *)

Lemma invoke_rejected (w : World) (k : string) (msgs : list Message)
    (s : Store) (reason : string) :
  fetch w (chat_request k msgs) = FetchRejected reason ->
  invoke w k msgs s = (Throw reason, add_call (chat_request k msgs) s).
Proof.
  intros Hf. unfold invoke, bind, fetch_openai. rewrite Hf. reflexivity.
Qed.

(** C8, as amended.  When the provider was called and answered with an
    error status (4xx or 5xx) and a body that can be read, the caller gets
    the provider's own status (429 stays 429; it is 5xx only if the
    provider's was) and the body [{ error: "OpenAI API error", details }];
    the [error] text tells it apart from the gateway's own rate-limit and
    quota rejections.  When the call itself fails (no answer at all), the
    caller gets 500 with [{ error, message }].  In both cases no usage
    event is written. *)
Theorem upstream_failure_response (w : World) (req : Request) (s : Store)
    (q : ChatRequest) :
  upstream_calls (snd (serve w req s)) = (upstream_calls s ++ [q])%list ->
  (forall st pb details,
      fetch w q = FetchResolved st pb ->
      error_details pb = Some details ->
      400 <= st <= 599 ->
      status (fst (serve w req s)) = st
      /\ is_UpstreamError (fst (serve w req s)) = true
      /\ body_keys (fst (serve w req s)) = ["error"; "details"]
      /\ body_field "error" (fst (serve w req s)) = Some (JStr "OpenAI API error")
      /\ body_field "details" (fst (serve w req s)) = Some (JStr details)
      /\ is_RateLimited (fst (serve w req s)) = false
      /\ is_QuotaExceeded (fst (serve w req s)) = false
      /\ ai_usage (snd (serve w req s)) = ai_usage s)
  /\ (forall reason,
        fetch w q = FetchRejected reason ->
        status (fst (serve w req s)) = 500
        /\ body_keys (fst (serve w req s)) = ["error"; "message"]
        /\ body_field "message" (fst (serve w req s)) = Some (JStr reason)
        /\ ai_usage (snd (serve w req s)) = ai_usage s).
Proof.
  intros Hq.
  destruct (serve_run w req s)
    as [ (TA & TB & TC) Hend
       | k u b msgs s2 Hauth Hm Hk T Hinv Hcalls Hnot HA HB Hst
       | k u b msgs s2 st0 c0 Hauth Hm Hk T Hle Hf Hok Hr Hs' Hcalls HA HB HL1 HL2 ].
  - rewrite TC in Hq. exfalso. exact (not_own_extension _ _ Hq).
  - rewrite Hcalls in Hq. apply app_inj_tail in Hq. destruct Hq as [_ Eq].
    subst q. split.
    + intros st pb details Hf Hd Hrange.
      rewrite (invoke_not_ok w k msgs s2 st pb details Hf Hd Hrange) in Hinv.
      destruct Hinv as [Er _]. rewrite Er.
      destruct (past_checks_not_rejected _ (pc_upstream st details))
        as (N1 & N2 & _).
      repeat split; assumption.
    + intros reason Hf.
      rewrite (invoke_rejected w k msgs s2 reason Hf) in Hinv.
      destruct Hinv as [Er _]. rewrite Er.
      repeat split; assumption.
  - rewrite Hcalls in Hq. apply app_inj_tail in Hq. destruct Hq as [_ Eq].
    subst q. split.
    + intros st pb details Hf' _ Hrange. rewrite Hf in Hf'.
      inversion Hf'; subst. unfold ok in Hok.
      apply andb_true_iff in Hok. destruct Hok as [_ Hok].
      apply Z.leb_le in Hok. lia.
    + intros reason Hf'. congruence.
Qed.

(** A provider 429 with a readable error body. *)
Lemma upstream_failure_response_witness :
  status (fst (serve Fixture.provider_429 (Fixture.post Fixture.chat)
                     (Fixture.store []))) = 429
  /\ is_UpstreamError (fst (serve Fixture.provider_429 (Fixture.post Fixture.chat)
                                  (Fixture.store []))) = true
  /\ body_keys (fst (serve Fixture.provider_429 (Fixture.post Fixture.chat)
                           (Fixture.store []))) = ["error"; "details"]
  /\ body_field "error" (fst (serve Fixture.provider_429 (Fixture.post Fixture.chat)
                                    (Fixture.store [])))
     = Some (JStr "OpenAI API error")
  /\ body_field "details" (fst (serve Fixture.provider_429 (Fixture.post Fixture.chat)
                                      (Fixture.store [])))
     = Some (JStr "Rate limit reached for requests")
  /\ is_RateLimited (fst (serve Fixture.provider_429 (Fixture.post Fixture.chat)
                                (Fixture.store []))) = false
  /\ is_QuotaExceeded (fst (serve Fixture.provider_429 (Fixture.post Fixture.chat)
                                  (Fixture.store []))) = false
  /\ ai_usage (snd (serve Fixture.provider_429 (Fixture.post Fixture.chat)
                          (Fixture.store []))) = [].
Proof.
  apply (proj1 (upstream_failure_response Fixture.provider_429
                  (Fixture.post Fixture.chat) (Fixture.store [])
                  (chat_request "sk-test" Fixture.hello) eq_refl)
               429 (ErrorBody (Some "Rate limit reached for requests"))
               "Rate limit reached for requests" eq_refl eq_refl).
  lia.
Defined.

(** C8 as stated fails: the provider answers 429 and the caller gets 429,
    not a 5xx, with a body that has [details] and no [message]. *)
Lemma provider_429_is_passed_on :
  fetch Fixture.provider_429 (chat_request "sk-test" Fixture.hello)
  = FetchResolved 429 (ErrorBody (Some "Rate limit reached for requests"))
  /\ status (fst (serve Fixture.provider_429 (Fixture.post Fixture.chat)
                        (Fixture.store []))) = 429
  /\ (500 <=? status (fst (serve Fixture.provider_429 (Fixture.post Fixture.chat)
                                 (Fixture.store [])))) = false
  /\ body_keys (fst (serve Fixture.provider_429 (Fixture.post Fixture.chat)
                           (Fixture.store []))) = ["error"; "details"]
  /\ body_field "message" (fst (serve Fixture.provider_429 (Fixture.post Fixture.chat)
                                      (Fixture.store []))) = None.
Proof. repeat split. Qed.

(** ** The assistant's message (C10) *)

Lemma truthy_nonempty (x : string) : x <> "" -> JS.truthy x = true.
Proof.
  intros H. unfold JS.truthy. apply String.eqb_neq in H. rewrite H. reflexivity.
Qed.

(** C10, as amended.  When the provider call completes for a request
    whose body names a non-empty [conversationId], the handler, besides
    the usage event, inserts into [conversation_messages] a row with role
    "assistant", the generated text, the model name and the tokens used;
    if that insert fails the table is left as it was, the failure is
    written to the console and the 200 response is the one the caller
    would have got anyway.  When [conversationId] is absent or the empty
    string, no row is written. *)
Theorem assistant_message_saved (w : World) (req : Request) (s : Store)
    (b : RequestBody) (q : ChatRequest) (st : Z) (c : Completion) :
  json_body req = Some b ->
  upstream_calls (snd (serve w req s)) = (upstream_calls s ++ [q])%list ->
  fetch w q = FetchResolved st (CompletionBody c) ->
  ok st = true ->
  (forall conv,
      conversationId b = Some conv ->
      conv <> "" ->
      conversation_messages (snd (serve w req s))
      = (conversation_messages s
         ++ match message_write_error w with
            | None =>
                [ {| ConversationMessages.id := message_row_id w;
                     ConversationMessages.conversation_id := conv;
                     ConversationMessages.role := "assistant";
                     ConversationMessages.content := choice_content c;
                     ConversationMessages.tokens_used := total_tokens (usage c);
                     ConversationMessages.model := "gpt-3.5-turbo";
                     ConversationMessages.created_at := message_row_now w |} ]
            | Some _ => []
            end)%list
      /\ (exists row,
            AiUsage.conversation_id row = Some conv
            /\ ai_usage (snd (serve w req s))
               = (ai_usage s ++ match usage_write_error w with
                                | None => [row]
                                | Some _ => []
                                end)%list)
      /\ (forall e, message_write_error w = Some e ->
                    In ("Failed to save message:", e)
                       (console (snd (serve w req s))))
      /\ status (fst (serve w req s)) = 200
      /\ fst (serve w req s) = fst (serve (with_message_write None w) req s))
  /\ (conversationId b = None \/ conversationId b = Some "" ->
      conversation_messages (snd (serve w req s)) = conversation_messages s).
Proof.
  intros Hb Hq Hfq Hokq.
  destruct (completed_run w req s q st c Hq Hfq Hokq)
    as (u & b' & Hauth & Hr & HA & HB & HL1 & HL2).
  assert (b' = b) by (destruct Hauth as [_ _ _ Hb']; congruence). subst b'.
  split.
  - intros conv Hc Hne.
    assert (Hconv : conversation_of b = Some conv).
    { unfold conversation_of. rewrite Hc, (truthy_nonempty conv Hne). reflexivity. }
    rewrite Hconv in HB.
    split; [exact HB|]. split.
    + exists (usage_row w (tenant_of b) u b c). split; [exact Hconv | exact HA].
    + split; [intros e He; exact (HL2 conv e Hconv He)|].
      split; [rewrite Hr; reflexivity|].
      symmetry. apply response_ignores_message_write.
  - intros Habsent.
    assert (Hconv : conversation_of b = None).
    { unfold conversation_of. destruct Habsent as [E|E]; rewrite E; reflexivity. }
    rewrite Hconv in HB. rewrite app_nil_r in HB. exact HB.
Qed.

(** A completed call in conversation "conv-1". *)
Lemma assistant_message_saved_witness :
  conversation_messages
    (snd (serve Fixture.healthy (Fixture.post (Fixture.chat_in "conv-1"))
                (Fixture.store [])))
  = [ {| ConversationMessages.id := "message-new";
         ConversationMessages.conversation_id := "conv-1";
         ConversationMessages.role := "assistant";
         ConversationMessages.content := "Hi, how can I help?";
         ConversationMessages.tokens_used := 50;
         ConversationMessages.model := "gpt-3.5-turbo";
         ConversationMessages.created_at := Fixture.noon + 1600 |} ].
Proof.
  apply (proj1 (assistant_message_saved Fixture.healthy
                  (Fixture.post (Fixture.chat_in "conv-1")) (Fixture.store [])
                  (Fixture.chat_in "conv-1")
                  (chat_request "sk-test" Fixture.hello) 200 Fixture.completion50
                  eq_refl eq_refl eq_refl eq_refl)
               "conv-1" eq_refl).
  discriminate.
Defined.

(** C10 as stated fails: the body supplies [conversationId: ""], the
    provider call completes, the usage event is written, and no row goes
    into [conversation_messages]. *)
Lemma empty_conversation_id_saves_nothing :
  conversationId (Fixture.chat_in "") = Some ""
  /\ status (fst (serve Fixture.healthy (Fixture.post (Fixture.chat_in ""))
                        (Fixture.store []))) = 200
  /\ List.length (ai_usage (snd (serve Fixture.healthy
                                       (Fixture.post (Fixture.chat_in ""))
                                       (Fixture.store [])))) = 1%nat
  /\ conversation_messages (snd (serve Fixture.healthy
                                       (Fixture.post (Fixture.chat_in ""))
                                       (Fixture.store []))) = [].
Proof. repeat split. Qed.

(** ** The cost estimate (C9) *)

(** The literal is the correctly rounded quotient of 2 by 1000. *)
Lemma lit_0_002_nearest : JS.lit_0_002 = JS.div (JS.of_Z 2) (JS.of_Z 1000).
Proof. reflexivity. Qed.

(** *** Rounding to a double, from the specification of binary64 *)

Lemma digits2_pos_bounds (p : positive) :
  2 ^ (Z.pos (digits2_pos p) - 1) <= Z.pos p < 2 ^ Z.pos (digits2_pos p).
Proof.
  induction p as [p IH|p IH|]; cbn [digits2_pos].
  - rewrite Pos2Z.inj_succ.
    replace (Z.succ (Z.pos (digits2_pos p)) - 1) with (Z.succ (Z.pos (digits2_pos p) - 1))
      by lia.
    rewrite !Z.pow_succ_r by lia. lia.
  - rewrite Pos2Z.inj_succ.
    replace (Z.succ (Z.pos (digits2_pos p)) - 1) with (Z.succ (Z.pos (digits2_pos p) - 1))
      by lia.
    rewrite !Z.pow_succ_r by lia. lia.
  - cbn. lia.
Qed.

Lemma Zdigits2_unique (m d : Z) :
  2 ^ (d - 1) <= m < 2 ^ d -> 0 < m -> 0 < d -> Zdigits2 m = d.
Proof.
  intros H Hm Hd. destruct m as [|p|p]; try lia. cbn [Zdigits2].
  pose proof (digits2_pos_bounds p) as B.
  set (d' := Z.pos (digits2_pos p)) in *.
  destruct (Z.lt_trichotomy d' d) as [L|[E|L]]; [|assumption|].
  - assert (2 ^ d' <= 2 ^ (d - 1)) by (apply Z.pow_le_mono_r; lia). lia.
  - assert (2 ^ d <= 2 ^ (d' - 1)) by (apply Z.pow_le_mono_r; lia). lia.
Qed.

Lemma inject_Z_xO (p : positive) : (inject_Z (Z.pos p~0) == 2 * inject_Z (Z.pos p))%Q.
Proof. change 2%Q with (inject_Z 2). rewrite <- inject_Z_mult. reflexivity. Qed.

Lemma inject_Z_xI (p : positive) : (inject_Z (Z.pos p~1) == 2 * inject_Z (Z.pos p) + 1)%Q.
Proof.
  change 2%Q with (inject_Z 2). change 1%Q with (inject_Z 1).
  rewrite <- inject_Z_mult, <- inject_Z_plus. reflexivity.
Qed.

Lemma shr_1_spec (m : Z) (r s : bool) (v : Q) :
  0 <= m -> located m r s v ->
  shr_m (shr_1 (Build_shr_record m r s)) = m / 2
  /\ located (shr_m (shr_1 (Build_shr_record m r s)))
             (shr_r (shr_1 (Build_shr_record m r s)))
             (shr_s (shr_1 (Build_shr_record m r s))) (v * (1 # 2))%Q.
Proof.
  intros Hm H.
  destruct m as [|[p|p|]|p]; try lia; cbn [shr_1 shr_m shr_r shr_s].
  - split; [reflexivity|].
    revert H. unfold located. change (inject_Z 0) with 0%Q.
    destruct r, s; cbn [orb]; intros H; lra.
  - split.
    + change (Z.pos p~1) with (2 * Z.pos p + 1).
      apply Z.div_unique with (r := 1); lia.
    + pose proof (inject_Z_xI p) as E. revert H. unfold located.
      destruct r, s; cbn [orb]; intros H; lra.
  - split.
    + change (Z.pos p~0) with (2 * Z.pos p).
      apply Z.div_unique with (r := 0); lia.
    + pose proof (inject_Z_xO p) as E. revert H. unfold located.
      destruct r, s; cbn [orb]; intros H; lra.
  - split; [reflexivity|].
    revert H. unfold located. change (inject_Z 1) with 1%Q. change (inject_Z 0) with 0%Q.
    destruct r, s; cbn [orb]; intros H; lra.
Qed.

Lemma located_ext (m : Z) (r s : bool) (v v' : Q) :
  (v == v')%Q -> located m r s v -> located m r s v'.
Proof. intros E. unfold located. destruct r, s; intros H; lra. Qed.

Lemma iter_shr_spec (p : positive) :
  forall (x : shr_record) (v : Q),
    0 <= shr_m x -> located (shr_m x) (shr_r x) (shr_s x) v ->
    shr_m (iter_pos shr_1 p x) = shr_m x / 2 ^ Z.pos p
    /\ located (shr_m (iter_pos shr_1 p x)) (shr_r (iter_pos shr_1 p x))
               (shr_s (iter_pos shr_1 p x)) (v / inject_Z (2 ^ Z.pos p))%Q.
Proof.
  assert (P2 : forall q, 0 < 2 ^ Z.pos q) by (intros; apply Z.pow_pos_nonneg; lia).
  assert (Q2 : forall q, (0 < inject_Z (2 ^ Z.pos q))%Q).
  { intros q. change 0%Q with (inject_Z 0). rewrite <- Zlt_Qlt. apply P2. }
  induction p as [p IH|p IH|]; intros [m r s] v Hm H; cbn [iter_pos].
  - destruct (shr_1_spec m r s v Hm H) as (E1 & L1). cbn [shr_m shr_r shr_s] in *.
    assert (H1 : 0 <= shr_m (shr_1 (Build_shr_record m r s)))
      by (rewrite E1; apply Z.div_pos; lia).
    destruct (IH _ _ H1 L1) as (E2 & L2).
    assert (H2 : 0 <= shr_m (iter_pos shr_1 p (shr_1 (Build_shr_record m r s))))
      by (rewrite E2; apply Z.div_pos; [assumption | apply P2]).
    destruct (IH _ _ H2 L2) as (E3 & L3).
    assert (EP : 2 ^ Z.pos p~1 = 2 * (2 ^ Z.pos p * 2 ^ Z.pos p)).
    { replace (Z.pos p~1) with (1 + (Z.pos p + Z.pos p)) by lia.
      rewrite !Z.pow_add_r by lia. reflexivity. }
    split.
    + rewrite E3, E2, E1, EP, !Z.div_div by (pose proof (P2 p); lia).
      reflexivity.
    + apply located_ext with (2 := L3). rewrite EP, !inject_Z_mult.
      pose proof (Q2 p). field. lra.
  - destruct (IH _ _ Hm H) as (E2 & L2). cbn [shr_m shr_r shr_s] in *.
    assert (H2 : 0 <= shr_m (iter_pos shr_1 p (Build_shr_record m r s)))
      by (rewrite E2; apply Z.div_pos; [assumption | apply P2]).
    destruct (IH _ _ H2 L2) as (E3 & L3).
    assert (EP : 2 ^ Z.pos p~0 = 2 ^ Z.pos p * 2 ^ Z.pos p).
    { replace (Z.pos p~0) with (Z.pos p + Z.pos p) by lia.
      rewrite !Z.pow_add_r by lia. reflexivity. }
    split.
    + rewrite E3, E2, EP, !Z.div_div by (pose proof (P2 p); lia).
      reflexivity.
    + apply located_ext with (2 := L3). rewrite EP, !inject_Z_mult.
      pose proof (Q2 p). field. lra.
  - destruct (shr_1_spec m r s v Hm H) as (E1 & L1). split; [exact E1|].
    apply located_ext with (2 := L1). change (inject_Z (2 ^ 1)) with 2%Q. field.
Qed.

Lemma round_nearest_even_spec (m : Z) (r s : bool) (v : Q) :
  located m r s v ->
  m <= round_nearest_even m (loc_of_shr_record (Build_shr_record m r s)) <= m + 1
  /\ (Qabs (inject_Z (round_nearest_even m
                        (loc_of_shr_record (Build_shr_record m r s))) - v)
      <= 1 # 2)%Q
  /\ (inject_Z m <= v)%Q.
Proof.
  unfold located. intros H.
  destruct r, s; cbn [loc_of_shr_record round_nearest_even];
    try destruct (Z.even m);
    repeat split; try lia;
    try (apply Qabs_Qle_condition; rewrite ?inject_Z_plus;
         change (inject_Z 1) with 1%Q; split; lra);
    lra.
Qed.

Lemma pow2_pos (e : Z) : (0 < 2 ^ e)%Q.
Proof. apply Qpower_0_lt. reflexivity. Qed.

Lemma pow2_succ (e : Z) : (2 ^ (e + 1) == 2 ^ e * 2)%Q.
Proof. rewrite Qpower_plus by discriminate. reflexivity. Qed.

Lemma pow2_add (a b : Z) : (2 ^ (a + b) == 2 ^ a * 2 ^ b)%Q.
Proof. apply Qpower_plus. discriminate. Qed.

Lemma pow2_inject (n : Z) : 0 <= n -> (inject_Z (2 ^ n) == 2 ^ n)%Q.
Proof. intros H. rewrite Zpower_Qpower by assumption. reflexivity. Qed.

Lemma scale_abs (a b p h : Q) :
  (0 < p)%Q -> (Qabs (a - b) <= h)%Q -> (Qabs (a * p - b * p) <= h * p)%Q.
Proof.
  intros Hp H. apply Qabs_Qle_condition in H. apply Qabs_Qle_condition.
  split; nra.
Qed.

Lemma fexp_normal (e : Z) : -1074 <= e - 53 -> fexp prec emax e = e - 53.
Proof. intros H. unfold fexp, SpecFloat.emin, prec, emax. lia. Qed.

Lemma digits_53 (m : Z) : 0 < m -> Zdigits2 m = 53 -> 2 ^ 52 <= m < 2 ^ 53.
Proof.
  intros Hm H. destruct m as [|p|p]; try lia. cbn [Zdigits2] in H.
  pose proof (digits2_pos_bounds p) as B. rewrite H in B. exact B.
Qed.

Lemma shr_record_of_loc_m (m : Z) (l : location) : shr_m (shr_record_of_loc m l) = m.
Proof. destruct l as [|[]]; reflexivity. Qed.

Lemma loc_of_shr_record_eta (x : shr_record) :
  loc_of_shr_record x
  = loc_of_shr_record (Build_shr_record (shr_m x) (shr_r x) (shr_s x)).
Proof. destruct x. reflexivity. Qed.

(** The first shift of a rounding brings the mantissa to 53 digits and
    keeps track of where the exact value lies. *)
Lemma shr_fexp_spec (mx ex : Z) (lx : location) (v : Q) (d : Z) :
  0 < mx -> Zdigits2 mx = d -> 53 <= d -> -1074 <= d + ex - 53 ->
  loc_located mx lx v ->
  exists x v1,
    shr_fexp prec emax mx ex lx = (x, d + ex - 53)
    /\ 2 ^ 52 <= shr_m x < 2 ^ 53
    /\ located (shr_m x) (shr_r x) (shr_s x) v1
    /\ (v1 * 2 ^ (d + ex - 53) == v * 2 ^ ex)%Q.
Proof.
  intros Hmx Hd H53 Hn Hloc.
  unfold shr_fexp. rewrite Hd, fexp_normal by lia.
  replace (d + ex - 53 - ex) with (d - 53) by lia.
  destruct (d - 53) as [|p|p] eqn:En; try lia.
  - exists (shr_record_of_loc mx lx), v. cbn [shr].
    rewrite shr_record_of_loc_m.
    split; [f_equal; lia|]. split; [apply digits_53; [assumption | lia]|].
    split; [exact Hloc|].
    replace (d + ex - 53) with ex by lia. reflexivity.
  - cbn [shr].
    assert (Hm0 : 0 <= shr_m (shr_record_of_loc mx lx))
      by (rewrite shr_record_of_loc_m; lia).
    assert (Hloc' : located (shr_m (shr_record_of_loc mx lx))
                            (shr_r (shr_record_of_loc mx lx))
                            (shr_s (shr_record_of_loc mx lx)) v)
      by (rewrite shr_record_of_loc_m; exact Hloc).
    destruct (iter_shr_spec p _ v Hm0 Hloc') as (E & L).
    rewrite shr_record_of_loc_m in E.
    exists (iter_pos shr_1 p (shr_record_of_loc mx lx)), (v / inject_Z (2 ^ Z.pos p))%Q.
    assert (P2 : 0 < 2 ^ Z.pos p) by (apply Z.pow_pos_nonneg; lia).
    split; [f_equal; lia|]. split; [|split; [exact L|]].
    + rewrite E.
      assert (B : 2 ^ (d - 1) <= mx < 2 ^ d).
      { destruct mx as [|q|q]; try lia. cbn [Zdigits2] in Hd. subst d.
        apply digits2_pos_bounds. }
      replace (d - 1) with (52 + Z.pos p) in B by lia.
      replace d with (53 + Z.pos p) in B by lia.
      rewrite !Z.pow_add_r in B by lia.
      split.
      * apply Z.div_le_lower_bound; [assumption | lia].
      * apply Z.div_lt_upper_bound; [assumption | lia].
    + replace (d + ex - 53) with (ex + Z.pos p) by lia.
      rewrite pow2_add, (pow2_inject (Z.pos p)) by lia.
      pose proof (pow2_pos (Z.pos p)). field. lra.
Qed.

(** Rounding to nearest: the result is a double with a full mantissa,
    within half a unit of its last place of the exact value. *)
Lemma round_aux_spec (sx : bool) (mx ex : Z) (lx : location) (v : Q) (d : Z) :
  0 < mx -> Zdigits2 mx = d -> 53 <= d ->
  -1074 <= d + ex - 53 -> d + ex - 53 < 971 ->
  loc_located mx lx v ->
  exists m e,
    binary_round_aux prec emax sx mx ex lx = S754_finite sx m e
    /\ 2 ^ 52 <= Z.pos m < 2 ^ 53
    /\ (e = d + ex - 53 \/ e = d + ex - 52)
    /\ (Qabs (F2Q (Z.pos m) e - v * 2 ^ ex) <= (1 # 2) * 2 ^ (d + ex - 53))%Q
    /\ (inject_Z (2 ^ 52) * 2 ^ (d + ex - 53) <= v * 2 ^ ex)%Q.
Proof.
  intros Hmx Hd H53 Hlo Hhi Hloc.
  destruct (shr_fexp_spec mx ex lx v d Hmx Hd H53 Hlo Hloc)
    as (x & v1 & Hshr & Hm1 & L1 & Hv1).
  unfold binary_round_aux. rewrite Hshr.
  set (e1 := d + ex - 53) in *.
  rewrite (loc_of_shr_record_eta x).
  destruct (round_nearest_even_spec _ _ _ _ L1) as (Hr & Habs & Hge).
  set (m2 := round_nearest_even (shr_m x) _) in *.
  pose proof (pow2_pos e1) as P1.
  assert (Hval : (Qabs (inject_Z m2 * 2 ^ e1 - v * 2 ^ ex) <= (1 # 2) * 2 ^ e1)%Q).
  { rewrite <- Hv1. apply scale_abs; assumption. }
  assert (Hbig : (inject_Z (2 ^ 52) * 2 ^ e1 <= v * 2 ^ ex)%Q).
  { rewrite <- Hv1. apply Qmult_le_compat_r; [|lra].
    apply Qle_trans with (inject_Z (shr_m x)); [|assumption].
    rewrite <- Zle_Qle. lia. }
  destruct (Z.eq_dec m2 (2 ^ 53)) as [E|E].
  - (* the rounding carried into a 54th digit *)
    rewrite E. unfold shr_fexp.
    replace (Zdigits2 (2 ^ 53)) with 54 by reflexivity.
    rewrite fexp_normal by lia.
    replace (54 + e1 - 53 - e1) with 1 by lia.
    cbn [shr_record_of_loc shr iter_pos]. 
    change (shr_m (shr_1 (Build_shr_record (2 ^ 53) false false)))
      with (Z.pos (Z.to_pos (2 ^ 52))).
    replace (e1 + 1 <=? emax - prec) with true
      by (symmetry; apply Z.leb_le; unfold emax, prec; lia).
    exists (Z.to_pos (2 ^ 52)), (e1 + 1).
    split; [reflexivity|]. split; [cbn; lia|]. split; [right; lia|].
    split; [|assumption].
    unfold F2Q. rewrite pow2_succ. rewrite E in Hval.
    change (inject_Z (Z.pos (Z.to_pos (2 ^ 52))) * (2 ^ e1 * 2))%Q
      with (inject_Z (2 ^ 52) * (2 ^ e1 * 2))%Q.
    assert (E2 : (inject_Z (2 ^ 52) * (2 ^ e1 * 2) == inject_Z (2 ^ 53) * 2 ^ e1)%Q).
    { change (inject_Z (2 ^ 53)) with (inject_Z (2 ^ 52) * 2)%Q. ring. }
    rewrite E2. assumption.
  - assert (Hm2 : 2 ^ 52 <= m2 < 2 ^ 53) by lia.
    unfold shr_fexp.
    rewrite (Zdigits2_unique m2 53) by lia.
    rewrite fexp_normal by lia.
    replace (53 + e1 - 53 - e1) with 0 by lia.
    cbn [shr_record_of_loc shr shr_m].
    destruct m2 as [|q|q] eqn:Eq; try lia.
    replace (e1 <=? emax - prec) with true
      by (symmetry; apply Z.leb_le; unfold emax, prec; lia).
    exists q, e1.
    split; [reflexivity|]. split; [assumption|]. split; [left; reflexivity|].
    split; assumption.
Qed.



Lemma to_Q_finite (x : JS.double) (m : positive) (e : Z) :
  Prim2SF x = S754_finite false m e -> (JS.to_Q x == F2Q (Z.pos m) e)%Q.
Proof.
  intros H. unfold JS.to_Q, JS.decode. rewrite H. cbv zeta. unfold F2Q.
  destruct (0 <=? e) eqn:E; [apply Z.leb_le in E | apply Z.leb_gt in E].
  - rewrite inject_Z_mult, pow2_inject by assumption. reflexivity.
  - assert (P : 0 < 2 ^ (- e)) by (apply Z.pow_pos_nonneg; lia).
    assert (E2 : (2 ^ e == / 2 ^ (- e))%Q).
    { rewrite <- Qpower_opp. replace (- - e) with e by lia. reflexivity. }
    rewrite Qmake_Qdiv, Z2Pos.id by assumption.
    rewrite pow2_inject, E2 by lia. reflexivity.
Qed.

Lemma iter_xO (p k : positive) : Z.pos (Pos.iter xO p k) = Z.pos p * 2 ^ Z.pos k.
Proof.
  induction k as [|k IH] using Pos.peano_ind.
  - cbn [Pos.iter]. rewrite Z.pow_1_r. lia.
  - rewrite Pos.iter_succ, Pos2Z.inj_succ, Z.pow_succ_r by lia.
    rewrite Pos2Z.inj_xO, IH. lia.
Qed.

(** A rounding that has nothing to round. *)
Lemma round_exact (sx : bool) (m : positive) (e : Z) :
  Zdigits2 (Z.pos m) = 53 -> -1074 <= e <= 971 ->
  binary_round_aux prec emax sx (Z.pos m) e loc_Exact = S754_finite sx m e.
Proof.
  intros Hd He. unfold binary_round_aux, shr_fexp.
  rewrite Hd, fexp_normal by lia.
  replace (53 + e - 53 - e) with 0 by lia.
  cbn [shr_record_of_loc shr shr_m loc_of_shr_record round_nearest_even].
  rewrite Hd, fexp_normal by lia.
  replace (53 + e - 53 - e) with 0 by lia.
  cbn [shr shr_m].
  replace (e <=? emax - prec) with true
    by (symmetry; apply Z.leb_le; unfold emax, prec; lia).
  reflexivity.
Qed.

(** A positive integer below 2^53 is a double, exactly. *)
Lemma of_Z_exact (t : Z) :
  0 < t < 2 ^ 53 ->
  exists m e,
    Prim2SF (JS.of_Z t) = S754_finite false m e
    /\ Zdigits2 (Z.pos m) = 53
    /\ -52 <= e <= 0
    /\ (F2Q (Z.pos m) e == inject_Z t)%Q.
Proof.
  intros Ht. unfold JS.of_Z.
  replace (t <? 0) with false by (symmetry; apply Z.ltb_ge; lia).
  rewrite FloatAxioms.of_uint63_spec, Uint63.of_Z_spec.
  rewrite Z.mod_small by (change wB with (2 ^ 63); change (2 ^ 53) with 9007199254740992 in Ht;
                          change (2 ^ 63) with 9223372036854775808; lia).
  destruct t as [|p|p]; try lia.
  cbn [binary_normalize]. unfold binary_round.
  pose proof (digits2_pos_bounds p) as B.
  set (d := Z.pos (digits2_pos p)) in *.
  assert (Hd : 1 <= d <= 53).
  { split; [unfold d; lia|].
    destruct (Z_le_gt_dec d 53) as [L|G]; [assumption|].
    assert (2 ^ 53 <= 2 ^ (d - 1)) by (apply Z.pow_le_mono_r; lia). lia. }
  rewrite Z.add_0_r, fexp_normal by lia.
  unfold shl_align. replace (d - 53 - 0) with (d - 53) by lia.
  destruct (d - 53) as [|k|k] eqn:Ek; try lia.
  - assert (d = 53) by lia.
    exists p, 0. rewrite round_exact by (cbn [Zdigits2]; fold d; lia).
    split; [reflexivity|]. split; [cbn [Zdigits2]; fold d; assumption|].
    split; [lia|]. unfold F2Q. rewrite Qpower_0_r. ring.
  - assert (Hk : Z.pos k = 53 - d) by lia.
    assert (Hm : Z.pos (Pos.iter xO p k) = Z.pos p * 2 ^ (53 - d))
      by (rewrite iter_xO, Hk; reflexivity).
    assert (Hdig : Zdigits2 (Z.pos (Pos.iter xO p k)) = 53).
    { apply Zdigits2_unique; try lia. rewrite Hm.
      assert (E52 : 2 ^ (53 - 1) = 2 ^ (d - 1) * 2 ^ (53 - d)).
      { rewrite <- Z.pow_add_r by lia. f_equal. lia. }
      assert (E53 : 2 ^ 53 = 2 ^ d * 2 ^ (53 - d)).
      { rewrite <- Z.pow_add_r by lia. f_equal. lia. }
      assert (0 < 2 ^ (53 - d)) by (apply Z.pow_pos_nonneg; lia).
      rewrite E52, E53.
      split; [apply Z.mul_le_mono_nonneg_r | apply Z.mul_lt_mono_pos_r]; lia. }
    exists (Pos.iter xO p k), (d - 53).
    replace (Z.neg k) with (d - 53) by lia.
    rewrite round_exact by (try assumption; lia).
    split; [reflexivity|]. split; [assumption|]. split; [lia|].
    unfold F2Q. rewrite Hm, inject_Z_mult, pow2_inject by lia.
    rewrite <- Qmult_assoc, <- pow2_add.
    replace (53 - d + (d - 53)) with 0 by lia. rewrite Qpower_0_r. ring.
Qed.

Lemma thousand_decoded :
  Prim2SF (JS.of_Z 1000) = S754_finite false 8796093022208000 (-43).
Proof. reflexivity. Qed.

Lemma lit_decoded :
  Prim2SF JS.lit_0_002 = S754_finite false 4611686018427388 (-61).
Proof. reflexivity. Qed.

(** Where the quotient of a division lies. *)
Lemma division_located (a b q r : Z) :
  0 < b -> Z.even b = true -> a = b * q + r -> 0 <= r < b ->
  loc_located q (new_location b r) (inject_Z a / inject_Z b)%Q.
Proof.
  intros Hb Heven Ha Hr.
  assert (Qb : (0 < inject_Z b)%Q) by (change 0%Q with (inject_Z 0); rewrite <- Zlt_Qlt; lia).
  assert (V : (inject_Z a / inject_Z b == inject_Z q + inject_Z r / inject_Z b)%Q).
  { subst a. rewrite inject_Z_plus, inject_Z_mult. field. lra. }
  unfold loc_located, new_location. rewrite Heven. unfold new_location_even.
  destruct (Z.eqb_spec r 0) as [E|E].
  - cbn. unfold located. rewrite V, E. change (inject_Z 0) with 0%Q.
    unfold Qdiv. rewrite Qmult_0_l. ring.
  - assert (Hr0 : (0 < inject_Z r)%Q)
      by (change 0%Q with (inject_Z 0); rewrite <- Zlt_Qlt; lia).
    assert (Hrb : (inject_Z r < inject_Z b)%Q) by (rewrite <- Zlt_Qlt; lia).
    set (f := (inject_Z r / inject_Z b)%Q) in *.
    assert (F0 : (0 < f)%Q) by (unfold f; apply Qlt_shift_div_l; lra).
    assert (F1 : (f < 1)%Q) by (unfold f; apply Qlt_shift_div_r; lra).
    destruct (Z.compare_spec (2 * r) b) as [C|C|C]; cbn; unfold located.
    + assert (F : (f == 1 # 2)%Q).
      { unfold f. subst b. rewrite inject_Z_mult. change (inject_Z 2) with 2%Q.
        field. lra. }
      rewrite V, F. reflexivity.
    + assert (F : (f < 1 # 2)%Q).
      { unfold f. apply Qlt_shift_div_r; [assumption|].
        rewrite Zlt_Qlt, inject_Z_mult in C.
        change (inject_Z 2) with 2%Q in C. lra. }
      rewrite V. split; lra.
    + assert (F : (1 # 2 < f)%Q).
      { unfold f. apply Qlt_shift_div_l; [assumption|].
        rewrite Zlt_Qlt, inject_Z_mult in C.
        change (inject_Z 2) with 2%Q in C. lra. }
      rewrite V. split; lra.
Qed.

(** [t / 1000] in doubles: a double with a full mantissa within half a
    unit in the last place of the quotient. *)
Lemma div_1000_spec (t : Z) :
  0 < t < 2 ^ 53 ->
  exists m e k,
    Prim2SF (JS.div (JS.of_Z t) (JS.of_Z 1000)) = S754_finite false m e
    /\ 2 ^ 52 <= Z.pos m < 2 ^ 53
    /\ (e = k \/ e = k + 1)
    /\ -62 <= k <= -9
    /\ (Qabs (F2Q (Z.pos m) e - inject_Z t * (1 # 1000)) <= (1 # 2) * 2 ^ k)%Q
    /\ (inject_Z (2 ^ 52) * 2 ^ k <= inject_Z t * (1 # 1000))%Q.
Proof.
  intros Ht.
  destruct (of_Z_exact t Ht) as (mt & et & Hdec & Hdt & Het & Hvt).
  unfold JS.div. rewrite FloatAxioms.div_spec, Hdec, thousand_decoded.
  unfold FloatAxioms.SF64div, SFdiv, SFdiv_core_binary. cbn [xorb].
  rewrite Hdt.
  replace (Zdigits2 8796093022208000) with 53 by reflexivity.
  replace (Z.min (fexp prec emax (53 + et - (53 + -43))) (et - -43)) with (et - 10)
    by (rewrite fexp_normal by lia; lia).
  replace (et - -43 - (et - 10)) with 53 by lia.
  rewrite Z.shiftl_mul_pow2 by lia.
  set (a := Z.pos mt * 2 ^ 53).
  set (b := 8796093022208000).
  pose proof (Z_div_mod a b eq_refl) as DM.
  destruct (Z.div_eucl a b) as [q r]. destruct DM as (Ha & Hr).
  pose proof (digits_53 (Z.pos mt) ltac:(lia) Hdt) as Bt.
  assert (Hq : 2 ^ 52 <= q < 2 ^ 54).
  { unfold a, b in *.
    change (2 ^ 53) with 9007199254740992 in *.
    change (2 ^ 52) with 4503599627370496 in *.
    change (2 ^ 54) with 18014398509481984. lia. }
  pose proof (division_located a b q r eq_refl eq_refl Ha Hr) as Hloc.
  set (d := if q <? 2 ^ 53 then 53 else 54).
  assert (Hd : Zdigits2 q = d /\ 53 <= d <= 54).
  { unfold d. destruct (Z.ltb_spec q (2 ^ 53)).
    - split; [apply Zdigits2_unique|]; lia.
    - split; [apply Zdigits2_unique|]; lia. }
  destruct Hd as (Hd & Hd53).
  destruct (round_aux_spec false q (et - 10) (new_location b r) _ d
              ltac:(lia) Hd ltac:(lia) ltac:(lia) ltac:(lia) Hloc)
    as (m & e & Hres & Hm & He & Habs & Hbig).
  assert (V : (inject_Z a / inject_Z b * 2 ^ (et - 10) == inject_Z t * (1 # 1000))%Q).
  { rewrite <- Hvt. unfold F2Q, a, b.
    rewrite inject_Z_mult.
    replace (et - 10) with (et + -10) by lia. rewrite pow2_add.
    change (inject_Z (2 ^ 53)) with 9007199254740992%Q.
    change (2 ^ (-10))%Q with (1 # 1024)%Q.
    change (inject_Z 8796093022208000) with 8796093022208000%Q.
    field. }
  exists m, e, (d + et - 63).
  split; [exact Hres|]. split; [exact Hm|].
  split; [lia|]. split; [lia|].
  replace (d + (et - 10) - 53) with (d + et - 63) in * by lia.
  rewrite V in Habs, Hbig. split; assumption.
Qed.

Lemma lit_value_eq : (F2Q 4611686018427388 (-61) == lit_value)%Q.
Proof. reflexivity. Qed.

(** A product with the literal [0.002]: again a double within half a
    unit in the last place of the exact product. *)
Lemma mul_lit_spec (x : JS.double) (m : positive) (e : Z) :
  Prim2SF x = S754_finite false m e ->
  2 ^ 52 <= Z.pos m < 2 ^ 53 -> -63 <= e <= -8 ->
  exists m' e' k,
    Prim2SF (JS.mul x JS.lit_0_002) = S754_finite false m' e'
    /\ (Qabs (F2Q (Z.pos m') e' - F2Q (Z.pos m) e * lit_value) <= (1 # 2) * 2 ^ k)%Q
    /\ (inject_Z (2 ^ 52) * 2 ^ k <= F2Q (Z.pos m) e * lit_value)%Q.
Proof.
  intros Hx Hm He.
  unfold JS.mul. rewrite FloatAxioms.mul_spec, Hx, lit_decoded.
  unfold FloatAxioms.SF64mul, SFmul. cbn [xorb].
  rewrite Pos2Z.inj_mul.
  set (c := 4611686018427388) in *.
  set (mx := Z.pos m * c).
  assert (Hmx : 2 ^ 104 <= mx < 2 ^ 106).
  { unfold mx, c.
    change (2 ^ 52) with 4503599627370496 in Hm.
    change (2 ^ 53) with 9007199254740992 in Hm.
    change (2 ^ 104) with 20282409603651670423947251286016.
    change (2 ^ 106) with 81129638414606681695789005144064. lia. }
  set (d := if mx <? 2 ^ 105 then 105 else 106).
  assert (Hd : Zdigits2 mx = d /\ 105 <= d <= 106).
  { unfold d. destruct (Z.ltb_spec mx (2 ^ 105)).
    - split; [apply Zdigits2_unique|]; lia.
    - split; [apply Zdigits2_unique|]; lia. }
  destruct Hd as (Hd & Hd105).
  assert (Hloc : loc_located mx loc_Exact (inject_Z mx)).
  { unfold loc_located. cbn. unfold located. reflexivity. }
  destruct (round_aux_spec false mx (e + -61) loc_Exact _ d
              ltac:(lia) Hd ltac:(lia) ltac:(lia) ltac:(lia) Hloc)
    as (m' & e' & Hres & _ & _ & Habs & Hbig).
  assert (V : (inject_Z mx * 2 ^ (e + -61) == F2Q (Z.pos m) e * lit_value)%Q).
  { rewrite <- lit_value_eq. unfold F2Q, mx. rewrite inject_Z_mult, pow2_add.
    fold c. ring. }
  exists m', e', (d + (e + -61) - 53).
  rewrite V in Habs, Hbig.
  split; [exact Hres|]. split; assumption.
Qed.

(** The double the handler computes is within the slack of the exact
    price. *)
Lemma cost_error_bound (t : Z) :
  0 <= t < 2 ^ 53 ->
  (Qabs (JS.to_Q (costEstimate t) - exact_cost t) <= rounding_slack t)%Q.
Proof.
  intros Ht.
  destruct (Z.eq_dec t 0) as [->|Hne].
  { apply Qle_bool_iff. vm_compute. reflexivity. }
  destruct (div_1000_spec t ltac:(lia))
    as (m & e & k & Hdiv & Hm & He & Hk & Habs1 & Hbig1).
  destruct (mul_lit_spec _ m e Hdiv Hm ltac:(lia))
    as (m' & e' & k' & Hmul & Habs2 & Hbig2).
  unfold costEstimate. rewrite (to_Q_finite _ m' e' Hmul).
  unfold exact_cost, rounding_slack.
  assert (T : (0 < inject_Z t)%Q)
    by (change 0%Q with (inject_Z 0); rewrite <- Zlt_Qlt; lia).
  set (x := inject_Z t) in *.
  set (y := F2Q (Z.pos m) e) in *.
  set (z := F2Q (Z.pos m') e') in *.
  pose proof (pow2_pos k) as P. pose proof (pow2_pos k') as P'.
  set (p := (2 ^ k)%Q) in *. set (p' := (2 ^ k')%Q) in *.
  change (inject_Z (2 ^ 52)) with 4503599627370496%Q in *.
  unfold lit_value in *.
  apply Qabs_Qle_condition in Habs1. apply Qabs_Qle_condition in Habs2.
  apply Qabs_Qle_condition.
  split; lra.
Qed.

(** The estimate is a finite double, zero or positive. *)
Lemma cost_is_finite (t : Z) :
  0 <= t < 2 ^ 53 ->
  match JS.decode (costEstimate t) with
  | S754_finite false _ _ | S754_zero false => True
  | _ => False
  end.
Proof.
  intros Ht.
  destruct (Z.eq_dec t 0) as [->|Hne].
  { vm_compute. exact I. }
  destruct (div_1000_spec t ltac:(lia))
    as (m & e & k & Hdiv & Hm & He & Hk & _).
  destruct (mul_lit_spec _ m e Hdiv Hm ltac:(lia))
    as (m' & e' & k' & Hmul & _).
  unfold costEstimate, JS.decode. rewrite Hmul. exact I.
Qed.

(** C9, as amended.  The estimate is a function of the token counts alone
    (it prices their sum; neither the model nor anything else enters): it
    is the double [(total / 1000) * 0.002], a finite double that differs
    from the exact price of the total at $0.002 per 1000 tokens by at most
    the total times 10^-21 dollars.  It is additive up to that rounding:
    the exact sum of the estimates of two calls differs from the estimate
    of the combined counts by at most twice the grand total times 10^-21
    dollars.  This holds for all non-negative counts whose grand total is
    below 2^53, the range in which a JavaScript number holds every
    integer. *)
Theorem cost_estimate_additive_up_to_rounding (m : string) (p1 c1 p2 c2 : Z) :
  0 <= p1 -> 0 <= c1 -> 0 <= p2 -> 0 <= c2 ->
  p1 + c1 + p2 + c2 < 2 ^ 53 ->
  (forall m' p c, p + c = p1 + c1 -> Estimate m' p c = Estimate m p1 c1)
  /\ Estimate m p1 c1
     = JS.mul (JS.div (JS.of_Z (p1 + c1)) (JS.of_Z 1000)) JS.lit_0_002
  /\ match JS.decode (Estimate m p1 c1) with
     | S754_finite false _ _ | S754_zero false => True
     | _ => False
     end
  /\ (Qabs (JS.to_Q (Estimate m p1 c1) - exact_cost (p1 + c1))
      <= rounding_slack (p1 + c1))%Q
  /\ (Qabs (JS.to_Q (Estimate m p1 c1) + JS.to_Q (Estimate m p2 c2)
            - JS.to_Q (Estimate m (p1 + p2) (c1 + c2)))
      <= rounding_slack (2 * (p1 + c1 + p2 + c2)))%Q.
Proof.
  intros Hp1 Hc1 Hp2 Hc2 Hsum.
  split; [|split; [|split; [|split]]].
  - intros m' p c E. unfold Estimate. rewrite E. reflexivity.
  - reflexivity.
  - apply cost_is_finite. lia.
  - apply cost_error_bound. lia.
  - unfold Estimate.
    replace (p1 + p2 + (c1 + c2)) with ((p1 + c1) + (p2 + c2)) by lia.
    replace (p1 + c1 + p2 + c2) with ((p1 + c1) + (p2 + c2)) in * by lia.
    set (t1 := p1 + c1) in *. set (t2 := p2 + c2) in *.
    assert (H1 := cost_error_bound t1 ltac:(lia)).
    assert (H2 := cost_error_bound t2 ltac:(lia)).
    assert (H12 := cost_error_bound (t1 + t2) ltac:(lia)).
    apply Qabs_Qle_condition in H1, H2, H12.
    apply Qabs_Qle_condition.
    unfold exact_cost, rounding_slack in *.
    rewrite inject_Z_mult, inject_Z_plus in *.
    set (x1 := inject_Z t1) in *. set (x2 := inject_Z t2) in *.
    set (a := JS.to_Q (costEstimate t1)) in *.
    set (b := JS.to_Q (costEstimate t2)) in *.
    set (ab := JS.to_Q (costEstimate (t1 + t2))) in *.
    change (inject_Z 2) with 2%Q.
    lra.
Qed.

(** Two calls of 350 and 300 tokens: each estimate is within rounding of
    its exact price, $0.0007 and $0.0006, and their sum within rounding of
    the estimate of the 650 tokens together. *)
Lemma cost_estimate_additive_up_to_rounding_witness :
  (forall m' p c, p + c = 250 + 100 ->
                  Estimate m' p c = Estimate "gpt-3.5-turbo" 250 100)
  /\ Estimate "gpt-3.5-turbo" 250 100
     = JS.mul (JS.div (JS.of_Z (250 + 100)) (JS.of_Z 1000)) JS.lit_0_002
  /\ match JS.decode (Estimate "gpt-3.5-turbo" 250 100) with
     | S754_finite false _ _ | S754_zero false => True
     | _ => False
     end
  /\ (Qabs (JS.to_Q (Estimate "gpt-3.5-turbo" 250 100) - exact_cost (250 + 100))
      <= rounding_slack (250 + 100))%Q
  /\ (Qabs (JS.to_Q (Estimate "gpt-3.5-turbo" 250 100)
            + JS.to_Q (Estimate "gpt-3.5-turbo" 200 100)
            - JS.to_Q (Estimate "gpt-3.5-turbo" (250 + 200) (100 + 100)))
      <= rounding_slack (2 * (250 + 100 + 200 + 100)))%Q.
Proof.
  apply (cost_estimate_additive_up_to_rounding "gpt-3.5-turbo" 250 100 200 100);
    lia.
Defined.

(** C9 as stated fails: for calls of 350 and 300 tokens the two estimates
    do not add up to the estimate of the 650 tokens together, neither
    when added as doubles nor when added exactly. *)
Lemma cost_estimate_is_not_additive :
  JS.add (Estimate "gpt-3.5-turbo" 250 100) (Estimate "gpt-3.5-turbo" 200 100)
  <> Estimate "gpt-3.5-turbo" (250 + 200) (100 + 100)
  /\ ~ (JS.to_Q (Estimate "gpt-3.5-turbo" 250 100)
        + JS.to_Q (Estimate "gpt-3.5-turbo" 200 100)
        == JS.to_Q (Estimate "gpt-3.5-turbo" (250 + 200) (100 + 100)))%Q.
Proof.
  split.
  - intros H. apply (f_equal JS.decode) in H. vm_compute in H. discriminate H.
  - intros H. vm_compute in H. discriminate H.
Qed.

(** ** The quota scenario of the design, run

    A tenant at 999,999 tokens makes a call of 50 tokens: the call
    succeeds, the ledger then sums to 1,000,049, and the next call is
    rejected. *)
Example quota_overshoot_then_rejection :
  status (fst (serve Fixture.healthy (Fixture.post Fixture.chat)
                     (Fixture.store (Fixture.used 999999)))) = 200
  /\ tokens_used
       (ai_usage (snd (serve Fixture.healthy (Fixture.post Fixture.chat)
                             (Fixture.store (Fixture.used 999999)))))
       default_workspaceId Fixture.noon = 1000049
  /\ is_QuotaExceeded
       (fst (serve Fixture.healthy (Fixture.post Fixture.chat)
                   (snd (serve Fixture.healthy (Fixture.post Fixture.chat)
                               (Fixture.store (Fixture.used 999999))))))
     = true.
Proof. repeat split. Qed.

(** * Further properties of the handler *)

(** ** What a request can change *)

(** X1.  The handler only ever appends: whatever the request and the
    world, the rows both tables held are still there, unchanged and in
    place; each table gains at most one row, and none unless the response
    is a 200. *)
Theorem tables_are_append_only (w : World) (req : Request) (s : Store) :
  exists new_usage new_messages,
    ai_usage (snd (serve w req s)) = (ai_usage s ++ new_usage)%list
    /\ conversation_messages (snd (serve w req s))
       = (conversation_messages s ++ new_messages)%list
    /\ (List.length new_usage <= 1)%nat
    /\ (List.length new_messages <= 1)%nat
    /\ (status (fst (serve w req s)) <> 200 ->
        new_usage = [] /\ new_messages = []).
Proof.
  destruct (serve_run w req s)
    as [ (TA & TB & TC) Hend
       | k u b msgs s2 Hauth Hm Hk T Hinv Hcalls Hnot HA HB Hst
       | k u b msgs s2 st0 c0 Hauth Hm Hk T Hle Hf Hok Hr Hs' Hcalls HA HB HL1 HL2 ].
  - exists [], []. rewrite !app_nil_r. repeat split; auto.
  - exists [], []. rewrite !app_nil_r. repeat split; auto.
  - eexists. eexists. split; [exact HA|]. split; [exact HB|].
    split; [destruct (usage_write_error w); simpl; lia|].
    split.
    + destruct (conversation_of b); [destruct (message_write_error w)|];
        simpl; lia.
    + intros Hne. exfalso. apply Hne. rewrite Hr. reflexivity.
Qed.

(** The checks, read on the ledger: what lets an accepted request
    through. *)
Lemma passed_checks (w : World) (req : Request) (s : Store)
    (u : User) (b : RequestBody) (msgs : list Message) :
  authenticated w req u b ->
  messages b = Array msgs ->
  ~ same_tables s (snd (serve w req s)) ->
  (rate_read_error w = None ->
   request_count (ai_usage s) (uid u) (now_rate w) < 20)
  /\ (quota_read_error w = None ->
      tokens_used (ai_usage s) (tenant_of b) (now_quota w) <= 1000000).
Proof.
  intros Hauth Hm Hchanged.
  destruct (serve_accepted w req s u b msgs Hauth Hm) as (k & Hk & Hs).
  assert (Hrate : rate_read_error w = None ->
                  request_count (ai_usage s) (uid u) (now_rate w) < 20).
  { intros Hr. rewrite Hs, (governed_rate_read_ok w k u b msgs s Hr) in Hchanged.
    destruct (20 <=? request_count (ai_usage s) (uid u) (now_rate w)) eqn:Hc.
    - exfalso. apply Hchanged. simpl. apply same_tables_refl.
    - apply Z.leb_gt. assumption. }
  split; [assumption|].
  intros Hq.
  assert (Hs1 : exists s1, same_tables s s1
                           /\ serve w req s = catch (after_rate w k u b msgs s1)).
  { rewrite Hs. destruct (rate_read_error w) as [e|] eqn:Hr.
    - rewrite (governed_rate_read_failed w k u b msgs s e Hr).
      eexists. split; [apply same_tables_log | reflexivity].
    - rewrite (governed_rate_read_ok w k u b msgs s Hr).
      specialize (Hrate eq_refl). apply Z.leb_gt in Hrate. rewrite Hrate.
      exists s. split; [apply same_tables_refl | reflexivity]. }
  destruct Hs1 as (s1 & T & Hs1).
  rewrite Hs1, (after_rate_read_ok w k u b msgs s1 Hq) in Hchanged.
  destruct T as (TA & TB & TC). rewrite TA in Hchanged.
  destruct (1000000 <? tokens_used (ai_usage s) (tenant_of b) (now_quota w)) eqn:Hc.
  - exfalso. apply Hchanged. simpl. repeat split; assumption.
  - apply Z.ltb_ge. assumption.
Qed.

(** X2.  Nothing is called and nothing is written for a request the gate
    does not let through: if a request changes either table or reaches the
    provider, then its credential resolved to a user, its [messages] was an
    array, the user had fewer than 20 events in the window (when that read
    succeeded) and the tenant was not over 1,000,000 tokens (when that
    read succeeded). *)
Theorem effects_only_past_the_gate (w : World) (req : Request) (s : Store) :
  ~ same_tables s (snd (serve w req s)) ->
  exists u b msgs,
    authenticated w req u b
    /\ messages b = Array msgs
    /\ (rate_read_error w = None ->
        request_count (ai_usage s) (uid u) (now_rate w) < 20)
    /\ (quota_read_error w = None ->
        tokens_used (ai_usage s) (tenant_of b) (now_quota w) <= 1000000).
Proof.
  intros Hchanged.
  destruct (serve_run w req s)
    as [ T Hend
       | k u b msgs s2 Hauth Hm Hk T Hinv Hcalls Hnot HA HB Hst
       | k u b msgs s2 st0 c0 Hauth Hm Hk T Hle Hf Hok Hr Hs' Hcalls HA HB HL1 HL2 ].
  - contradiction.
  - exists u, b, msgs. split; [assumption|]. split; [assumption|].
    apply (passed_checks w req s u b msgs); assumption.
  - exists u, b, msgs. split; [assumption|]. split; [assumption|].
    apply (passed_checks w req s u b msgs); assumption.
Qed.

Lemma effects_only_past_the_gate_witness :
  exists u b msgs,
    authenticated Fixture.healthy (Fixture.post Fixture.chat) u b
    /\ messages b = Array msgs
    /\ (rate_read_error Fixture.healthy = None ->
        request_count (ai_usage (Fixture.store [])) (uid u)
                      (now_rate Fixture.healthy) < 20)
    /\ (quota_read_error Fixture.healthy = None ->
        tokens_used (ai_usage (Fixture.store [])) (tenant_of b)
                    (now_quota Fixture.healthy) <= 1000000).
Proof.
  apply (effects_only_past_the_gate Fixture.healthy (Fixture.post Fixture.chat)
           (Fixture.store [])).
  intros (H & _). vm_compute in H. discriminate H.
Defined.

(** X3.  A request reaches the provider at most once, and never by way of
    a retry: either no call is sent, or exactly one, for the model
    "gpt-3.5-turbo" with [max_tokens] 800, temperature 0.7 and no
    streaming, under the configured key and with the caller's messages as
    they came. *)
Theorem at_most_one_provider_call (w : World) (req : Request) (s : Store) :
  upstream_calls (snd (serve w req s)) = upstream_calls s
  \/ exists k b msgs,
       OPENAI_API_KEY w = Some k
       /\ json_body req = Some b
       /\ messages b = Array msgs
       /\ upstream_calls (snd (serve w req s))
          = (upstream_calls s
             ++ [ {| api_key := k;
                     chat_model := "gpt-3.5-turbo";
                     chat_messages := msgs;
                     max_tokens := 800;
                     temperature := 7 # 10;
                     stream := false |} ])%list.
Proof.
  destruct (serve_run w req s)
    as [ (TA & TB & TC) Hend
       | k u b msgs s2 Hauth Hm Hk T Hinv Hcalls Hnot HA HB Hst
       | k u b msgs s2 st0 c0 Hauth Hm Hk T Hle Hf Hok Hr Hs' Hcalls HA HB HL1 HL2 ].
  - left. assumption.
  - right. exists k, b, msgs. destruct Hauth as [_ _ _ Hb]. auto.
  - right. exists k, b, msgs. destruct Hauth as [_ _ _ Hb]. auto.
Qed.

(** ** Whose usage counts *)

Lemma invoke_result_ignores_store (w : World) (k : string) (msgs : list Message)
    (s1 s2 : Store) :
  fst (invoke w k msgs s1) = fst (invoke w k msgs s2).
Proof.
  unfold invoke, bind, fetch_openai, console_error, respond, throw, ret.
  destruct (fetch w (chat_request k msgs)) as [reason|st p]; [reflexivity|].
  destruct (ok st); cbn [negb].
  - destruct p; reflexivity.
  - destruct (error_details p); [|reflexivity].
    destruct (response_status_accepted st); reflexivity.
Qed.

Lemma complete_response_ignores_store (w : World) (k : string) (u : User)
    (b : RequestBody) (msgs : list Message) (tenant : string) (total : Z)
    (s1 s2 : Store) :
  fst (catch (complete w k u b msgs tenant total s1))
  = fst (catch (complete w k u b msgs tenant total s2)).
Proof.
  unfold complete, bind.
  pose proof (invoke_result_ignores_store w k msgs s1 s2) as Hi.
  destruct (invoke w k msgs s1) as [[c1|r1|e1] t1];
    destruct (invoke w k msgs s2) as [[c2|r2|e2] t2];
    simpl in Hi; try discriminate Hi; inversion Hi; subst; try reflexivity.
  pose proof (record_effect w tenant u b c2 t1) as R1.
  pose proof (record_effect w tenant u b c2 t2) as R2.
  cbv zeta in R1, R2. destruct R1 as (R1 & _). destruct R2 as (R2 & _).
  destruct (record w tenant u b c2 t1) as [x1 t1'].
  destruct (record w tenant u b c2 t2) as [x2 t2'].
  simpl in R1, R2. subst x1 x2. reflexivity.
Qed.

Lemma after_rate_response (w : World) (k : string) (u : User)
    (b : RequestBody) (msgs : list Message) (s1 s2 : Store) :
  tokens_used (ai_usage s1) (tenant_of b) (now_quota w)
  = tokens_used (ai_usage s2) (tenant_of b) (now_quota w) ->
  fst (catch (after_rate w k u b msgs s1))
  = fst (catch (after_rate w k u b msgs s2)).
Proof.
  intros Hused.
  destruct (quota_read_error w) as [e|] eqn:Hq.
  - rewrite !(after_rate_read_failed w k u b msgs _ e Hq).
    apply complete_response_ignores_store.
  - rewrite !(after_rate_read_ok w k u b msgs _ Hq), Hused.
    destruct (1000000 <? _); [reflexivity|].
    apply complete_response_ignores_store.
Qed.

(** X4.  The response to a request depends on the ledger only through
    the caller's own events in the window and the caller's tenant's tokens
    this month: two stores that agree on those two numbers give the same
    response, whatever else they hold (events of other users, of other
    workspaces, of earlier months). *)
Theorem response_depends_on_own_usage (w : World) (req : Request)
    (s1 s2 : Store) (u : User) (b : RequestBody) :
  authenticated w req u b ->
  request_count (ai_usage s1) (uid u) (now_rate w)
  = request_count (ai_usage s2) (uid u) (now_rate w) ->
  tokens_used (ai_usage s1) (tenant_of b) (now_quota w)
  = tokens_used (ai_usage s2) (tenant_of b) (now_quota w) ->
  fst (serve w req s1) = fst (serve w req s2).
Proof.
  intros Hauth Hcount Hused.
  destruct (messages b) as [| |msgs] eqn:Hm.
  - assert (Hno : forall msgs, messages b <> Array msgs) by (intros; congruence).
    unfold serve, try_block, bind.
    rewrite !(accept_malformed w req u b _ Hauth Hno).
    destruct (method req =? "OPTIONS")%string; reflexivity.
  - assert (Hno : forall msgs, messages b <> Array msgs) by (intros; congruence).
    unfold serve, try_block, bind.
    rewrite !(accept_malformed w req u b _ Hauth Hno).
    destruct (method req =? "OPTIONS")%string; reflexivity.
  - destruct (serve_accepted w req s1 u b msgs Hauth Hm) as (k & Hk & E1).
    destruct (serve_accepted w req s2 u b msgs Hauth Hm) as (k' & Hk' & E2).
    assert (k' = k) by congruence. subst k'.
    rewrite E1, E2.
    destruct (rate_read_error w) as [e|] eqn:Hr.
    + rewrite !(governed_rate_read_failed w k u b msgs _ e Hr).
      apply after_rate_response. assumption.
    + rewrite !(governed_rate_read_ok w k u b msgs _ Hr), Hcount.
      destruct (20 <=? _); [reflexivity|].
      apply after_rate_response. assumption.
Qed.

(** Five million tokens of another user in another workspace change
    nothing for alice. *)
Lemma response_depends_on_own_usage_witness :
  fst (serve Fixture.healthy (Fixture.post Fixture.chat) (Fixture.store []))
  = fst (serve Fixture.healthy (Fixture.post Fixture.chat)
               (Fixture.store [foreign_event])).
Proof.
  apply (response_depends_on_own_usage Fixture.healthy (Fixture.post Fixture.chat)
           (Fixture.store []) (Fixture.store [foreign_event])
           Fixture.alice Fixture.chat
           (fixture_authenticated None None _ None Fixture.chat));
    reflexivity.
Defined.

(** ** The ledger after a recorded call *)

Lemma request_count_app (l : list AiUsage.row) (r : AiUsage.row)
    (who : string) (now : Z) :
  request_count (l ++ [r]) who now
  = request_count l who now + (if in_window who now r then 1 else 0).
Proof.
  unfold request_count. rewrite filter_app, length_app. simpl.
  destruct (in_window who now r); simpl; lia.
Qed.

Lemma sum_tokens_app (l1 l2 : list AiUsage.row) :
  sum_tokens (l1 ++ l2) = sum_tokens l1 + sum_tokens l2.
Proof.
  induction l1 as [|r l1 IH]; simpl; [reflexivity | rewrite IH; lia].
Qed.

Lemma tokens_used_app (l : list AiUsage.row) (r : AiUsage.row)
    (tenant : string) (now : Z) :
  tokens_used (l ++ [r]) tenant now
  = tokens_used l tenant now
    + (if in_month tenant now r then AiUsage.token_count r else 0).
Proof.
  unfold tokens_used. rewrite filter_app, sum_tokens_app. simpl.
  destruct (in_month tenant now r); simpl; lia.
Qed.



(** ** Requests handled one after another *)

Lemma in_window_later (who : string) (t t' : Z) (r : AiUsage.row) :
  t <= t' -> in_window who t' r = true -> in_window who t r = true.
Proof.
  unfold in_window. intros Ht H.
  apply andb_true_iff in H. destruct H as (Hu & Hw).
  apply andb_true_iff. split; [assumption|].
  apply Z.leb_le in Hw. apply Z.leb_le. lia.
Qed.

Lemma request_count_later (l : list AiUsage.row) (who : string) (t t' : Z) :
  t <= t' -> request_count l who t' <= request_count l who t.
Proof.
  intros Ht. unfold request_count.
  induction l as [|r l IH]; cbn [filter]; [lia|].
  destruct (in_window who t' r) eqn:E'.
  - rewrite (in_window_later who t t' r Ht E'). cbn [List.length]. lia.
  - destruct (in_window who t r); cbn [List.length]; lia.
Qed.

(** What a request that adds to the ledger has been through. *)
Lemma ledger_growth (w : World) (req : Request) (s : Store) :
  ai_usage (snd (serve w req s)) = ai_usage s
  \/ exists u b k msgs st c,
       authenticated w req u b
       /\ fetch w (chat_request k msgs) = FetchResolved st (CompletionBody c)
       /\ ai_usage (snd (serve w req s))
          = (ai_usage s ++ [usage_row w (tenant_of b) u b c])%list
       /\ (rate_read_error w = None ->
           request_count (ai_usage s) (uid u) (now_rate w) < 20)
       /\ (quota_read_error w = None ->
           tokens_used (ai_usage s) (tenant_of b) (now_quota w) <= 1000000).
Proof.
  destruct (serve_run w req s)
    as [ [HA _] _
       | k u b msgs s2 _ _ _ _ _ _ _ HA _ _
       | k u b msgs s2 st c Hauth Hm _ _ _ Hf _ _ _ _ HA _ _ _ ];
    [left; congruence | left; assumption | ].
  destruct (usage_write_error w) eqn:Hw;
    [left; rewrite HA; apply app_nil_r|].
  right. exists u, b, k, msgs, st, c.
  split; [assumption|]. split; [assumption|]. split; [assumption|].
  apply (passed_checks w req s u b msgs Hauth Hm).
  intros (E & _). rewrite HA in E. symmetry in E.
  apply (not_own_extension _ _ E).
Qed.

Lemma rate_limit_step (w : World) (req : Request) (s : Store) (who : string) :
  rate_read_error w = None ->
  request_count (ai_usage s) who (now_rate w) <= 20 ->
  request_count (ai_usage (snd (serve w req s))) who (now_rate w) <= 20.
Proof.
  intros Hread Hle.
  destruct (ledger_growth w req s)
    as [E | (u & b & k & msgs & st & c & _ & _ & E & Hrate & _)];
    rewrite E; [assumption|].
  rewrite request_count_app.
  destruct (in_window who (now_rate w) _) eqn:Hin; [|lia].
  unfold in_window, usage_row in Hin. simpl in Hin.
  apply andb_true_iff in Hin. destruct Hin as (Hu & _).
  apply String.eqb_eq in Hu. rewrite <- Hu. specialize (Hrate Hread). lia.
Qed.

(** X6.  The rate limit holds over any sequence of requests, of any
    users, as long as the counting read succeeds and the clock does not
    run backwards: a user with at most twenty events in the window before
    the sequence has at most twenty in the window after it. *)
Theorem rate_limit_holds_in_sequence (calls : list (World * Request))
    (s : Store) (t : Z) (who : string) :
  (forall w req, In (w, req) calls -> rate_read_error w = None) ->
  clock_advances t calls ->
  request_count (ai_usage s) who t <= 20 ->
  request_count (ai_usage (serve_all calls s)) who (last_clock t calls) <= 20.
Proof.
  revert s t.
  induction calls as [|[w req] rest IH]; intros s t Hread Hclock Hle;
    simpl; [assumption|].
  destruct Hclock as (Ht & Hrest).
  apply IH.
  - intros w' req' Hin. apply (Hread w' req'). right. assumption.
  - assumption.
  - apply rate_limit_step.
    + apply (Hread w req). left. reflexivity.
    + pose proof (request_count_later (ai_usage s) who t (now_rate w) Ht). lia.
Qed.

(** Twenty-five requests of alice in the same instant: twenty are
    recorded. *)
Lemma rate_limit_holds_in_sequence_witness :
  request_count
    (ai_usage (serve_all (repeat (Fixture.healthy, Fixture.post Fixture.chat) 25)
                         (Fixture.store [])))
    "user-a"
    (last_clock Fixture.noon
                (repeat (Fixture.healthy, Fixture.post Fixture.chat) 25))
  <= 20.
Proof.
  apply (rate_limit_holds_in_sequence
           (repeat (Fixture.healthy, Fixture.post Fixture.chat) 25)
           (Fixture.store []) Fixture.noon "user-a").
  - intros w req Hin. apply repeat_spec in Hin. inversion Hin. reflexivity.
  - simpl. repeat split; apply Z.le_refl.
  - vm_compute. discriminate.
Defined.

Lemma in_month_same_month (tenant : string) (t t' : Z) (r : AiUsage.row) :
  Calendar.startOfMonth t' = Calendar.startOfMonth t ->
  in_month tenant t' r = in_month tenant t r.
Proof. unfold in_month. intros E. rewrite E. reflexivity. Qed.

Lemma tokens_used_same_month (l : list AiUsage.row) (tenant : string) (t t' : Z) :
  Calendar.startOfMonth t' = Calendar.startOfMonth t ->
  tokens_used l tenant t' = tokens_used l tenant t.
Proof.
  intros E. unfold tokens_used. f_equal.
  apply filter_ext. intros r. apply in_month_same_month. assumption.
Qed.

Lemma quota_step (w : World) (req : Request) (s : Store) (tenant : string)
    (largest : Z) :
  quota_read_error w = None ->
  (forall q st c, fetch w q = FetchResolved st (CompletionBody c) ->
                  total_tokens (usage c) <= largest) ->
  tokens_used (ai_usage s) tenant (now_quota w) <= 1000000 + largest ->
  tokens_used (ai_usage (snd (serve w req s))) tenant (now_quota w)
  <= 1000000 + largest.
Proof.
  intros Hread Hbound Hle.
  destruct (ledger_growth w req s)
    as [E | (u & b & k & msgs & st & c & _ & Hf & E & _ & Hquota)];
    rewrite E; [assumption|].
  rewrite tokens_used_app.
  destruct (in_month tenant (now_quota w) _) eqn:Hin; [|lia].
  unfold in_month, usage_row in Hin. simpl in Hin.
  apply andb_true_iff in Hin. destruct Hin as (Ht & _).
  apply String.eqb_eq in Ht. rewrite <- Ht.
  specialize (Hquota Hread). specialize (Hbound _ _ _ Hf).
  unfold usage_row. cbn [AiUsage.token_count]. lia.
Qed.

(** X7.  The monthly quota can be overshot, but by no more than one
    completion: over any sequence of requests handled within one calendar
    month with the quota read succeeding, a tenant whose monthly tokens
    start at or below the limit plus [largest] stays at or below the limit
    plus [largest], where [largest] bounds the tokens of every completion
    the provider returns. *)
Theorem quota_overshoot_is_bounded (calls : list (World * Request))
    (s : Store) (t : Z) (tenant : string) (largest : Z) :
  (forall w req, In (w, req) calls ->
     quota_read_error w = None
     /\ Calendar.startOfMonth (now_quota w) = Calendar.startOfMonth t
     /\ forall q st c, fetch w q = FetchResolved st (CompletionBody c) ->
                       total_tokens (usage c) <= largest) ->
  tokens_used (ai_usage s) tenant t <= 1000000 + largest ->
  tokens_used (ai_usage (serve_all calls s)) tenant t <= 1000000 + largest.
Proof.
  revert s.
  induction calls as [|[w req] rest IH]; intros s Hcalls Hle;
    cbn [serve_all]; [assumption|].
  destruct (Hcalls w req (or_introl eq_refl)) as (Hread & Hmonth & Hbound).
  apply IH.
  - intros w' req' Hin. apply (Hcalls w' req'). right. assumption.
  - rewrite <- (tokens_used_same_month _ tenant t (now_quota w) Hmonth).
    apply quota_step; try assumption.
    rewrite (tokens_used_same_month _ tenant t (now_quota w) Hmonth).
    assumption.
Qed.

(** Five requests against a tenant at 999,999 tokens: one goes through. *)
Lemma quota_overshoot_is_bounded_witness :
  tokens_used
    (ai_usage (serve_all (repeat (Fixture.healthy, Fixture.post Fixture.chat) 5)
                         (Fixture.store (Fixture.used 999999))))
    default_workspaceId Fixture.noon
  <= 1000000 + 50.
Proof.
  apply (quota_overshoot_is_bounded
           (repeat (Fixture.healthy, Fixture.post Fixture.chat) 5)
           (Fixture.store (Fixture.used 999999)) Fixture.noon
           default_workspaceId 50).
  - intros w req Hin. apply repeat_spec in Hin. inversion Hin.
    split; [reflexivity|]. split; [reflexivity|].
    intros q st c Hf. simpl in Hf. inversion Hf. vm_compute. discriminate.
  - vm_compute. discriminate.
Defined.


(** ** The shape of every response *)

Lemma complete_status (w : World) (k : string) (u : User) (b : RequestBody)
    (msgs : list Message) (tenant : string) (total : Z) (s : Store) :
  status_tells_error (fst (catch (complete w k u b msgs tenant total s))).
Proof.
  unfold complete, bind.
  destruct (invoke w k msgs s) as [[c|r|e] s3] eqn:Hi.
  - pose proof (record_effect w tenant u b c s3) as R. cbv zeta in R.
    destruct R as (Rx & _).
    destruct (record w tenant u b c s3) as [x s4]. simpl in Rx. subst x.
    simpl. split; reflexivity.
  - simpl. revert Hi.
    unfold invoke, bind, fetch_openai, console_error, respond, throw, ret.
    destruct (fetch w (chat_request k msgs)) as [reason|st p]; [discriminate|].
    destruct (ok st) eqn:Hok; cbn [negb].
    + destruct p; discriminate.
    + destruct (error_details p) as [d|]; [|discriminate].
      destruct (response_status_accepted st) eqn:Hacc; [|discriminate].
      intros E. inversion E. unfold status_tells_error. simpl. rewrite Hok.
      split; [|discriminate].
      unfold ok in Hok. unfold response_status_accepted in Hacc.
      apply andb_true_iff in Hacc. destruct Hacc as (Hacc & _).
      apply andb_true_iff in Hacc. destruct Hacc as (Hlo & Hhi).
      apply Z.leb_le in Hlo. apply Z.leb_le in Hhi.
      apply andb_false_iff in Hok. destruct Hok as [Hok|Hok];
        apply Z.leb_gt in Hok; lia.
  - simpl. split; [vm_compute; split; discriminate | discriminate].
Qed.

Lemma after_rate_status (w : World) (k : string) (u : User) (b : RequestBody)
    (msgs : list Message) (s : Store) :
  status_tells_error (fst (catch (after_rate w k u b msgs s))).
Proof.
  destruct (quota_read_error w) as [e|] eqn:Hq.
  - rewrite (after_rate_read_failed w k u b msgs s e Hq). apply complete_status.
  - rewrite (after_rate_read_ok w k u b msgs s Hq).
    destruct (1000000 <? _); [|apply complete_status].
    split; [vm_compute; split; discriminate | discriminate].
Qed.

(** X8.  The status of a response tells whether it is an error: every
    response of the handler either has status 200 and no [error] in its
    body, or has a status in 300..599 (never another 2xx) and an [error]
    string in its body. *)
Theorem status_and_error_agree (w : World) (req : Request) (s : Store) :
  status_tells_error (fst (serve w req s)).
Proof.
  unfold serve.
  destruct (method req =? "OPTIONS")%string; [split; reflexivity|].
  unfold try_block, bind.
  destruct (accept w req s) as [[[[[k u] b] msgs]|r|e] s1] eqn:Ha.
  - destruct (rate_read_error w) as [e|] eqn:Hr.
    + rewrite (governed_rate_read_failed w k u b msgs s1 e Hr).
      apply after_rate_status.
    + rewrite (governed_rate_read_ok w k u b msgs s1 Hr).
      destruct (20 <=? _); [|apply after_rate_status].
      split; [vm_compute; split; discriminate | discriminate].
  - destruct (accept_return_form w req s s1 r Ha) as [E|[E|E]]; subst r;
      (split; [vm_compute; split; discriminate | discriminate]).
  - split; [vm_compute; split; discriminate | discriminate].
Qed.

Lemma complete_json (w : World) (k : string) (u : User) (b : RequestBody)
    (msgs : list Message) (tenant : string) (total : Z) (s : Store) :
  exists st j, fst (catch (complete w k u b msgs tenant total s)) = json_response st j.
Proof.
  destruct (complete_forms w k u b msgs tenant total s) as [st d|e|m t c tot];
    eexists; eexists; reflexivity.
Qed.

Lemma after_rate_json (w : World) (k : string) (u : User) (b : RequestBody)
    (msgs : list Message) (s : Store) :
  exists st j, fst (catch (after_rate w k u b msgs s)) = json_response st j.
Proof.
  destruct (quota_read_error w) as [e|] eqn:Hq.
  - rewrite (after_rate_read_failed w k u b msgs s e Hq). apply complete_json.
  - rewrite (after_rate_read_ok w k u b msgs s Hq).
    destruct (1000000 <? _); [|apply complete_json].
    eexists; eexists; reflexivity.
Qed.

Lemma try_block_json (w : World) (req : Request) (s : Store) :
  exists st j, fst (catch (try_block w req s)) = json_response st j.
Proof.
  unfold try_block, bind.
  destruct (accept w req s) as [[[[[k u] b] msgs]|r|e] s1] eqn:Ha.
  - destruct (rate_read_error w) as [e|] eqn:Hr.
    + rewrite (governed_rate_read_failed w k u b msgs s1 e Hr).
      apply after_rate_json.
    + rewrite (governed_rate_read_ok w k u b msgs s1 Hr).
      destruct (20 <=? _); [|apply after_rate_json].
      eexists; eexists; reflexivity.
  - destruct (accept_return_form w req s s1 r Ha) as [E|[E|E]]; subst r;
      eexists; eexists; reflexivity.
  - eexists; eexists; reflexivity.
Qed.

(** X9.  Every response carries the CORS headers, so that a browser lets
    the page read it, errors included.  The preflight answer has status
    200, the text [ok], and the CORS headers followed by the content type
    the runtime gives a string body; every other response has the CORS
    headers followed by the JSON content type, and a JSON body. *)
Theorem cors_headers_on_every_response (w : World) (req : Request) (s : Store) :
  (forall h, In h corsHeaders -> In h (headers (fst (serve w req s))))
  /\ ((method req = "OPTIONS"
       /\ status (fst (serve w req s)) = 200
       /\ headers (fst (serve w req s))
          = (corsHeaders ++ [("Content-Type", "text/plain;charset=UTF-8")])%list
       /\ body (fst (serve w req s)) = Text "ok")
      \/ (method req <> "OPTIONS"
          /\ headers (fst (serve w req s))
             = (corsHeaders ++ [("Content-Type", "application/json")])%list
          /\ exists j, body (fst (serve w req s)) = Json j)).
Proof.
  assert (Hshape :
    (method req = "OPTIONS"
     /\ status (fst (serve w req s)) = 200
     /\ headers (fst (serve w req s))
        = (corsHeaders ++ [("Content-Type", "text/plain;charset=UTF-8")])%list
     /\ body (fst (serve w req s)) = Text "ok")
    \/ (method req <> "OPTIONS"
        /\ headers (fst (serve w req s))
           = (corsHeaders ++ [("Content-Type", "application/json")])%list
        /\ exists j, body (fst (serve w req s)) = Json j)).
  { unfold serve.
    destruct (method req =? "OPTIONS")%string eqn:Hm.
    - left. apply String.eqb_eq in Hm. repeat split. assumption.
    - right. apply String.eqb_neq in Hm. split; [assumption|].
      destruct (try_block_json w req s) as (st & j & E). rewrite E.
      split; [reflexivity|]. exists j. reflexivity. }
  split; [|exact Hshape].
  intros h Hh.
  destruct Hshape as [(_ & _ & E & _)|(_ & E & _)]; rewrite E;
    apply in_or_app; left; assumption.
Qed.

(** ** The order of the gate *)

(** X10.  Without an API key in the environment nothing is served: every
    request that is not a preflight gets 500 with the message [OpenAI API
    key not configured], whatever its credential and body, the failure is
    written to the console and nothing else changes. *)
Theorem missing_key_fails_every_request (w : World) (req : Request) (s : Store) :
  method req <> "OPTIONS" ->
  (forall k, OPENAI_API_KEY w = Some k -> JS.truthy k = false) ->
  serve w req s
  = (internal_error_response "OpenAI API key not configured",
     log_entry "Edge function error:" "OpenAI API key not configured" s).
Proof.
  intros Hm Hk. unfold serve. apply String.eqb_neq in Hm. rewrite Hm.
  unfold try_block, accept, bind, throw.
  destruct (OPENAI_API_KEY w) as [k|] eqn:E; [|reflexivity].
  rewrite (Hk k eq_refl). reflexivity.
Qed.

(** An empty key counts as none, also for alice's well-formed request. *)
Lemma missing_key_fails_every_request_witness :
  serve (with_key (Some "") Fixture.healthy) (Fixture.post Fixture.chat)
        (Fixture.store [])
  = (internal_error_response "OpenAI API key not configured",
     log_entry "Edge function error:" "OpenAI API key not configured"
               (Fixture.store [])).
Proof.
  apply (missing_key_fails_every_request (with_key (Some "") Fixture.healthy)
           (Fixture.post Fixture.chat) (Fixture.store [])).
  - discriminate.
  - intros k E. inversion E. reflexivity.
Defined.

(** X11.  No credential, no service: when the key is configured and the
    request has no [Authorization] header, an empty one, or one whose
    token the auth service does not resolve to a user, the answer is 401
    and the store is left exactly as it was (nothing is read, logged or
    sent), whatever the body of the request, parsable or not. *)
Theorem unauthenticated_gets_401 (w : World) (req : Request) (s : Store) :
  method req <> "OPTIONS" ->
  (exists k, OPENAI_API_KEY w = Some k /\ JS.truthy k = true) ->
  (forall h u, authorization req = Some h -> JS.truthy h = true ->
               auth_getUser w (JS.replace "Bearer " "" h) <> AuthUser u) ->
  status (fst (serve w req s)) = 401
  /\ snd (serve w req s) = s
  /\ (error_of (fst (serve w req s)) = Some "Missing authorization header"
      \/ error_of (fst (serve w req s)) = Some "Invalid authorization token").
Proof.
  intros Hm (k & Hk & Hkt) Hno. unfold serve.
  apply String.eqb_neq in Hm. rewrite Hm.
  unfold try_block, accept, bind, ret, respond.
  rewrite Hk, Hkt.
  destruct (authorization req) as [h|] eqn:Hh; [|simpl; auto].
  destruct (JS.truthy h) eqn:Hht; [|simpl; auto].
  destruct (auth_getUser w (JS.replace "Bearer " "" h)) as [u| |e] eqn:Hu;
    [|simpl; auto..].
  exfalso. apply (Hno h u eq_refl Hht Hu).
Qed.

(** A stranger's token with a body that does not parse: 401, not 500. *)
Lemma unauthenticated_gets_401_witness :
  status (fst (serve Fixture.healthy (unparsable (Some "Bearer token-x"))
                     (Fixture.store []))) = 401
  /\ snd (serve Fixture.healthy (unparsable (Some "Bearer token-x"))
                (Fixture.store []))
     = Fixture.store []
  /\ (error_of (fst (serve Fixture.healthy (unparsable (Some "Bearer token-x"))
                           (Fixture.store [])))
      = Some "Missing authorization header"
      \/ error_of (fst (serve Fixture.healthy (unparsable (Some "Bearer token-x"))
                              (Fixture.store [])))
         = Some "Invalid authorization token").
Proof.
  apply (unauthenticated_gets_401 Fixture.healthy
           (unparsable (Some "Bearer token-x")) (Fixture.store [])).
  - discriminate.
  - exists "sk-test". split; reflexivity.
  - intros h u E _. inversion E. vm_compute. discriminate.
Defined.

(** ** The credential, from the caller to the handler *)

Lemma prefix_app (p t : string) : String.prefix p (p ++ t) = true.
Proof.
  induction p as [|c p IH]; simpl; [destruct t; reflexivity|].
  destruct (ascii_dec c c); [assumption | congruence].
Qed.

Lemma drop_app (p t : string) : JS.drop (String.length p) (p ++ t) = t.
Proof. induction p as [|c p IH]; simpl; [reflexivity | assumption]. Qed.

Lemma replace_unfold (pat rep x : string) :
  JS.replace pat rep x
  = if String.prefix pat x then rep ++ JS.drop (String.length pat) x
    else match x with
         | EmptyString => EmptyString
         | String c rest => String c (JS.replace pat rep rest)
         end.
Proof. destruct x; reflexivity. Qed.

Lemma trim_end_bearer (x : string) :
  trim_end ("Bearer " ++ x)
  = match trim_end x with
    | EmptyString => "Bearer"
    | kept => "Bearer " ++ kept
    end.
Proof. simpl. destruct (trim_end x); reflexivity. Qed.

(** X12.  What the handler recovers from the header the client helper
    builds, once the header has travelled: the session's access token
    without its trailing whitespace, and the bare word [Bearer] when
    nothing is left of the token (the space after the scheme is then
    trimmed away with it).  So a token that is not empty and does not
    end in whitespace, as every JWT, comes back as it was, even one that
    contains the text [Bearer ] itself. *)
Theorem bearer_round_trip (access_token h : string) :
  header_value (authorization_header access_token) = Some h ->
  JS.replace "Bearer " "" h
  = match trim_end access_token with
    | EmptyString => "Bearer"
    | kept => kept
    end
  /\ (access_token <> "" -> trim_end access_token = access_token ->
      h = authorization_header access_token
      /\ JS.replace "Bearer " "" h = access_token).
Proof.
  unfold header_value, authorization_header.
  change (trim_start ("Bearer " ++ access_token))
    with ("Bearer " ++ access_token).
  rewrite trim_end_bearer. cbv zeta.
  destruct (header_bytes_allowed _); [|discriminate].
  intros E. inversion E. clear E.
  assert (R : forall kept,
            JS.replace "Bearer " "" ("Bearer " ++ kept) = kept).
  { intros kept. rewrite replace_unfold, prefix_app, drop_app. reflexivity. }
  destruct (trim_end access_token) as [|c kept] eqn:Et.
  - split; [reflexivity|].
    intros Hne Hsame. congruence.
  - split; [apply R|].
    intros _ Hsame. rewrite <- Hsame. split; [reflexivity | apply R].
Qed.

(** The token of the example requests, and a token that is empty. *)
Lemma bearer_round_trip_witness :
  (JS.replace "Bearer " "" "Bearer token-a" = "token-a"
   /\ ("token-a" <> "" -> trim_end "token-a" = "token-a" ->
       "Bearer token-a" = authorization_header "token-a"
       /\ JS.replace "Bearer " "" "Bearer token-a" = "token-a"))
  /\ JS.replace "Bearer " "" "Bearer" = "Bearer".
Proof.
  split.
  - apply (bearer_round_trip "token-a" "Bearer token-a"). reflexivity.
  - apply (proj1 (bearer_round_trip "" "Bearer" eq_refl)).
Defined.

Lemma spaceless_tail (c : ascii) (x : string) :
  spaceless (String c x) = true -> spaceless x = true.
Proof. simpl. intros H. apply andb_true_iff in H. apply H. Qed.

Lemma spaceless_no_bearer (x : string) :
  spaceless x = true -> String.prefix "Bearer " x = false.
Proof.
  intros H.
  destruct x as [|c1 [|c2 [|c3 [|c4 [|c5 [|c6 [|c7 x]]]]]]]; try reflexivity;
    cbn [String.prefix];
    repeat match goal with
           | |- context [ascii_dec ?a ?b] => destruct (ascii_dec a b); [subst|]
           end; try reflexivity.
  do 6 apply spaceless_tail in H. simpl in H. discriminate H.
Qed.

(** X13.  The scheme is not required: a header that holds a bare token
    (no space in it, as in a JWT) is passed to the auth service unchanged,
    so it authenticates exactly as the same token sent with [Bearer ]. *)
Theorem bare_token_is_accepted (token : string) :
  spaceless token = true ->
  JS.replace "Bearer " "" token
  = JS.replace "Bearer " "" (authorization_header token).
Proof.
  intros H.
  transitivity token.
  - induction token as [|c t IH]; [reflexivity|].
    rewrite replace_unfold, (spaceless_no_bearer _ H).
    rewrite (IH (spaceless_tail c t H)). reflexivity.
  - unfold authorization_header.
    rewrite (replace_unfold _ _ ("Bearer " ++ token)), prefix_app, drop_app.
    reflexivity.
Qed.

Lemma bare_token_is_accepted_witness :
  JS.replace "Bearer " "" "token-a"
  = JS.replace "Bearer " "" (authorization_header "token-a").
Proof. apply (bare_token_is_accepted "token-a"). reflexivity. Defined.

(** ** The calendar *)

Lemma day_of_month_range (d : Z) : 1 <= Calendar.day_of_month d <= 31.
Proof.
  unfold Calendar.day_of_month. cbv zeta.
  set (doy := _ - (365 * _ + _ - _)).
  generalize doy. clear doy. intros doy.
  pose proof (Z.div_mod (5 * doy + 2) 153 ltac:(lia)) as E1.
  pose proof (Z.mod_pos_bound (5 * doy + 2) 153 ltac:(lia)) as B1.
  set (mp := (5 * doy + 2) / 153) in *.
  pose proof (Z.div_mod (153 * mp + 2) 5 ltac:(lia)) as E2.
  pose proof (Z.mod_pos_bound (153 * mp + 2) 5 ltac:(lia)) as B2.
  lia.
Qed.

Lemma day_of_month_pieces (d : Z) :
  Calendar.day_of_month d
  = Era.doy_of (Era.doe_of d)
    - Era.month_offset (Era.mp_of (Era.doy_of (Era.doe_of d))) + 1.
Proof. reflexivity. Qed.

Lemma civil_from_days_pieces (d : Z) :
  Pg.civil_from_days d
  = (Era.year_number (Era.era_of d) (Era.yoe_of (Era.doe_of d))
                     (Era.mp_of (Era.doy_of (Era.doe_of d))),
     Era.month_number (Era.mp_of (Era.doy_of (Era.doe_of d))),
     Calendar.day_of_month d).
Proof. reflexivity. Qed.

Lemma doe_of_range (d : Z) :
  0 <= Era.doe_of d < 146097
  /\ d + 719468 = Era.era_of d * 146097 + Era.doe_of d.
Proof.
  unfold Era.doe_of, Era.era_of. cbv zeta.
  pose proof (Z.div_mod (d + 719468) 146097 ltac:(lia)) as E.
  pose proof (Z.mod_pos_bound (d + 719468) 146097 ltac:(lia)) as B.
  lia.
Qed.

Lemma year_of_day (doe : Z) :
  0 <= doe < 146097 ->
  0 <= Era.yoe_of doe <= 399
  /\ 0 <= Era.doy_of doe < Era.year_length (Era.yoe_of doe).
Proof.
  intros H. unfold Era.doy_of, Era.year_length.
  destruct (Era.yoe_of doe =? 399) eqn:E;
    [apply Z.eqb_eq in E | apply Z.eqb_neq in E];
    revert E; unfold Era.yoe_of, Era.year_start; intros E;
    Z.div_mod_to_equations; lia.
Qed.

Lemma day_of_year (yoe doy : Z) :
  0 <= yoe <= 399 -> 0 <= doy < Era.year_length yoe ->
  0 <= Era.year_start yoe + doy < 146097
  /\ Era.yoe_of (Era.year_start yoe + doy) = yoe.
Proof.
  intros Hy. unfold Era.year_length.
  destruct (yoe =? 399) eqn:E;
    [apply Z.eqb_eq in E | apply Z.eqb_neq in E];
    unfold Era.yoe_of, Era.year_start; intros Hd;
    Z.div_mod_to_equations; lia.
Qed.

Lemma year_length_values (yoe : Z) :
  0 <= yoe <= 399 -> Era.year_length yoe = 365 \/ Era.year_length yoe = 366.
Proof.
  intros H. unfold Era.year_length, Era.year_start.
  destruct (yoe =? 399); [auto|]. Z.div_mod_to_equations. lia.
Qed.

Lemma month_of_day (doy : Z) :
  0 <= doy <= 365 ->
  0 <= Era.mp_of doy <= 11
  /\ Era.month_offset (Era.mp_of doy) <= doy
  /\ (Era.mp_of doy <> 11 -> doy < Era.month_offset (Era.mp_of doy + 1)).
Proof.
  intros H. unfold Era.mp_of, Era.month_offset.
  Z.div_mod_to_equations. lia.
Qed.

Lemma day_of_month_of (mp doy : Z) :
  0 <= mp <= 11 ->
  Era.month_offset mp <= doy ->
  (doy < Era.month_offset (mp + 1) \/ mp = 11 /\ doy <= 365) ->
  Era.mp_of doy = mp.
Proof.
  intros H1 H2 H3. revert H2 H3. unfold Era.mp_of, Era.month_offset.
  intros H2 H3. Z.div_mod_to_equations. lia.
Qed.

Lemma month_offset_values (mp : Z) :
  0 <= mp <= 11 ->
  0 <= Era.month_offset mp <= 337
  /\ (mp = 11 -> Era.month_offset mp = 337)
  /\ (mp <> 11 -> 30 <= Era.month_offset (mp + 1) - Era.month_offset mp <= 31).
Proof.
  intros H. unfold Era.month_offset. Z.div_mod_to_equations. lia.
Qed.

Lemma month_length_range (yoe mp : Z) :
  0 <= yoe <= 399 -> 0 <= mp <= 11 ->
  28 <= Era.month_length yoe mp <= 31.
Proof.
  intros Hy Hm. unfold Era.month_length.
  pose proof (year_length_values yoe Hy).
  pose proof (month_offset_values mp Hm) as (_ & _ & H3).
  destruct (mp =? 11) eqn:E; [lia|]. apply Z.eqb_neq in E. lia.
Qed.

(** Where a day lies: in which month of which year of which era, and on
    which day of that month. *)
Lemma position_of_day (d : Z) :
  let e := Era.era_of d in
  let yoe := Era.yoe_of (Era.doe_of d) in
  let mp := Era.mp_of (Era.doy_of (Era.doe_of d)) in
  0 <= yoe <= 399 /\ 0 <= mp <= 11
  /\ d = Era.month_start e yoe mp + (Calendar.day_of_month d - 1)
  /\ 1 <= Calendar.day_of_month d <= Era.month_length yoe mp.
Proof.
  cbv zeta. rewrite day_of_month_pieces.
  destruct (doe_of_range d) as (Hdoe & Hd).
  destruct (year_of_day _ Hdoe) as (Hy & Hdoy).
  pose proof (year_length_values _ Hy) as Hlen.
  destruct (month_of_day (Era.doy_of (Era.doe_of d)) ltac:(lia))
    as (Hm & Hlo & Hhi).
  pose proof (month_offset_values _ Hm) as (_ & H337 & _).
  split; [assumption|]. split; [assumption|].
  unfold Era.month_start, Era.month_length.
  unfold Era.doy_of in *.
  set (yoe := Era.yoe_of (Era.doe_of d)) in *.
  set (mp := Era.mp_of (Era.doe_of d - Era.year_start yoe)) in *.
  split; [lia|].
  destruct (mp =? 11) eqn:E; [apply Z.eqb_eq in E | apply Z.eqb_neq in E]; lia.
Qed.

(** The day [j] of a month, back to its position. *)
Lemma day_of_position (e yoe mp j : Z) :
  0 <= yoe <= 399 -> 0 <= mp <= 11 ->
  1 <= j <= Era.month_length yoe mp ->
  let d := Era.month_start e yoe mp + (j - 1) in
  Era.era_of d = e
  /\ Era.yoe_of (Era.doe_of d) = yoe
  /\ Era.mp_of (Era.doy_of (Era.doe_of d)) = mp
  /\ Calendar.day_of_month d = j.
Proof.
  intros Hy Hm Hj. cbv zeta.
  pose proof (year_length_values yoe Hy) as Hlen.
  pose proof (month_offset_values mp Hm) as (Hoff & H337 & Hnext).
  set (doy := Era.month_offset mp + (j - 1)).
  assert (Hdoy : 0 <= doy < Era.year_length yoe).
  { unfold doy. unfold Era.month_length in Hj.
    destruct (mp =? 11) eqn:E; [apply Z.eqb_eq in E | apply Z.eqb_neq in E].
    - lia.
    - assert (Era.month_offset (mp + 1) <= 337).
      { clear - Hm E. unfold Era.month_offset. Z.div_mod_to_equations. lia. }
      lia. }
  destruct (day_of_year yoe doy Hy Hdoy) as (Hdoe & Hyoe).
  set (d := Era.month_start e yoe mp + (j - 1)).
  assert (Hz : d + 719468 = e * 146097 + (Era.year_start yoe + doy)).
  { unfold d, Era.month_start, doy. lia. }
  assert (He : Era.era_of d = e).
  { unfold Era.era_of. rewrite Hz. symmetry.
    apply Z.div_unique with (r := Era.year_start yoe + doy); lia. }
  assert (Hdoe_d : Era.doe_of d = Era.year_start yoe + doy).
  { unfold Era.doe_of. cbv zeta. fold (Era.era_of d). rewrite He. lia. }
  assert (Hdoy_d : Era.doy_of (Era.doe_of d) = doy).
  { unfold Era.doy_of. rewrite Hdoe_d, Hyoe. lia. }
  assert (Hmp : Era.mp_of doy = mp).
  { apply day_of_month_of; [assumption | unfold doy; lia |].
    unfold doy. unfold Era.month_length in Hj.
    destruct (mp =? 11) eqn:E; [apply Z.eqb_eq in E | apply Z.eqb_neq in E].
    - right. split; [assumption | lia].
    - left. lia. }
  split; [assumption|]. split; [rewrite Hdoe_d; assumption|].
  split; [rewrite Hdoy_d; assumption|].
  rewrite day_of_month_pieces, Hdoy_d, Hmp. unfold doy. lia.
Qed.

Lemma day_follows_always (d : Z) :
  Calendar.day_of_month d = 1
  \/ Calendar.day_of_month (d - 1) = Calendar.day_of_month d - 1.
Proof.
  destruct (position_of_day d) as (Hy & Hm & Hd & Hj).
  destruct (Z.eq_dec (Calendar.day_of_month d) 1) as [E|E]; [left; assumption|].
  right.
  destruct (day_of_position (Era.era_of d) _ _ (Calendar.day_of_month d - 1)
              Hy Hm ltac:(lia)) as (_ & _ & _ & H).
  rewrite <- H at 1. f_equal. lia.
Qed.

(** Going back [j] days within the month lowers the day of the month by [j]. *)
Lemma day_of_month_back (d j : Z) :
  0 <= j < Calendar.day_of_month d ->
  Calendar.day_of_month (d - j) = Calendar.day_of_month d - j.
Proof.
  intros (Hj & Hlt).
  assert (H : forall n : nat,
             Z.of_nat n < Calendar.day_of_month d ->
             Calendar.day_of_month (d - Z.of_nat n)
             = Calendar.day_of_month d - Z.of_nat n).
  { induction n as [|n IH]; intros Hn.
    - simpl. rewrite !Z.sub_0_r. reflexivity.
    - specialize (IH ltac:(lia)).
      destruct (day_follows_always (d - Z.of_nat n)) as [H1|H1]; [lia|].
      replace (d - Z.of_nat (S n)) with (d - Z.of_nat n - 1) by lia. lia. }
  specialize (H (Z.to_nat j)). rewrite Z2Nat.id in H by assumption.
  apply H. assumption.
Qed.

Lemma startOfMonth_days (t : Z) :
  Calendar.startOfMonth t / Calendar.ms_per_day
  = t / Calendar.ms_per_day - (Calendar.day_of_month (t / Calendar.ms_per_day) - 1).
Proof.
  unfold Calendar.startOfMonth. cbv zeta.
  apply Z.div_mul. unfold Calendar.ms_per_day. lia.
Qed.

Lemma startOfMonth_le (t : Z) :
  Calendar.startOfMonth t <= t < Calendar.startOfMonth t + 31 * Calendar.ms_per_day.
Proof.
  pose proof (day_of_month_range (t / Calendar.ms_per_day)) as R.
  unfold Calendar.startOfMonth. cbv zeta.
  unfold Calendar.ms_per_day in *.
  pose proof (Z.div_mod t 86400000 ltac:(lia)) as E.
  pose proof (Z.mod_pos_bound t 86400000 ltac:(lia)) as B.
  lia.
Qed.

Lemma startOfMonth_stable (t t' : Z) :
  Calendar.startOfMonth t <= t' <= t ->
  Calendar.startOfMonth t' = Calendar.startOfMonth t.
Proof.
  intros (Hlo & Hhi).
  set (d := t / Calendar.ms_per_day). set (d' := t' / Calendar.ms_per_day).
  assert (Hd' : d - (Calendar.day_of_month d - 1) <= d' <= d).
  { pose proof (startOfMonth_days t) as S. fold d in S. rewrite <- S.
    split; apply Z.div_le_mono; unfold Calendar.ms_per_day; lia. }
  pose proof (day_of_month_back d (d - d') ltac:(lia)) as Hb.
  replace (d - (d - d')) with d' in Hb by lia.
  unfold Calendar.startOfMonth. cbv zeta. fold d d'. rewrite Hb.
  f_equal. lia.
Qed.

(** X14.  The month the quota is counted over always contains the moment
    of the check, is never longer than 31 days, and does not move within
    the month: the start of the month computed at any instant between a
    month's start and now is the same start. *)
Theorem quota_window_is_the_current_month (t : Z) :
  Calendar.startOfMonth t <= t < Calendar.startOfMonth t + 31 * Calendar.ms_per_day
  /\ forall t', Calendar.startOfMonth t <= t' <= t ->
                Calendar.startOfMonth t' = Calendar.startOfMonth t.
Proof.
  split; [apply startOfMonth_le | apply startOfMonth_stable].
Qed.

(** ** The database's calendar and the handler's *)

(** 2026-11-01T12:00Z; 2024-02-29T23:59:59Z; 2025-01-31 plus a month is
    2025-02-28; 2024-12-31 plus a month is 2025-01-31. *)
Example database_calendar_examples :
  Pg.civil_from_days 20758 = (2026, 11, 1)
  /\ Pg.civil_from_days (-1) = (1969, 12, 31)
  /\ Pg.days_from_civil 2000 2 29 = 11016
  /\ Pg.date_trunc_month 1709251199000 = 1706745600000
  /\ Pg.plus_one_month 1738281600000 = 1740700800000
  /\ Pg.plus_one_month 1735603200123 = 1738281600123
  /\ Pg.date_trunc_month (Pg.plus_one_month 1793534400000) = 1796083200000.
Proof. repeat split. Qed.

Lemma days_from_civil_position (e yoe mp j : Z) :
  0 <= yoe <= 399 -> 0 <= mp <= 11 ->
  Pg.days_from_civil (Era.year_number e yoe mp) (Era.month_number mp) j
  = Era.month_start e yoe mp + (j - 1).
Proof.
  intros Hy Hm.
  unfold Pg.days_from_civil, Era.year_number, Era.month_number, Era.month_start,
    Era.year_start, Era.month_offset. cbv zeta.
  assert (Hq : (yoe + e * 400) / 400 = e).
  { symmetry. apply Z.div_unique with (r := yoe); lia. }
  destruct (mp <? 10) eqn:E; [apply Z.ltb_lt in E | apply Z.ltb_ge in E].
  - replace (mp + 3 <=? 2) with false by (symmetry; apply Z.leb_gt; lia).
    replace (2 <? mp + 3) with true by (symmetry; apply Z.ltb_lt; lia).
    rewrite Hq. replace (mp + 3 - 3) with mp by lia.
    replace (yoe + e * 400 - e * 400) with yoe by lia. lia.
  - replace (mp - 9 <=? 2) with true by (symmetry; apply Z.leb_le; lia).
    replace (2 <? mp - 9) with false by (symmetry; apply Z.ltb_ge; lia).
    replace (yoe + e * 400 + 1 - 1) with (yoe + e * 400) by lia.
    rewrite Hq. replace (mp - 9 + 9) with mp by lia.
    replace (yoe + e * 400 - e * 400) with yoe by lia. lia.
Qed.

(** The first of the month, as the database finds it through the civil
    date, is the day the handler's calendar goes back to. *)
Lemma first_of_month_position (d : Z) :
  Pg.first_of_month d
  = Era.month_start (Era.era_of d) (Era.yoe_of (Era.doe_of d))
                    (Era.mp_of (Era.doy_of (Era.doe_of d))).
Proof.
  destruct (position_of_day d) as (Hy & Hm & _ & _).
  unfold Pg.first_of_month. rewrite civil_from_days_pieces.
  rewrite days_from_civil_position by assumption. lia.
Qed.

Lemma first_of_month_is_first (d : Z) :
  Pg.first_of_month d = d - (Calendar.day_of_month d - 1).
Proof.
  destruct (position_of_day d) as (_ & _ & Hd & _).
  rewrite first_of_month_position. lia.
Qed.

Lemma isleap_year_length (e yoe : Z) :
  0 <= yoe <= 399 ->
  Era.year_length yoe = if Pg.isleap (yoe + e * 400 + 1) then 366 else 365.
Proof.
  intros Hy. unfold Pg.isleap, Era.year_length, Era.year_start.
  destruct (Z.eqb_spec yoe 399);
    destruct (Z.eqb_spec ((yoe + e * 400 + 1) mod 4) 0);
    destruct (Z.eqb_spec ((yoe + e * 400 + 1) mod 100) 0);
    destruct (Z.eqb_spec ((yoe + e * 400 + 1) mod 400) 0);
    cbn [andb orb negb]; Z.div_mod_to_equations; lia.
Qed.

Lemma day_tab_is_month_length (e yoe mp : Z) :
  0 <= yoe <= 399 -> 0 <= mp <= 11 ->
  Pg.day_tab (Pg.isleap (Era.year_number e yoe mp)) (Era.month_number mp)
  = Era.month_length yoe mp.
Proof.
  intros Hy Hm.
  assert (C : mp = 0 \/ mp = 1 \/ mp = 2 \/ mp = 3 \/ mp = 4 \/ mp = 5 \/ mp = 6
              \/ mp = 7 \/ mp = 8 \/ mp = 9 \/ mp = 10 \/ mp = 11) by lia.
  destruct C as [->|[->|[->|[->|[->|[->|[->|[->|[->|[->|[->| ->]]]]]]]]]]];
    try reflexivity.
  unfold Era.year_number, Era.month_number, Era.month_length, Pg.day_tab.
  cbn [Z.ltb Z.leb Z.eqb Z.compare Pos.compare Pos.compare_cont Z.sub Z.add
       Z.opp Z.pos_sub Pos.eqb Z.succ_double Z.pred_double Z.double
       Pos.pred_double].
  rewrite (isleap_year_length e yoe Hy).
  destruct (Pg.isleap _); reflexivity.
Qed.

Lemma next_month_start (e yoe mp : Z) :
  0 <= yoe <= 399 -> 0 <= mp <= 11 ->
  let '(e1, yoe1, mp1) := next_month e yoe mp in
  0 <= yoe1 <= 399 /\ 0 <= mp1 <= 11
  /\ Era.month_start e1 yoe1 mp1
     = Era.month_start e yoe mp + Era.month_length yoe mp
  /\ Era.month_number mp1
     = (if Era.month_number mp =? 12 then 1 else Era.month_number mp + 1)
  /\ Era.year_number e1 yoe1 mp1
     = (if Era.month_number mp =? 12 then Era.year_number e yoe mp + 1
        else Era.year_number e yoe mp).
Proof.
  intros Hy Hm.
  assert (O0 : Era.month_offset 0 = 0) by reflexivity.
  assert (O11 : Era.month_offset 11 = 337) by reflexivity.
  assert (Y0 : Era.year_start 0 = 0) by reflexivity.
  assert (Y399 : Era.year_start 399 = 145731) by reflexivity.
  unfold next_month, Era.year_number, Era.month_number, Era.month_start,
    Era.month_length, Era.year_length.
  repeat match goal with
         | |- context [?a <? ?b] => destruct (Z.ltb_spec a b)
         | |- context [?a <=? ?b] => destruct (Z.leb_spec a b)
         | |- context [?a =? ?b] => destruct (Z.eqb_spec a b)
         end;
    try lia;
    repeat match goal with
           | H : mp = _ |- _ => subst mp
           | H : yoe = _ |- _ => subst yoe
           end;
    try replace (mp + 1) with 11 in * by lia;
    repeat split; lia.
Qed.

(** The structure of the months, for every day: the first of its month
    is where the handler's calendar puts it, and the first of the next
    month, as the database computes it, is a later day, a first of a
    month, and its eve is still in the month of the day. *)
Lemma month_structure (d : Z) :
  let first := d - (Calendar.day_of_month d - 1) in
  let next := Pg.first_of_month (Pg.month_later d) in
  Pg.first_of_month d = first
  /\ d < next
  /\ Calendar.day_of_month next = 1
  /\ next - 1 - (Calendar.day_of_month (next - 1) - 1) = first.
Proof.
  cbv zeta. split; [apply first_of_month_is_first|].
  destruct (position_of_day d) as (Hy & Hm & Hd & Hj).
  set (e := Era.era_of d) in *.
  set (yoe := Era.yoe_of (Era.doe_of d)) in *.
  set (mp := Era.mp_of (Era.doy_of (Era.doe_of d))) in *.
  set (dd := Calendar.day_of_month d) in *.
  pose proof (next_month_start e yoe mp Hy Hm) as N.
  destruct (next_month e yoe mp) as [[e1 yoe1] mp1].
  destruct N as (Hy1 & Hm1 & Hstart & Hmonth & Hyear).
  pose proof (month_length_range yoe mp Hy Hm) as Hlen.
  pose proof (month_length_range yoe1 mp1 Hy1 Hm1) as Hlen1.
  (* the day a month later *)
  set (d1 := if Era.month_length yoe1 mp1 <? dd then Era.month_length yoe1 mp1 else dd).
  assert (Hd1 : 1 <= d1 <= Era.month_length yoe1 mp1).
  { unfold d1. destruct (_ <? dd) eqn:E;
      [apply Z.ltb_lt in E | apply Z.ltb_ge in E]; lia. }
  assert (Hlater : Pg.month_later d = Era.month_start e1 yoe1 mp1 + (d1 - 1)).
  { assert (Hpair : (if Era.month_number mp =? 12
                     then (Era.year_number e yoe mp + 1, 1)
                     else (Era.year_number e yoe mp, Era.month_number mp + 1))
                    = (Era.year_number e1 yoe1 mp1, Era.month_number mp1)).
    { rewrite Hmonth, Hyear. destruct (_ =? 12); reflexivity. }
    unfold Pg.month_later. rewrite civil_from_days_pieces.
    fold e yoe mp dd. cbv beta iota. rewrite Hpair. cbv beta iota.
    rewrite (day_tab_is_month_length e1 yoe1 mp1 Hy1 Hm1). fold d1.
    apply days_from_civil_position; assumption. }
  destruct (day_of_position e1 yoe1 mp1 d1 Hy1 Hm1 Hd1) as (P1 & P2 & P3 & _).
  rewrite <- Hlater in P1, P2, P3.
  assert (Hnext : Pg.first_of_month (Pg.month_later d)
                  = Era.month_start e1 yoe1 mp1).
  { rewrite first_of_month_position, P1, P2, P3. reflexivity. }
  rewrite Hnext, Hstart.
  destruct (day_of_position e1 yoe1 mp1 1 Hy1 Hm1 ltac:(lia)) as (_ & _ & _ & Q1).
  destruct (day_of_position e yoe mp (Era.month_length yoe mp) Hy Hm ltac:(lia))
    as (_ & _ & _ & Q2).
  split; [lia|]. split.
  - rewrite <- Hstart.
    replace (Era.month_start e1 yoe1 mp1)
      with (Era.month_start e1 yoe1 mp1 + (1 - 1)) by lia.
    exact Q1.
  - replace (Era.month_start e yoe mp + Era.month_length yoe mp - 1)
      with (Era.month_start e yoe mp + (Era.month_length yoe mp - 1)) by lia.
    rewrite Q2. lia.
Qed.


Lemma plus_one_month_day (t : Z) :
  Pg.plus_one_month t / Calendar.ms_per_day
  = Pg.month_later (t / Calendar.ms_per_day).
Proof.
  unfold Pg.plus_one_month. cbv zeta. unfold Calendar.ms_per_day.
  pose proof (Z.div_mod t 86400000 ltac:(lia)) as E.
  pose proof (Z.mod_pos_bound t 86400000 ltac:(lia)) as B.
  rewrite Z.div_add_l by lia.
  rewrite (Z.div_small (t - t / 86400000 * 86400000)) by lia. lia.
Qed.

(** The first instant of the next month, as the database computes it. *)
Lemma next_month_facts (t : Z) :
  let next := Pg.date_trunc_month (Pg.plus_one_month t) in
  t < next
  /\ Calendar.startOfMonth next = next
  /\ Calendar.startOfMonth (next - 1) = Calendar.startOfMonth t.
Proof.
  cbv zeta. unfold Pg.date_trunc_month. rewrite plus_one_month_day.
  pose proof (month_structure (t / Calendar.ms_per_day)) as H.
  cbv zeta in H.
  set (d := t / Calendar.ms_per_day) in *.
  set (next := Pg.first_of_month (Pg.month_later d)) in *.
  destruct H as (_ & H2 & H3 & H4).
  unfold Calendar.startOfMonth. cbv zeta. fold d.
  unfold Calendar.ms_per_day in *.
  pose proof (Z.div_mod t 86400000 ltac:(lia)) as E.
  pose proof (Z.mod_pos_bound t 86400000 ltac:(lia)) as B.
  fold d in E.
  split; [lia|]. split.
  - rewrite Z.div_mul by lia. rewrite H3. lia.
  - replace ((next * 86400000 - 1) / 86400000) with (next - 1).
    + rewrite <- H4. reflexivity.
    + apply Z.div_unique with (r := 86399999); lia.
Qed.
(** ** The status functions and the handler's checks *)

Lemma to_integer_in_range (v : Z) :
  -2147483648 <= v <= 2147483647 -> Pg.to_integer v = Some v.
Proof.
  intros H. unfold Pg.to_integer.
  replace (-2147483648 <=? v) with true by (symmetry; apply Z.leb_le; lia).
  replace (v <=? 2147483647) with true by (symmetry; apply Z.leb_le; lia).
  reflexivity.
Qed.

Lemma request_count_bound (l : list AiUsage.row) (who : string) (now : Z) :
  0 <= request_count l who now <= Z.of_nat (List.length l).
Proof.
  unfold request_count. split; [lia|].
  apply inj_le. apply filter_length_le.
Qed.

Lemma rate_limited_iff (w : World) (req : Request) (s : Store)
    (u : User) (b : RequestBody) (msgs : list Message) :
  authenticated w req u b ->
  messages b = Array msgs ->
  rate_read_error w = None ->
  is_RateLimited (fst (serve w req s)) = true
  <-> 20 <= request_count (ai_usage s) (uid u) (now_rate w).
Proof.
  intros Hauth Hm Hr.
  destruct (serve_accepted w req s u b msgs Hauth Hm) as (k & _ & E).
  rewrite E, (governed_rate_read_ok w k u b msgs s Hr).
  destruct (20 <=? _) eqn:Hc.
  - apply Z.leb_le in Hc. split; [auto | reflexivity].
  - apply Z.leb_gt in Hc. rewrite after_rate_not_limited.
    split; [discriminate | lia].
Qed.

(** X15.  What the client is shown about the rate limit agrees with what
    the handler enforces: for the same ledger at the same instant,
    [getUserRateLimit] returns the row of [get_user_rate_limit] with the
    number of the user's events in the last hour, 20 allowed and
    [max(0, 20 - count)] remaining, and no request remains exactly when
    the handler answers the user's next request with the rate-limit 429. *)
Theorem rate_status_matches_handler (w : World) (req : Request) (s : Store)
    (u : User) (b : RequestBody) (msgs : list Message) :
  authenticated w req u b ->
  messages b = Array msgs ->
  rate_read_error w = None ->
  Z.of_nat (List.length (ai_usage s)) <= 2147483647 ->
  exists row,
    fst (Client.getUserRateLimit (Some u)
           (fun p => Client.from_database
                       (Sql.get_user_rate_limit (ai_usage s) (now_rate w) p)))
    = Some row
    /\ Sql.request_count row = request_count (ai_usage s) (uid u) (now_rate w)
    /\ Sql.requests_allowed row = 20
    /\ Sql.requests_remaining row = Z.max 0 (20 - Sql.request_count row)
    /\ (Sql.requests_remaining row = 0
        <-> is_RateLimited (fst (serve w req s)) = true).
Proof.
  intros Hauth Hm Hr Hsize.
  pose proof (request_count_bound (ai_usage s) (uid u) (now_rate w)) as B.
  pose proof (rate_limited_iff w req s u b msgs Hauth Hm Hr) as L.
  unfold Client.getUserRateLimit, Sql.get_user_rate_limit. cbv zeta.
  fold (in_window (uid u) (now_rate w)).
  fold (request_count (ai_usage s) (uid u) (now_rate w)).
  set (c := request_count (ai_usage s) (uid u) (now_rate w)) in *.
  rewrite (to_integer_in_range c) by lia.
  rewrite (to_integer_in_range (20 - c)) by lia.
  eexists. split; [reflexivity|]. cbn [Sql.request_count Sql.requests_allowed
                                         Sql.requests_remaining].
  unfold Pg.greatest.
  split; [reflexivity|]. split; [reflexivity|]. split; [reflexivity|].
  rewrite L. lia.
Qed.

(** Twenty recent events of alice: nothing remains, and she is rejected. *)
Lemma rate_status_matches_handler_witness :
  exists row,
    fst (Client.getUserRateLimit (Some Fixture.alice)
           (fun p => Client.from_database
                       (Sql.get_user_rate_limit
                          (ai_usage (Fixture.store Fixture.twenty_recent))
                          (now_rate Fixture.healthy) p)))
    = Some row
    /\ Sql.request_count row
       = request_count (ai_usage (Fixture.store Fixture.twenty_recent))
                       (uid Fixture.alice) (now_rate Fixture.healthy)
    /\ Sql.requests_allowed row = 20
    /\ Sql.requests_remaining row = Z.max 0 (20 - Sql.request_count row)
    /\ (Sql.requests_remaining row = 0
        <-> is_RateLimited
              (fst (serve Fixture.healthy (Fixture.post Fixture.chat)
                          (Fixture.store Fixture.twenty_recent))) = true).
Proof.
  apply (rate_status_matches_handler Fixture.healthy (Fixture.post Fixture.chat)
           (Fixture.store Fixture.twenty_recent) Fixture.alice Fixture.chat
           Fixture.hello
           (fixture_authenticated None None _ None Fixture.chat)
           eq_refl eq_refl).
  vm_compute. discriminate.
Defined.





(** X17.  The reset instant the quota status reports is the instant at
    which the handler's month window moves: it lies after now, the window
    the handler counts over stays the same at every instant from now up to
    it, and at the reset instant itself the window starts anew, at that
    very instant. *)
Theorem quota_reset_is_next_window (stored_cost : AiUsage.row -> Q)
    (ledger : list AiUsage.row) (now : Z) (workspace : string)
    (rows : list Sql.MonthlyQuota) (row : Sql.MonthlyQuota) :
  Sql.get_workspace_monthly_quota stored_cost ledger now workspace = Some rows ->
  In row rows ->
  now < Sql.quota_reset_at row
  /\ (forall t, now <= t < Sql.quota_reset_at row ->
                Calendar.startOfMonth t = Calendar.startOfMonth now)
  /\ Calendar.startOfMonth (Sql.quota_reset_at row) = Sql.quota_reset_at row.
Proof.
  unfold Sql.get_workspace_monthly_quota. cbv zeta.
  destruct (Pg.to_integer _) as [t|]; [|discriminate].
  destruct (Pg.to_integer _) as [r|]; [|discriminate].
  intros E Hin. inversion E. subst rows.
  destruct Hin as [<-|[]]. cbn [Sql.quota_reset_at].
  destruct (next_month_facts now) as (Hlt & Hfix & Heve).
  set (next := Pg.date_trunc_month (Pg.plus_one_month now)) in *.
  split; [assumption|]. split; [|assumption].
  intros t' (Hlo & Hhi).
  pose proof (startOfMonth_le now) as (Hs & _).
  rewrite <- Heve.
  apply startOfMonth_stable. rewrite Heve. lia.
Qed.

Lemma quota_reset_is_next_window_witness :
  exists row,
    Sql.get_workspace_monthly_quota (fun r => exact_cost (AiUsage.token_count r))
      [] Fixture.noon default_workspaceId = Some [row]
    /\ Fixture.noon < Sql.quota_reset_at row
    /\ (forall t, Fixture.noon <= t < Sql.quota_reset_at row ->
                  Calendar.startOfMonth t = Calendar.startOfMonth Fixture.noon)
    /\ Calendar.startOfMonth (Sql.quota_reset_at row) = Sql.quota_reset_at row.
Proof.
  eexists. split; [vm_compute; reflexivity|].
  apply (quota_reset_is_next_window (fun r => exact_cost (AiUsage.token_count r))
           [] Fixture.noon default_workspaceId _ _ eq_refl).
  left. reflexivity.
Defined.

(** ** The usage statistics *)

Lemma insert_desc_in (d x : Z) (l : list Z) :
  In x (Sql.insert_desc d l) <-> x = d \/ In x l.
Proof.
  induction l as [|y l IH]; simpl.
  - intuition.
  - destruct (y <? d); [simpl; intuition|].
    destruct (y =? d) eqn:E.
    + apply Z.eqb_eq in E. subst. simpl. intuition.
    + simpl. rewrite IH. intuition.
Qed.

Lemma insert_desc_sorted (d : Z) (l : list Z) :
  StronglySorted (fun a b => b < a) l ->
  StronglySorted (fun a b => b < a) (Sql.insert_desc d l).
Proof.
  induction 1 as [|y l Hs IH Hy]; simpl.
  - constructor; constructor.
  - destruct (y <? d) eqn:E1.
    + apply Z.ltb_lt in E1. constructor.
      * constructor; assumption.
      * constructor; [assumption|].
        apply Forall_impl with (2 := Hy). intros; lia.
    + destruct (y =? d) eqn:E2; [constructor; assumption|].
      apply Z.ltb_ge in E1. apply Z.eqb_neq in E2.
      constructor; [assumption|].
      apply Forall_forall. intros x Hx. apply insert_desc_in in Hx.
      destruct Hx as [->|Hx]; [lia|].
      apply (proj1 (Forall_forall _ _) Hy). assumption.
Qed.

Lemma distinct_desc_sorted (l : list Z) :
  StronglySorted (fun a b => b < a) (Sql.distinct_desc l).
Proof.
  induction l as [|x l IH]; simpl; [constructor|].
  apply insert_desc_sorted. assumption.
Qed.

Lemma distinct_desc_in (x : Z) (l : list Z) :
  In x (Sql.distinct_desc l) <-> In x l.
Proof.
  induction l as [|y l IH]; simpl; [reflexivity|].
  rewrite insert_desc_in, IH. intuition.
Qed.

Lemma sorted_desc_NoDup (l : list Z) :
  StronglySorted (fun a b => b < a) l -> NoDup l.
Proof.
  induction 1 as [|y l Hs IH Hy]; constructor; [|assumption].
  intros Hin. apply (proj1 (Forall_forall _ _) Hy) in Hin. lia.
Qed.

Lemma filter_split {A : Type} (p : A -> bool) (l : list A) :
  Permutation (filter p l ++ filter (fun x => negb (p x)) l) l.
Proof.
  induction l as [|x l IH]; simpl; [constructor|].
  destruct (p x); simpl.
  - constructor. assumption.
  - apply Permutation_sym, Permutation_cons_app, Permutation_sym. assumption.
Qed.

(** The groups by day, one after the other, are the events regrouped. *)
Lemma groups_permutation (key : AiUsage.row -> Z) (ds : list Z) :
  NoDup ds ->
  forall l : list AiUsage.row,
  (forall r, In r l -> In (key r) ds) ->
  Permutation (List.concat (map (fun d => filter (fun r => key r =? d) l) ds)) l.
Proof.
  induction 1 as [|d ds Hd Hnd IH]; intros l Hall.
  - destruct l as [|r l]; [constructor|]. destruct (Hall r (or_introl eq_refl)).
  - simpl.
    set (rest := filter (fun r => negb (key r =? d)) l).
    assert (E : map (fun d' => filter (fun r => key r =? d') l) ds
                = map (fun d' => filter (fun r => key r =? d') rest) ds).
    { apply map_ext_in. intros d' Hd'. unfold rest.
      induction l as [|r l IHl]; simpl; [reflexivity|].
      destruct (key r =? d) eqn:E1; simpl.
      - apply Z.eqb_eq in E1.
        destruct (key r =? d') eqn:E2.
        + apply Z.eqb_eq in E2. exfalso. apply Hd. congruence.
        + apply IHl. intros r' Hr'. apply Hall. right. assumption.
      - destruct (key r =? d'); [f_equal|];
          apply IHl; intros r' Hr'; apply Hall; right; assumption. }
    rewrite E.
    apply Permutation_trans with (2 := filter_split (fun r => key r =? d) l).
    apply Permutation_app_head. fold rest. apply IH.
    intros r Hr. unfold rest in Hr. apply filter_In in Hr.
    destruct Hr as (Hr & Hne). apply negb_true_iff, Z.eqb_neq in Hne.
    destruct (Hall r Hr) as [Heq|Hin]; [congruence | assumption].
Qed.

Lemma sum_tokens_permutation (l l' : list AiUsage.row) :
  Permutation l l' -> sum_tokens l = sum_tokens l'.
Proof. induction 1; simpl; lia. Qed.

Lemma sum_cost_permutation (stored_cost : AiUsage.row -> Q)
    (l l' : list AiUsage.row) :
  Permutation l l' -> (Sql.sum_cost stored_cost l == Sql.sum_cost stored_cost l')%Q.
Proof.
  induction 1 as [|x l l' _ IH|x y l|l l' l'' _ IH1 _ IH2]; simpl.
  - reflexivity.
  - rewrite IH. reflexivity.
  - ring.
  - rewrite IH1. assumption.
Qed.

Lemma sum_cost_app (stored_cost : AiUsage.row -> Q) (l l' : list AiUsage.row) :
  (Sql.sum_cost stored_cost (l ++ l')
   == Sql.sum_cost stored_cost l + Sql.sum_cost stored_cost l')%Q.
Proof.
  induction l as [|x l IH]; simpl; [ring | rewrite IH; ring].
Qed.

Lemma stats_of_groups (stored_cost : AiUsage.row -> Q)
    (g : Z -> list AiUsage.row) (ds : list Z) :
  let rows := map (fun d => {| Sql.date := d;
                               Sql.stats_request_count := Z.of_nat (List.length (g d));
                               Sql.total_tokens := sum_tokens (g d);
                               Sql.total_cost := Sql.sum_cost stored_cost (g d) |}) ds in
  total Sql.stats_request_count rows = Z.of_nat (List.length (List.concat (map g ds)))
  /\ total Sql.total_tokens rows = sum_tokens (List.concat (map g ds))
  /\ (total_cost_of rows == Sql.sum_cost stored_cost (List.concat (map g ds)))%Q.
Proof.
  cbv zeta. induction ds as [|d ds (IH1 & IH2 & IH3)]; simpl.
  - repeat split; reflexivity.
  - rewrite length_app, sum_tokens_app, sum_cost_app, IH1, IH2, IH3.
    repeat split; try reflexivity. lia.
Qed.

Lemma sorted_map_desc {A : Type} (f : Z -> A) (date : A -> Z) (ds : list Z) :
  (forall d, date (f d) = d) ->
  StronglySorted (fun a b => b < a) ds ->
  StronglySorted (fun a b => date b < date a) (map f ds).
Proof.
  intros Hf. induction 1 as [|d ds Hs IH Hd]; simpl; constructor; [assumption|].
  apply Forall_map. apply Forall_impl with (2 := Hd).
  intros x Hx. rewrite !Hf. assumption.
Qed.

(** X18.  The usage statistics account for every event once: whatever
    the ledger, [getUsageStats] (with its defaults: the first workspace,
    30 days) returns the rows of [get_usage_stats] with the days strictly
    newest first, no day without events, and the request counts, the
    tokens and the costs of the days add up to the number, the tokens and
    the stored costs of the workspace's events of the period. *)
Theorem usage_stats_account_for_every_event (stored_cost : AiUsage.row -> Q)
    (ledger : list AiUsage.row) (now : Z) (workspaceId : option string)
    (days : option Z) :
  let rows :=
    fst (Client.getUsageStats workspaceId days
           (fun workspace p_days =>
              Client.RpcData (Sql.get_usage_stats stored_cost ledger now
                                                  workspace p_days))) in
  let events :=
    filter (in_days (stats_workspace workspaceId) now (stats_days days)) ledger in
  StronglySorted (fun a b => Sql.date b < Sql.date a) rows
  /\ Forall (fun row => 1 <= Sql.stats_request_count row) rows
  /\ total Sql.stats_request_count rows = Z.of_nat (List.length events)
  /\ total Sql.total_tokens rows = sum_tokens events
  /\ (total_cost_of rows == Sql.sum_cost stored_cost events)%Q.
Proof.
  cbv zeta. unfold Client.getUsageStats. cbv zeta.
  fold default_workspaceId. fold (stats_workspace workspaceId).
  fold (stats_days days). cbn [fst].
  unfold Sql.get_usage_stats. cbv zeta.
  fold (in_days (stats_workspace workspaceId) now (stats_days days)).
  set (events := filter (in_days _ now _) ledger).
  set (key := fun r : AiUsage.row => Pg.date (AiUsage.created_at r)).
  set (ds := Sql.distinct_desc (map key events)).
  set (g := fun d => filter (fun r => key r =? d) events).
  pose proof (distinct_desc_sorted (map key events)) as Hs. fold ds in Hs.
  assert (Hall : forall r, In r events -> In (key r) ds).
  { intros r Hr. apply distinct_desc_in. apply in_map. assumption. }
  pose proof (groups_permutation key ds (sorted_desc_NoDup ds Hs) events Hall) as P.
  fold g in P.
  destruct (stats_of_groups stored_cost g ds) as (T1 & T2 & T3). cbv zeta in *.
  split; [|split; [|split; [|split]]].
  - apply (sorted_map_desc _ Sql.date ds); [reflexivity | assumption].
  - apply Forall_map. apply Forall_forall. intros d Hd.
    cbn [Sql.stats_request_count].
    apply distinct_desc_in, in_map_iff in Hd. destruct Hd as (r & Hk & Hr).
    assert (Hin : In r (g d)).
    { apply filter_In. split; [assumption | apply Z.eqb_eq; assumption]. }
    change (1 <= Z.of_nat (List.length (g d))).
    destruct (g d); [destruct Hin | cbn [List.length]; lia].
  - transitivity (Z.of_nat (List.length (List.concat (map g ds))));
      [exact T1 | rewrite (Permutation_length P); reflexivity].
  - transitivity (sum_tokens (List.concat (map g ds)));
      [exact T2 | apply sum_tokens_permutation; assumption].
  - apply Qeq_trans with (Sql.sum_cost stored_cost (List.concat (map g ds)));
      [exact T3 | apply sum_cost_permutation; assumption].
Qed.
(** ** Conversations and their messages *)

Lemma trigger_table (rls : Chat.RowSecurity) (now : Z)
    (NEW : ConversationMessages.row) (table updated : list Conversations.row) :
  Chat.update_conversation_timestamp rls now NEW table = Some updated ->
  updated
  = map (fun c =>
           if (Conversations.id c
               =? ConversationMessages.conversation_id NEW)%string
              && Chat.may_update rls c
           then Chat.touched now c
           else c)
        table.
Proof.
  unfold Chat.update_conversation_timestamp.
  destruct rls; intros E; inversion E; reflexivity.
Qed.

Lemma trigger_ids (rls : Chat.RowSecurity) (now : Z)
    (NEW : ConversationMessages.row) (table updated : list Conversations.row) :
  Chat.update_conversation_timestamp rls now NEW table = Some updated ->
  map Conversations.id updated = map Conversations.id table.
Proof.
  intros E. rewrite (trigger_table rls now NEW table updated E), map_map.
  apply map_ext. intros c. destruct (_ && _); reflexivity.
Qed.

Lemma trigger_rows (rls : Chat.RowSecurity) (now : Z)
    (NEW : ConversationMessages.row) (table updated : list Conversations.row)
    (c' : Conversations.row) :
  Chat.update_conversation_timestamp rls now NEW table = Some updated ->
  In c' updated ->
  exists c,
    In c table
    /\ Conversations.id c' = Conversations.id c
    /\ if (Conversations.id c =? ConversationMessages.conversation_id NEW)%string
          && Chat.may_update rls c
       then Conversations.last_message_at c' = now
            /\ Conversations.updated_at c' = now
       else c' = c.
Proof.
  intros E H. rewrite (trigger_table rls now NEW table updated E) in H.
  apply in_map_iff in H. destruct H as (c & Ec & Hc).
  exists c. split; [assumption|].
  destruct (_ && _); subst c'; repeat split; reflexivity.
Qed.

(** Where no row of the conversation may be updated, the trigger leaves
    the table as it was. *)
Lemma trigger_without_rows (rls : Chat.RowSecurity) (now : Z)
    (NEW : ConversationMessages.row) (table updated : list Conversations.row) :
  Chat.update_conversation_timestamp rls now NEW table = Some updated ->
  (forall c, In c table ->
             Conversations.id c = ConversationMessages.conversation_id NEW ->
             Chat.may_update rls c = false) ->
  updated = table.
Proof.
  intros E Hno. rewrite (trigger_table rls now NEW table updated E).
  rewrite <- (map_id table) at 2.
  apply map_ext_in. intros c Hc.
  destruct (Conversations.id c =? ConversationMessages.conversation_id NEW)%string
    eqn:Eid; [|reflexivity].
  apply String.eqb_eq in Eid. rewrite (Hno c Hc Eid). reflexivity.
Qed.

(** X19.  Inserting a message keeps the conversation's [last_message_at]
    up to date for a session that may update the conversation, as the
    edge function's (service role) and an agent's are, and leaves it
    stale for one that may not, as a customer's is.  If the insert
    succeeds at an instant not before the messages already there, then no
    conversation is added or removed and the message's conversation
    exists; where the session may update the conversation's row, every
    message is afterwards still at most as new as its conversation's
    [last_message_at], that row has [last_message_at] and [updated_at]
    equal to the new message's [created_at], and every other row is
    unchanged; where it may not, the table of conversations is exactly as
    before. *)
Theorem message_insert_keeps_conversations_up_to_date (rls : Chat.RowSecurity)
    (now : Z) (new_id conversation_id role content model : string)
    (tokens_used : Z) (db db' : Chat.Db) :
  Chat.insert_message rls now new_id conversation_id role content model
                      tokens_used db
  = Some db' ->
  (forall m, In m (Chat.conversation_messages db) ->
             ConversationMessages.created_at m <= now) ->
  Chat.up_to_date db ->
  map Conversations.id (Chat.conversations db')
  = map Conversations.id (Chat.conversations db)
  /\ (exists c', In c' (Chat.conversations db')
                 /\ Conversations.id c' = conversation_id)
  /\ ((forall c, In c (Chat.conversations db) ->
                 Conversations.id c = conversation_id ->
                 Chat.may_update rls c = true) ->
      Chat.up_to_date db'
      /\ forall c', In c' (Chat.conversations db') ->
           if (Conversations.id c' =? conversation_id)%string
           then Conversations.last_message_at c' = now
                /\ Conversations.updated_at c' = now
           else In c' (Chat.conversations db))
  /\ ((forall c, In c (Chat.conversations db) ->
                 Conversations.id c = conversation_id ->
                 Chat.may_update rls c = false) ->
      Chat.conversations db' = Chat.conversations db).
Proof.
  unfold Chat.insert_message.
  destruct (existsb _ (Chat.conversation_messages db)); [discriminate|].
  destruct (Chat.message_role_check role); [|discriminate]. cbn [negb].
  destruct (Pg.to_integer tokens_used); [|discriminate].
  destruct (existsb _ (Chat.conversations db)) eqn:Hfk; [|discriminate].
  cbn [negb]. cbv zeta.
  set (NEW := {| ConversationMessages.id := new_id;
                 ConversationMessages.conversation_id := conversation_id |}).
  destruct (Chat.update_conversation_timestamp rls now NEW (Chat.conversations db))
    as [updated|] eqn:Ht; [|discriminate].
  intros E Hclock Hinv. inversion E. clear E. subst db'.
  cbn [Chat.conversations Chat.conversation_messages].
  pose proof (trigger_ids rls now NEW _ updated Ht) as Hids.
  split; [assumption|]. split; [|split].
  - apply existsb_exists in Hfk. destruct Hfk as (c & Hc & Hid).
    apply String.eqb_eq in Hid.
    assert (Hin : In (Conversations.id c) (map Conversations.id updated))
      by (rewrite Hids; apply in_map; assumption).
    apply in_map_iff in Hin. destruct Hin as (c' & Hid' & Hc').
    exists c'. split; [assumption | congruence].
  - intros Hmay.
    assert (Hrows : forall c',
              In c' updated ->
              if (Conversations.id c' =? conversation_id)%string
              then Conversations.last_message_at c' = now
                   /\ Conversations.updated_at c' = now
              else In c' (Chat.conversations db)).
    { intros c' Hc'.
      destruct (trigger_rows rls now NEW _ updated c' Ht Hc')
        as (c & Hc & Hid & Hcase).
      rewrite Hid. cbn [ConversationMessages.conversation_id NEW] in Hcase.
      destruct (Conversations.id c =? conversation_id)%string eqn:Ec.
      - apply String.eqb_eq in Ec. rewrite (Hmay c Hc Ec) in Hcase.
        exact Hcase.
      - cbn [andb] in Hcase. subst c'. assumption. }
    split; [|assumption].
    intros c' m Hc' Hm Hid. cbn [Chat.conversations Chat.conversation_messages] in *.
    specialize (Hrows c' Hc').
    apply in_app_or in Hm.
    destruct (Conversations.id c' =? conversation_id)%string eqn:Ec.
    + destruct Hrows as (-> & _).
      destruct Hm as [Hm|[<-|[]]]; [apply Hclock; assumption | simpl; lia].
    + apply String.eqb_neq in Ec.
      destruct Hm as [Hm|[<-|[]]]; [apply (Hinv c' m); assumption|].
      simpl in Hid. congruence.
  - intros Hno. apply (trigger_without_rows rls now NEW _ updated Ht).
    exact Hno.
Qed.

(** The assistant's reply to [conv-1], inserted by the edge function,
    into a database of two conversations that hold four messages. *)
Lemma message_insert_keeps_conversations_up_to_date_witness :
  exists db',
    Chat.insert_message Chat.Bypassed Fixture.noon "msg-1" "conv-1" "assistant"
                        "Hi, how can I help?" "gpt-3.5-turbo" 50
                        two_conversations
    = Some db'
    /\ map Conversations.id (Chat.conversations db') = ["conv-1"; "conv-2"]
    /\ Chat.up_to_date db'
    /\ (forall c', In c' (Chat.conversations db') ->
          if (Conversations.id c' =? "conv-1")%string
          then Conversations.last_message_at c' = Fixture.noon
               /\ Conversations.updated_at c' = Fixture.noon
          else In c' (Chat.conversations two_conversations)).
Proof.
  eexists. split; [reflexivity|].
  destruct (message_insert_keeps_conversations_up_to_date Chat.Bypassed
              Fixture.noon "msg-1" "conv-1" "assistant" "Hi, how can I help?"
              "gpt-3.5-turbo" 50 two_conversations _ eq_refl)
    as (Hids & _ & Hmay & _).
  - intros m [<-|[<-|[<-|[<-|[]]]]]; vm_compute; discriminate.
  - intros c m [<-|[<-|[]]] [<-|[<-|[<-|[<-|[]]]]] H;
      try discriminate H; vm_compute; discriminate.
  - split; [exact Hids|]. apply Hmay. intros c _ _. reflexivity.
Defined.

(** The same message inserted by a customer's session, which may update
    no conversation: the insert succeeds and [conv-1] keeps its old
    [last_message_at], now older than its newest message. *)
Example customer_insert_leaves_conversation_stale :
  exists db',
    Chat.insert_message (Chat.Using (fun _ => false)) Fixture.noon "msg-1"
                        "conv-1" "user" "Hello!" "" 0 two_conversations
    = Some db'
    /\ Chat.conversations db' = Chat.conversations two_conversations
    /\ ~ Chat.up_to_date db'.
Proof.
  eexists. split; [reflexivity|]. split; [reflexivity|].
  intros H.
  specialize (H {| Conversations.id := "conv-1";
                   Conversations.workspace_id := default_workspaceId;
                   Conversations.customer_id := None;
                   Conversations.customer_email := Some "customer@example.com";
                   Conversations.customer_name := None;
                   Conversations.status := "active";
                   Conversations.last_message_at := 30;
                   Conversations.created_at := 10;
                   Conversations.updated_at := 30 |}
                {| ConversationMessages.id := "msg-1";
                   ConversationMessages.conversation_id := "conv-1";
                   ConversationMessages.role := "user";
                   ConversationMessages.content := "Hello!";
                   ConversationMessages.tokens_used := 0;
                   ConversationMessages.model := "";
                   ConversationMessages.created_at := Fixture.noon |}).
  simpl in H.
  assert (Fixture.noon <= 30) as C.
  { apply H; [left; reflexivity | | reflexivity].
    do 4 right. left. reflexivity. }
  vm_compute in C. apply C. reflexivity.
Qed.

Lemma insert_newest_permutation (m : ConversationMessages.row)
    (l : list ConversationMessages.row) :
  Permutation (Chat.insert_newest m l) (m :: l).
Proof.
  induction l as [|x l IH]; simpl; [reflexivity|].
  destruct (_ <? _); [reflexivity|].
  apply Permutation_trans with (x :: m :: l); [|constructor].
  constructor. assumption.
Qed.

Lemma newest_first_permutation (l : list ConversationMessages.row) :
  Permutation (Chat.newest_first l) l.
Proof.
  induction l as [|x l IH]; simpl; [constructor|].
  apply Permutation_trans with (1 := insert_newest_permutation x _).
  constructor. assumption.
Qed.

Lemma insert_newest_sorted (m : ConversationMessages.row)
    (l : list ConversationMessages.row) :
  StronglySorted (fun a b => ConversationMessages.created_at b
                             <= ConversationMessages.created_at a) l ->
  StronglySorted (fun a b => ConversationMessages.created_at b
                             <= ConversationMessages.created_at a)
                 (Chat.insert_newest m l).
Proof.
  induction 1 as [|x l Hs IH Hx]; simpl.
  - constructor; constructor.
  - destruct (_ <? _) eqn:E.
    + apply Z.ltb_lt in E. constructor.
      * constructor; assumption.
      * constructor; [lia|].
        apply Forall_impl with (2 := Hx). intros; lia.
    + apply Z.ltb_ge in E. constructor; [assumption|].
      apply Forall_forall. intros y Hy.
      apply (Permutation_in _ (insert_newest_permutation m l)) in Hy.
      destruct Hy as [<-|Hy]; [assumption|].
      apply (proj1 (Forall_forall _ _) Hx). assumption.
Qed.

Lemma newest_first_sorted (l : list ConversationMessages.row) :
  StronglySorted (fun a b => ConversationMessages.created_at b
                             <= ConversationMessages.created_at a)
                 (Chat.newest_first l).
Proof.
  induction l as [|x l IH]; simpl; [constructor|].
  apply insert_newest_sorted. assumption.
Qed.

Lemma sorted_firstn_skipn {A : Type} (R : A -> A -> Prop) (n : nat) (l : list A) :
  StronglySorted R l ->
  StronglySorted R (firstn n l)
  /\ forall a b, In a (firstn n l) -> In b (skipn n l) -> R a b.
Proof.
  intros H. revert n.
  induction H as [|x l Hs IH Hx]; intros n.
  - rewrite firstn_nil, skipn_nil. split; [constructor | intros a b []].
  - destruct n as [|n]; simpl.
    + split; [constructor | intros a b []].
    + destruct (IH n) as (IH1 & IH2). split.
      * constructor; [assumption|].
        apply Forall_forall. intros y Hy.
        apply (proj1 (Forall_forall _ _) Hx).
        rewrite <- (firstn_skipn n l). apply in_or_app. left. assumption.
      * intros a b [<-|Ha] Hb; [|apply IH2; assumption].
        apply (proj1 (Forall_forall _ _) Hx).
        rewrite <- (firstn_skipn n l). apply in_or_app. right. assumption.
Qed.

(** X20.  The history of a conversation is its newest messages, newest
    first: when [get_conversation_history] returns (its limit is not
    negative), the rows are the projection of messages of that
    conversation only, as many as the limit allows, ordered from the
    newest to the oldest, and every message of the conversation that is
    left out is at most as new as every message returned. *)
Theorem history_is_the_newest_messages (table : list ConversationMessages.row)
    (p_conversation_id : string) (p_limit : Z) (rows : list Chat.History) :
  Chat.get_conversation_history table p_conversation_id p_limit = Some rows ->
  exists returned others,
    rows = map Chat.history_of returned
    /\ Permutation (returned ++ others)
         (filter (fun m => (ConversationMessages.conversation_id m
                            =? p_conversation_id)%string) table)
    /\ List.length rows
       = Nat.min (Z.to_nat p_limit)
           (List.length
              (filter (fun m => (ConversationMessages.conversation_id m
                                 =? p_conversation_id)%string) table))
    /\ StronglySorted (fun a b => Chat.created_at b <= Chat.created_at a) rows
    /\ (forall new old, In new returned -> In old others ->
          ConversationMessages.created_at old <= ConversationMessages.created_at new).
Proof.
  unfold Chat.get_conversation_history, Chat.selected.
  destruct (p_limit <? 0); [discriminate|].
  intros E. inversion E. clear E.
  set (mine := filter _ table).
  set (n := Z.to_nat p_limit).
  destruct (sorted_firstn_skipn _ n _ (newest_first_sorted mine)) as (Hs & Hcut).
  exists (firstn n (Chat.newest_first mine)), (skipn n (Chat.newest_first mine)).
  split; [reflexivity|]. split; [|split; [|split]].
  - rewrite firstn_skipn. apply newest_first_permutation.
  - rewrite length_map, length_firstn,
      (Permutation_length (newest_first_permutation mine)). reflexivity.
  - revert Hs. generalize (firstn n (Chat.newest_first mine)).
    induction 1 as [|x l Hs IH Hx]; simpl; constructor; [assumption|].
    apply Forall_map. assumption.
  - intros new old Hnew Hold. apply (Hcut new old); assumption.
Qed.

(** Three messages of one conversation and one of another, limit 2. *)
Lemma history_is_the_newest_messages_witness :
  exists returned others,
    [ {| Chat.id := "m3"; Chat.role := "assistant"; Chat.content := "c";
         Chat.created_at := 30 |};
      {| Chat.id := "m2"; Chat.role := "user"; Chat.content := "b";
         Chat.created_at := 20 |} ]
    = map Chat.history_of returned
    /\ Permutation (returned ++ others)
         (filter (fun m => (ConversationMessages.conversation_id m =? "conv-1")%string)
                 four_messages)
    /\ List.length
         [ {| Chat.id := "m3"; Chat.role := "assistant"; Chat.content := "c";
              Chat.created_at := 30 |};
           {| Chat.id := "m2"; Chat.role := "user"; Chat.content := "b";
              Chat.created_at := 20 |} ]
       = Nat.min (Z.to_nat 2)
           (List.length
              (filter (fun m => (ConversationMessages.conversation_id m
                                 =? "conv-1")%string) four_messages))
    /\ StronglySorted (fun a b => Chat.created_at b <= Chat.created_at a)
         [ {| Chat.id := "m3"; Chat.role := "assistant"; Chat.content := "c";
              Chat.created_at := 30 |};
           {| Chat.id := "m2"; Chat.role := "user"; Chat.content := "b";
              Chat.created_at := 20 |} ]
    /\ (forall new old, In new returned -> In old others ->
          ConversationMessages.created_at old <= ConversationMessages.created_at new).
Proof.
  apply (history_is_the_newest_messages four_messages "conv-1" 2).
  reflexivity.
Defined.

Lemma newest_first_app_newest (x : ConversationMessages.row)
    (l : list ConversationMessages.row) :
  (forall m, In m l -> ConversationMessages.created_at m
                       < ConversationMessages.created_at x) ->
  Chat.newest_first (l ++ [x]) = x :: Chat.newest_first l.
Proof.
  unfold Chat.newest_first. rewrite fold_right_app. simpl.
  induction l as [|m l IH]; intros Hl; simpl; [reflexivity|].
  rewrite IH by (intros m' Hm'; apply Hl; right; assumption).
  simpl.
  replace (ConversationMessages.created_at x <? ConversationMessages.created_at m)
    with false; [reflexivity|].
  symmetry. apply Z.ltb_ge. specialize (Hl m (or_introl eq_refl)). lia.
Qed.

(** X21.  The assistant's reply comes first in the history: when a call
    completes for a request that names a conversation, the message write
    succeeds and the new row is stamped later than every message already
    in that conversation, then the history of the conversation, for any
    positive limit, starts with the reply: role [assistant], the content
    the provider returned, the instant of the insert. *)
Theorem reply_comes_first_in_history (w : World) (req : Request) (s : Store)
    (b : RequestBody) (q : ChatRequest) (st : Z) (c : Completion)
    (conv : string) (p_limit : Z) :
  json_body req = Some b ->
  conversation_of b = Some conv ->
  upstream_calls (snd (serve w req s)) = (upstream_calls s ++ [q])%list ->
  fetch w q = FetchResolved st (CompletionBody c) ->
  ok st = true ->
  message_write_error w = None ->
  (forall m, In m (conversation_messages s) ->
             ConversationMessages.conversation_id m = conv ->
             ConversationMessages.created_at m < message_row_now w) ->
  0 < p_limit ->
  exists rest,
    Chat.get_conversation_history (conversation_messages (snd (serve w req s)))
                                  conv p_limit
    = Some ({| Chat.id := message_row_id w;
               Chat.role := "assistant";
               Chat.content := choice_content c;
               Chat.created_at := message_row_now w |} :: rest).
Proof.
  intros Hb Hconv Hq Hf Hok Hwrite Hnewer Hlimit.
  destruct (completed_run w req s q st c Hq Hf Hok)
    as (u & b' & Hauth & _ & _ & HM & _).
  assert (b' = b) by (destruct Hauth as [_ _ _ Hb']; congruence). subst b'.
  rewrite Hconv, Hwrite in HM. rewrite HM.
  unfold Chat.get_conversation_history, Chat.selected.
  replace (p_limit <? 0) with false by (symmetry; apply Z.ltb_ge; lia).
  rewrite filter_app. cbn [filter message_row ConversationMessages.conversation_id].
  rewrite String.eqb_refl.
  rewrite newest_first_app_newest.
  - destruct (Z.to_nat p_limit) as [|n] eqn:En; [lia|].
    cbn [firstn map]. eexists. reflexivity.
  - intros m Hm. apply filter_In in Hm. destruct Hm as (Hm & Hid).
    apply String.eqb_eq in Hid. cbn [message_row ConversationMessages.created_at].
    apply Hnewer; assumption.
Qed.

(** The reply to a request within [conv-1], which already holds three
    messages next to one of [conv-2]: the history of [conv-1] is the
    reply and then the three, newest first, and the message of [conv-2]
    is not in it. *)
Lemma reply_comes_first_in_history_witness :
  exists rest,
    Chat.get_conversation_history
      (conversation_messages
         (snd (serve Fixture.healthy (Fixture.post chat_in_conversation)
                     store_with_messages)))
      "conv-1" 10
    = Some ({| Chat.id := message_row_id Fixture.healthy;
               Chat.role := "assistant";
               Chat.content := choice_content Fixture.completion50;
               Chat.created_at := message_row_now Fixture.healthy |} :: rest)
    /\ rest = [ {| Chat.id := "m3"; Chat.role := "assistant";
                   Chat.content := "c"; Chat.created_at := 30 |};
                {| Chat.id := "m2"; Chat.role := "user";
                   Chat.content := "b"; Chat.created_at := 20 |};
                {| Chat.id := "m1"; Chat.role := "user";
                   Chat.content := "a"; Chat.created_at := 10 |} ].
Proof.
  destruct (reply_comes_first_in_history Fixture.healthy
              (Fixture.post chat_in_conversation) store_with_messages
              chat_in_conversation (chat_request "sk-test" Fixture.hello) 200
              Fixture.completion50 "conv-1" 10
              eq_refl eq_refl eq_refl eq_refl eq_refl eq_refl)
    as (rest & E).
  - intros m [<-|[<-|[<-|[<-|[]]]]] _; vm_compute; reflexivity.
  - reflexivity.
  - exists rest. split; [exact E|].
    vm_compute in E. inversion E. reflexivity.
Defined.
